(** * driveDog: a verification model of the Drive synchronisation worker

    The development embeds [src/driveDog.py] (class [DriveSync]) in Rocq.
    The program is effectful Python: it talks to a remote API, to the local
    file system and to the process logger.  The embedding threads one
    explicit [world] (file system, clock, log, trace of API requests)
    through a small state-and-exception monad [M]; every method of the class
    is one definition of the same name.

    Environment model (what the script calls but does not define):
    - the file system is a finite map from canonical absolute paths (lists
      of component names) to nodes; there are no symbolic links, and the
      only permission bit modelled is a file's read permission;
    - [hashlib], the Drive service and [time.sleep] are parameters;
    - loops whose length the environment decides ([while True] over page
      tokens, the recursive descent into folders, [os.walk]) carry fuel.

    Assumptions of the model, which the statements that depend on them
    repeat:
    - the records of the logger are kept in the [log] of the world.  The
      file that the rotating handler writes in the working directory
      ([drive_sync.log] and its rotations) is not written in [fs]: what
      [fs] holds at those paths is what the initial file system held, so
      [fs] says nothing of the content of the log file;
    - [os.remove] fails on a missing path and on a directory.  The other
      ways it can fail on a regular file (a parent directory without
      write permission, a file held open on some platforms) are not
      modelled, so nothing is stated of a purge that cannot unlink;
    - the cancellation signal is delivered during [time.sleep] and
      nowhere else;
    - a relative path is resolved lexically ([os_path_join_fs]).  This is
      what the kernel does for the plain paths (no empty, ['.'] or
      ['..'] component); for the others the kernel also requires every
      component it goes through to exist, and the model does not. *)

From stdpp Require Import gmap strings list fin_maps pretty.
From Stdlib Require Import Strings.Byte Strings.Ascii.

Open Scope string_scope.
Open Scope list_scope.

(** ** Exceptions, log records, API requests *)

Inductive exn_class :=
  | FileExistsError | FileNotFoundError | NotADirectoryError
  | IsADirectoryError | PermissionError | SameFileError
  | HttpError | KeyboardInterrupt.

Record exn := Exn { exn_cls : exn_class; exn_msg : string }.

(** [except Exception] catches everything but [KeyboardInterrupt]. *)
Definition is_Exception (e : exn) : bool :=
  match exn_cls e with KeyboardInterrupt => false | _ => true end.

Definition is_OSError (e : exn) : bool :=
  match exn_cls e with
  | HttpError | KeyboardInterrupt => false
  | _ => true
  end.

Definition is_FileExistsError (e : exn) : bool :=
  match exn_cls e with FileExistsError => true | _ => false end.

Definition is_KeyboardInterrupt (e : exn) : bool :=
  match exn_cls e with KeyboardInterrupt => true | _ => false end.

(** [str(e)] *)
Definition str (e : exn) : string := exn_msg e.

Inductive level := DEBUG | INFO | WARNING | ERROR.

(** The root logger is set to [logging.INFO] by [setup_logging]. *)
Definition level_enabled (l : level) : bool :=
  match l with DEBUG => false | _ => true end.

Inductive api_call :=
  | ListCall (folder_id : string) (page_token : option string)
  | NextChunkCall (file_id : string)
  | CreateCall (name : string) (parent : string).

(** ** Local file system *)

Abbreviation bytes := (list byte).
Abbreviation pathname := (list string).

Inductive node :=
  | File (data : bytes) (mtime : nat) (readable : bool)
  | Dir.

Record world := World {
  fs : gmap pathname node;
  clock : nat;
  log : list (level * string);
  calls : list api_call
}.

Definition set_fs (m : gmap pathname node) (w : world) : world :=
  World m (clock w) (log w) (calls w).

(** The root directory always exists. *)
Definition node_at (m : gmap pathname node) (p : pathname) : option node :=
  match p with
  | [] => Some Dir
  | _ => m !! p
  end.

Definition is_dir (m : gmap pathname node) (p : pathname) : bool :=
  match node_at m p with Some Dir => true | _ => false end.

Definition is_file (m : gmap pathname node) (p : pathname) : bool :=
  match node_at m p with Some (File _ _ _) => true | _ => false end.

Definition path_exists (m : gmap pathname node) (p : pathname) : bool :=
  match node_at m p with Some _ => true | None => false end.

(** [os.path.dirname] on a canonical path. *)
Definition dirname (p : pathname) : pathname := removelast p.

(** [os.path.basename] on a canonical path. *)
Definition basename (p : pathname) : string := List.last p "".

(** A canonical path printed as the string the script would hold. *)
Definition path_str (p : pathname) : string := "/" +:+ String.concat "/" p.

(** ** The monad: state, exceptions, fuel *)

Inductive outcome (A : Type) :=
  | Ret (a : A)
  | Raise (e : exn)
  | OutOfFuel.
Arguments Ret {A} a.
Arguments Raise {A} e.
Arguments OutOfFuel {A}.

Definition M (A : Type) : Type := world → outcome A * world.

Definition ret {A} (a : A) : M A := λ w, (Ret a, w).

Definition bind {A B} (m : M A) (k : A → M B) : M B := λ w,
  match m w with
  | (Ret a, w') => k a w'
  | (Raise e, w') => (Raise e, w')
  | (OutOfFuel, w') => (OutOfFuel, w')
  end.

Definition raise {A} (e : exn) : M A := λ w, (Raise e, w).

Definition out_of_fuel {A} : M A := λ w, (OutOfFuel, w).

(** [try: m  except <classes selected by catches> as e: h e] *)
Definition try_except {A} (m : M A) (catches : exn → bool) (h : exn → M A) : M A :=
  λ w,
    match m w with
    | (Raise e, w') => if catches e then h e w' else (Raise e, w')
    | r => r
    end.

Declare Scope monad_scope.
Delimit Scope monad_scope with monad.
Notation "x <- m ;; k" := (bind m (λ x, k))
  (at level 100, m at next level, right associativity) : monad_scope.
Notation "m ;;; k" := (bind m (λ _, k))
  (at level 100, right associativity) : monad_scope.
Open Scope monad_scope.

(** [for x in l: body x] *)
Fixpoint for_each {A} (l : list A) (body : A → M unit) : M unit :=
  match l with
  | [] => ret tt
  | x :: l' => body x ;;; for_each l' body
  end.

(** ** Logging

    A record is appended to the [log] of the world; the handler's file
    is not part of [fs]. *)

Definition logging_log (l : level) (msg : string) : M unit := λ w,
  (Ret tt,
   if level_enabled l
   then World (fs w) (clock w) (log w ++ [(l, msg)]) (calls w)
   else w).

Definition logging_debug := logging_log DEBUG.
Definition logging_info := logging_log INFO.
Definition logging_warning := logging_log WARNING.
Definition logging_error := logging_log ERROR.

(** A request to the remote service, recorded in the trace. *)
Definition request (c : api_call) : M unit := λ w,
  (Ret tt, World (fs w) (clock w) (log w) (calls w ++ [c])).

(** ** [os], [shutil] and file objects *)

Definition os_path_exists (p : pathname) : M bool := λ w,
  (Ret (path_exists (fs w) p), w).

Definition os_path_isdir (p : pathname) : M bool := λ w,
  (Ret (is_dir (fs w) p), w).

(** [os.mkdir]: the parent must be a directory and the name free. *)
Definition os_mkdir (p : pathname) : M unit := λ w,
  match node_at (fs w) p with
  | Some _ => (Raise (Exn FileExistsError (path_str p)), w)
  | None =>
      match node_at (fs w) (dirname p) with
      | Some Dir => (Ret tt, set_fs (<[p := Dir]> (fs w)) w)
      | Some (File _ _ _) => (Raise (Exn NotADirectoryError (path_str p)), w)
      | None => (Raise (Exn FileNotFoundError (path_str p)), w)
      end
  end.

(** [os.makedirs(name, exist_ok=...)], following CPython's recursion on the
    head of the path: [rp] is the path reversed (its last component
    first). *)
Fixpoint os_makedirs_rev (rp : list string) (exist_ok : bool) : M unit :=
  (match rp with
   | [] => ret tt
   | _ :: rhead =>
       head_exists <- os_path_exists (rev rhead) ;;
       if negb head_exists
       then try_except (os_makedirs_rev rhead exist_ok)
                       is_FileExistsError (λ _, ret tt)
       else ret tt
   end) ;;;
  try_except (os_mkdir (rev rp)) is_OSError
    (λ e, isd <- os_path_isdir (rev rp) ;;
          if negb exist_ok || negb isd then raise e else ret tt).

Definition os_makedirs (p : pathname) (exist_ok : bool) : M unit :=
  os_makedirs_rev (rev p) exist_ok.

(** [with open(p, 'wb') as f: f.write(data)].  A new file is readable; an
    existing file keeps its permission.  The write stamps the file with
    the current time and time advances. *)
Definition open_wb_write (p : pathname) (data : bytes) : M unit := λ w,
  match node_at (fs w) p with
  | Some Dir => (Raise (Exn IsADirectoryError (path_str p)), w)
  | Some (File _ _ r) =>
      (Ret tt, World (<[p := File data (clock w) r]> (fs w)) (S (clock w)) (log w) (calls w))
  | None =>
      match node_at (fs w) (dirname p) with
      | Some Dir =>
          (Ret tt, World (<[p := File data (clock w) true]> (fs w)) (S (clock w)) (log w) (calls w))
      | Some (File _ _ _) => (Raise (Exn NotADirectoryError (path_str p)), w)
      | None => (Raise (Exn FileNotFoundError (path_str p)), w)
      end
  end.

(** [open(p, 'rb')] followed by reading the file to its end. *)
Definition open_rb_read (p : pathname) : M bytes := λ w,
  match node_at (fs w) p with
  | Some (File data _ true) => (Ret data, w)
  | Some (File _ _ false) => (Raise (Exn PermissionError (path_str p)), w)
  | Some Dir => (Raise (Exn IsADirectoryError (path_str p)), w)
  | None => (Raise (Exn FileNotFoundError (path_str p)), w)
  end.

(** [os.remove]: unlinks a file, refuses a directory.  A regular file is
    always unlinked: failures of the unlink itself are not modelled. *)
Definition os_remove (p : pathname) : M unit := λ w,
  match node_at (fs w) p with
  | Some (File _ _ _) => (Ret tt, set_fs (delete p (fs w)) w)
  | Some Dir => (Raise (Exn IsADirectoryError (path_str p)), w)
  | None => (Raise (Exn FileNotFoundError (path_str p)), w)
  end.

(** [shutil.copy2(src, dst)]: a directory [dst] receives the file under
    the source's base name; the copy carries the source's modification
    time and permission ([copystat]). *)
Definition shutil_copy2 (src dst : pathname) : M unit := λ w,
  let dst := if is_dir (fs w) dst then dst ++ [basename src] else dst in
  if bool_decide (src = dst) && path_exists (fs w) src
  then (Raise (Exn SameFileError (path_str src)), w)
  else
    match node_at (fs w) src with
    | Some (File data mt true) =>
        match node_at (fs w) dst with
        | Some Dir => (Raise (Exn IsADirectoryError (path_str dst)), w)
        | Some (File _ _ _) =>
            (Ret tt, World (<[dst := File data mt true]> (fs w)) (S (clock w)) (log w) (calls w))
        | None =>
            match node_at (fs w) (dirname dst) with
            | Some Dir =>
                (Ret tt, World (<[dst := File data mt true]> (fs w)) (S (clock w)) (log w) (calls w))
            | Some (File _ _ _) => (Raise (Exn NotADirectoryError (path_str dst)), w)
            | None => (Raise (Exn FileNotFoundError (path_str dst)), w)
            end
        end
    | Some (File _ _ false) => (Raise (Exn PermissionError (path_str src)), w)
    | Some Dir => (Raise (Exn IsADirectoryError (path_str src)), w)
    | None => (Raise (Exn FileNotFoundError (path_str src)), w)
    end.

(** The entries of directory [top]: the keys one component below it. *)
Definition child_name (top k : pathname) : option string :=
  match drop (length top) k with
  | [x] => if bool_decide (take (length top) k = top) then Some x else None
  | _ => None
  end.

Definition entries (m : gmap pathname node) (top : pathname) : list (string * node) :=
  omap (λ kn, match child_name top kn.1 with
              | Some x => Some (x, kn.2)
              | None => None
              end) (map_to_list m).

Definition entry_is_dir (xn : string * node) : bool :=
  match xn.2 with Dir => true | _ => false end.

(** [os.scandir(top)] as [os.walk] uses it: the names of the
    sub-directories and of the other entries, or [None] when [top] cannot
    be scanned. *)
Definition os_scandir (top : pathname) : M (option (list string * list string)) := λ w,
  (Ret (if is_dir (fs w) top
        then Some ((List.filter entry_is_dir (entries (fs w) top)).*1,
                   (List.filter (λ xn, negb (entry_is_dir xn)) (entries (fs w) top)).*1)
        else None), w).

(** [for root, dirs, files in os.walk(top): body root dirs files], top-down.
    The generator is lazy: each directory is scanned when the loop reaches
    it, after the body ran for the directories before it.  A directory
    that cannot be scanned is skipped ([onerror=None]). *)
Fixpoint os_walk (fuel : nat) (stack : list pathname)
    (body : pathname → list string → list string → M unit) : M unit :=
  match stack with
  | [] => ret tt
  | top :: stack' =>
      match fuel with
      | O => out_of_fuel
      | S fuel' =>
          sc <- os_scandir top ;;
          match sc with
          | None => os_walk fuel' stack' body
          | Some (dirs, nondirs) =>
              body top dirs nondirs ;;;
              os_walk fuel' (map (λ d, top ++ [d]) dirs ++ stack') body
          end
      end
  end.

(** [os.path.relpath(path, start)] on canonical paths. *)
Fixpoint relpath (p start : pathname) : pathname :=
  match p, start with
  | x :: p', y :: start' =>
      if bool_decide (x = y) then relpath p' start'
      else replicate (length start) ".." ++ p
  | _, _ => replicate (length start) ".." ++ p
  end.

(** ** The remote service *)

(** One entry of a listing: the dictionary the API returns, with the
    ['path'] key that [get_drive_files] adds. *)
Record item := Item {
  item_id : string;
  item_name : string;
  item_mimeType : string;
  item_md5Checksum : option string;
  item_modifiedTime : string;
  item_path : option string
}.

Definition set_path (it : item) (p : string) : item :=
  Item (item_id it) (item_name it) (item_mimeType it) (item_md5Checksum it)
       (item_modifiedTime it) (Some p).

(** One page of [files().list(...).execute()]. *)
Record response := Response {
  files : list item;
  nextPageToken : option string
}.

(** What the successive [next_chunk()] calls of one download return.  A
    failing request raises [HttpError] with the given message. *)
Inductive media :=
  | MediaChunk (data : bytes) (progress : nat) (rest : media)
  | MediaDone (data : bytes) (progress : nat)
  | MediaError (msg : string).

Record Drive := {
  files_list : string → option string → string + response;
  get_media : string → media;
  files_create : string → string → string + string
}.

(** [hashlib.md5]: the hash object's state and its three operations. *)
Record Hashlib := {
  md5_state : Type;
  md5_new : md5_state;
  md5_update : md5_state → bytes → md5_state;
  md5_hexdigest : md5_state → string
}.

(** The fields of a [DriveSync] object; [cwd] is the process's working
    directory, against which ['drive_sync.log'] is resolved. *)
Record DriveSync := {
  service : Drive;
  drive_folder_id : string;
  log_drive_folder_id : string;
  local_folder : pathname;
  output_folder : pathname;
  cwd : pathname
}.

(** ** Path strings *)

Definition startswith (s pre : string) : bool := String.prefix pre s.

Fixpoint endswith_sep (s : string) : bool :=
  match s with
  | EmptyString => false
  | String c EmptyString => bool_decide (c = "/"%char)
  | String _ s' => endswith_sep s'
  end.

(** [os.path.join(a, b)] of [posixpath], on strings. *)
Definition os_path_join (a b : string) : string :=
  if startswith b "/" then b
  else if bool_decide (a = "") || endswith_sep a then a +:+ b
  else a +:+ "/" +:+ b.

(** The components of a path string, split at every ['/']. *)
Fixpoint split_path (s : string) (cur : string) : list string :=
  match s with
  | EmptyString => [cur]
  | String c s' =>
      if bool_decide (c = "/"%char) then cur :: split_path s' ""
      else split_path s' (cur +:+ String c "")
  end.

(** How the kernel walks one component: empty and ['.'] stay, ['..'] goes
    up (the root is its own parent), a name goes down. *)
Definition norm_step (stack : pathname) (c : string) : pathname :=
  if bool_decide (c = "" ∨ c = ".") then stack
  else if bool_decide (c = "..") then removelast stack
  else stack ++ [c].

(** [os.path.join(base, rel)] where [base] is a canonical directory and
    [rel] a path string, resolved lexically to a canonical path; an
    absolute [rel] discards [base].  For a plain [rel] this is the path
    the kernel resolves the string to, whatever exists. *)
Definition os_path_join_fs (base : pathname) (rel : string) : pathname :=
  fold_left norm_step (split_path rel "")
            (if startswith rel "/" then [] else base).

Definition is_log_name (name : string) : bool := startswith name "drive_sync.log".

Definition folder_mime : string := "application/vnd.google-apps.folder".

(** Python truth value of a page token. *)
Definition truthy (t : option string) : bool :=
  match t with
  | Some s => negb (bool_decide (s = ""))
  | None => false
  end.

(** ** The methods of [DriveSync] *)

Section DriveSync.
Variable hashlib : Hashlib.
Variable self : DriveSync.

Definition ensure_dir (directory : pathname) : M unit :=
  ex <- os_path_exists directory ;;
  if negb ex then os_makedirs directory false else ret tt.

(** The [for item in response.get('files', [])] loop; [recurse] is the
    recursive call [self.get_drive_files(item['id'])]. *)
Fixpoint for_items (recurse : string → M (list item)) (items : list item)
    (results : list item) : M (list item) :=
  match items with
  | [] => ret results
  | it :: items' =>
      if is_log_name (item_name it) then
        logging_info ("Skipping log file in Drive: " +:+ item_name it) ;;;
        for_items recurse items' results
      else if bool_decide (item_mimeType it = folder_mime) then
        sub_items <- recurse (item_id it) ;;
        let sub_items :=
          map (λ sub_item,
                 set_path sub_item
                   (os_path_join (item_name it) (default "" (item_path sub_item))))
              sub_items in
        for_items recurse items' (results ++ sub_items)
      else
        for_items recurse items' (results ++ [set_path it (item_name it)])
  end.

Definition files_list_execute (folder_id : string) (page_token : option string)
    : M response :=
  request (ListCall folder_id page_token) ;;;
  match files_list (service self) folder_id page_token with
  | inl msg => raise (Exn HttpError msg)
  | inr r => ret r
  end.

(** [get_drive_files] and its [while True] loop over pages.  The
    [try] block is inside the loop and covers the recursive calls, so
    an error is logged once per enclosing folder and raised again. *)
Fixpoint get_drive_files_from (fuel : nat) (folder_id : string) : M (list item) :=
  match fuel with
  | O => out_of_fuel
  | S fuel' =>
      logging_info ("Fetching Drive files for folder " +:+ folder_id) ;;;
      while_pages fuel' folder_id None []
  end
with while_pages (fuel : nat) (folder_id : string) (page_token : option string)
    (results : list item) : M (list item) :=
  match fuel with
  | O => out_of_fuel
  | S fuel' =>
      r <- try_except
             (response <- files_list_execute folder_id page_token ;;
              results' <- for_items (get_drive_files_from fuel') (files response) results ;;
              ret (results', nextPageToken response))
             is_Exception
             (λ e, logging_error ("Error fetching Drive files: " +:+ str e) ;;;
                   raise e) ;;
      if truthy r.2 then while_pages fuel' folder_id r.2 r.1
      else ret r.1
  end.

Definition get_drive_files (fuel : nat) (folder_id : option string) : M (list item) :=
  get_drive_files_from fuel (default (drive_folder_id self) folder_id).

(** The [while not done] loop of [download_file], filling [file_handle]. *)
Fixpoint next_chunk_loop (file_id : string) (m : media) (file_handle : bytes)
    : M bytes :=
  request (NextChunkCall file_id) ;;;
  match m with
  | MediaError msg => raise (Exn HttpError msg)
  | MediaDone data progress =>
      logging_debug ("Download progress: " +:+ pretty progress +:+ "%") ;;;
      ret (file_handle ++ data)
  | MediaChunk data progress rest =>
      logging_debug ("Download progress: " +:+ pretty progress +:+ "%") ;;;
      next_chunk_loop file_id rest (file_handle ++ data)
  end.

Definition download_file (file_id : string) (file_path : pathname) : M bool :=
  logging_info ("Downloading file from Drive to " +:+ path_str file_path) ;;;
  try_except
    (file_handle <- next_chunk_loop file_id (get_media (service self) file_id) [] ;;
     os_makedirs (dirname file_path) true ;;;
     open_wb_write file_path file_handle ;;;
     logging_info ("Finished downloading file: " +:+ path_str file_path) ;;;
     ret true)
    is_Exception
    (λ e, logging_error ("Error downloading file " +:+ path_str file_path
                         +:+ ": " +:+ str e) ;;;
          ret false).

(** The body of [for file in files] in [move_files]. *)
Definition move_file (root target_dir : pathname) (file : string) : M unit :=
  let src_file_path := root ++ [file] in
  let dst_file_path := target_dir ++ [file] in
  ex <- os_path_exists dst_file_path ;;
  (if ex then
     logging_info ("Overwriting existing file in output: "
                   +:+ path_str dst_file_path) ;;;
     os_remove dst_file_path
   else ret tt) ;;;
  shutil_copy2 src_file_path dst_file_path ;;;
  logging_info ("Copied file " +:+ file +:+ " to " +:+ path_str dst_file_path).

(** The body of [for root, dirs, files in os.walk(intake_dir)]. *)
Definition move_dir (intake_dir output_dir root : pathname)
    (dirs files : list string) : M unit :=
  let relative_path := relpath root intake_dir in
  let target_dir := output_dir ++ relative_path in
  ensure_dir target_dir ;;;
  for_each files (move_file root target_dir).

Definition move_files (fuel : nat) (intake_dir output_dir : pathname) : M unit :=
  os_walk fuel [intake_dir] (move_dir intake_dir output_dir).

Definition upload_log_file (local_log_path : pathname) (folder_id : string) : M bool :=
  ex <- os_path_exists local_log_path ;;
  if negb ex then
    logging_warning ("Log file does not exist locally: " +:+ path_str local_log_path) ;;;
    ret false
  else
    try_except
      (_ <- open_rb_read local_log_path ;;
       request (CreateCall (basename local_log_path) folder_id) ;;;
       match files_create (service self) (basename local_log_path) folder_id with
       | inl msg => raise (Exn HttpError msg)
       | inr created =>
           logging_info ("Uploaded '" +:+ path_str local_log_path
                         +:+ "' to Drive folder '" +:+ folder_id
                         +:+ "'. File ID: " +:+ created) ;;;
           ret true
       end)
      is_Exception
      (λ e, logging_error ("Error uploading log file '" +:+ path_str local_log_path
                           +:+ "' to Drive: " +:+ str e) ;;;
            ret false).

(** [iter(lambda: f.read(4096), b"")]: the blocks read from a file. *)
Fixpoint read_blocks (fuel : nat) (data : bytes) : list bytes :=
  match fuel with
  | O => []
  | S fuel' =>
      match data with
      | [] => []
      | _ => take 4096 data :: read_blocks fuel' (drop 4096 data)
      end
  end.

Definition md5 (file_path : pathname) : M (option string) :=
  let hash_md5 := md5_new hashlib in
  try_except
    (data <- open_rb_read file_path ;;
     ret (Some (md5_hexdigest hashlib
                  (fold_left (md5_update hashlib)
                             (read_blocks (length data) data) hash_md5))))
    is_Exception
    (λ e, logging_error ("Error computing MD5 for " +:+ path_str file_path
                         +:+ ": " +:+ str e) ;;;
          ret None).

(** The body of [for drive_file in drive_files] in [sync]. *)
Definition sync_entry (drive_file : item) : M unit :=
  let relative_path := default (item_name drive_file) (item_path drive_file) in
  let local_path := os_path_join_fs (output_folder self) relative_path in
  ex <- os_path_exists local_path ;;
  skip <-
    (if ex then
       local_md5 <- md5 local_path ;;
       let drive_md5 := item_md5Checksum drive_file in
       if bool_decide (local_md5 = drive_md5) then
         logging_info ("Skipping " +:+ path_str local_path +:+ ", already up-to-date.") ;;;
         ret true
       else ret false
     else ret false) ;;
  if skip then ret tt
  else _ <- download_file (item_id drive_file) local_path ;; ret tt.

(** The body of the purge loop's inner [for file in files]. *)
Definition purge_file (root : pathname) (file : string) : M unit :=
  let file_path := root ++ [file] in
  try_except
    (os_remove file_path ;;;
     logging_info ("Deleted cahced file: " +:+ path_str file_path))
    is_Exception
    (λ e, logging_error ("Error deleting cached " +:+ path_str file_path
                         +:+ ": " +:+ str e)).

(** The body of the purge loop's [for root, dirs, files in os.walk(...)]. *)
Definition purge_dir (root : pathname) (dirs files : list string) : M unit :=
  for_each files (purge_file root).

Definition purge (fuel : nat) : M unit :=
  os_walk fuel [local_folder self] purge_dir.

(** What follows the reconcile loop inside the [try] block of [sync]:
    merge, purge, the completion record and the log upload. *)
Definition sync_tail (fuel : nat) : M unit :=
  move_files fuel (local_folder self) (output_folder self) ;;;
  purge fuel ;;;
  logging_info "=== Sync process complete ===" ;;;
  _ <- upload_log_file (cwd self ++ ["drive_sync.log"]) (log_drive_folder_id self) ;;
  ret tt.

(** The handler of [sync]'s [except Exception as e]. *)
Definition sync_except (e : exn) : M unit :=
  logging_error ("Sync error: " +:+ str e).

Definition sync (fuel : nat) : M unit :=
  logging_info "=== Starting sync process ===" ;;;
  try_except
    (drive_files <- get_drive_files fuel None ;;
     for_each drive_files sync_entry ;;;
     sync_tail fuel)
    is_Exception
    sync_except.

(** [time.sleep(interval)]; [interrupted] says whether the cancellation
    signal arrives during this sleep.  It arrives nowhere else. *)
Definition time_sleep (interval : nat) (interrupted : bool) : M unit := λ w,
  if interrupted then (Raise (Exn KeyboardInterrupt ""), w)
  else (Ret tt, World (fs w) (clock w + interval) (log w) (calls w)).

Definition datetime_now : M nat := λ w, (Ret (clock w), w).

(** One turn of the [while True] loop of [start_continuous_sync]; the
    result says whether the loop was left by [break]. *)
Definition poll_once (fuel interval : nat) (interrupted : bool) : M bool :=
  try_except
    (sync fuel ;;;
     now <- datetime_now ;;
     logging_info ("Sync completed at " +:+ pretty now) ;;;
     time_sleep interval interrupted ;;;
     ret false)
    (λ e, is_KeyboardInterrupt e || is_Exception e)
    (λ e, if is_KeyboardInterrupt e then
            logging_info "Sync stopped by user." ;;;
            ret true
          else
            logging_error ("Continuous sync error: " +:+ str e) ;;;
            time_sleep interval interrupted ;;;
            ret false).

(** The loop runs once per element of [sleeps], the fate of each
    inter-cycle sleep; it has no exit other than the interrupt. *)
Fixpoint poll_loop (fuel interval : nat) (sleeps : list bool) : M unit :=
  match sleeps with
  | [] => out_of_fuel
  | interrupted :: sleeps' =>
      stop <- poll_once fuel interval interrupted ;;
      if stop then ret tt else poll_loop fuel interval sleeps'
  end.

Definition start_continuous_sync (fuel interval : nat) (sleeps : list bool) : M unit :=
  logging_info ("Starting continuous sync; interval: " +:+ pretty interval
                +:+ " seconds.") ;;;
  poll_loop fuel interval sleeps.

End DriveSync.

(** * Specification vocabulary *)

(** The content a download delivers when every [next_chunk()] call
    succeeds, or the message of the request that fails. *)
Fixpoint media_content (m : media) : string + bytes :=
  match m with
  | MediaError msg => inl msg
  | MediaDone data _ => inr data
  | MediaChunk data _ rest =>
      match media_content rest with
      | inl msg => inl msg
      | inr c => inr (data ++ c)
      end
  end.

(** [m'] differs from [m] only by new directories along the path [p]. *)
Definition new_dirs_along (p : pathname) (m m' : gmap pathname node) : Prop :=
  ∀ q, m' !! q = m !! q ∨ (m !! q = None ∧ m' !! q = Some Dir ∧ q `prefix_of` p).

(** The computation ended, and not by the cancellation signal: it
    returned, or raised an [Exception]. *)
Definition finished {A} (o : outcome A) : Prop :=
  match o with
  | Ret _ => True
  | Raise e => is_Exception e = true
  | OutOfFuel => False
  end.

(** The digest [md5] computes for a file holding [data]. *)
Definition file_md5 (hashlib : Hashlib) (data : bytes) : string :=
  md5_hexdigest hashlib
    (fold_left (md5_update hashlib) (read_blocks (length data) data) (md5_new hashlib)).

(** The entry's name does not begin with the log file's name. *)
Definition not_log_item (it : item) : Prop := is_log_name (item_name it) = false.

(** The candidate local path of a listed entry. *)
Definition local_path (self : DriveSync) (drive_file : item) : pathname :=
  os_path_join_fs (output_folder self)
    (default (item_name drive_file) (item_path drive_file)).

(** The world after one more log record. *)
Definition logged (l : level) (msg : string) (w : world) : world :=
  World (fs w) (clock w) (log w ++ [(l, msg)]) (calls w).

(** * A concrete scenario

    A small remote tree, a local file system and a toy digest, used to
    run the model on explicit inputs. *)

(** The toy digest of a content is the content itself. *)
Definition toy_hashlib : Hashlib :=
  {| md5_state := bytes;
     md5_new := [];
     md5_update := λ s b, s ++ b;
     md5_hexdigest := String.string_of_list_byte |}.

Definition leaf (i n : string) (h : option string) : item :=
  Item i n "text/plain" h "2024-01-01T00:00:00Z" None.

Definition folder (i n : string) : item :=
  Item i n folder_mime None "2024-01-01T00:00:00Z" None.

(** Root: folder X, the uploaded log, then on a second page a file whose
    download breaks and a plain file.  X holds folder Y, Y holds f. *)
Definition demo_drive : Drive := {|
  files_list := λ folder_id page_token,
    if bool_decide (folder_id = "root") then
      match page_token with
      | None => inr (Response [folder "x" "X"; leaf "l" "drive_sync.log.1" None] (Some "t1"))
      | Some _ => inr (Response [leaf "b" "bad.bin" (Some "00"); leaf "g" "g.txt" (Some "xyz")] None)
      end
    else if bool_decide (folder_id = "x") then inr (Response [folder "y" "Y"] None)
    else if bool_decide (folder_id = "y") then inr (Response [leaf "f" "f" (Some "hello")] (Some ""))
    else inl "404 not found";
  get_media := λ file_id,
    if bool_decide (file_id = "f") then
      MediaChunk (String.list_byte_of_string "hel") 60
        (MediaDone (String.list_byte_of_string "lo") 100)
    else if bool_decide (file_id = "g") then
      MediaDone (String.list_byte_of_string "xyz") 100
    else if bool_decide (file_id = "b") then
      MediaChunk (String.list_byte_of_string "par") 50 (MediaError "503 backend error")
    else MediaError "404 not found";
  files_create := λ _ _, inr "new-id"
|}.

Definition demo_self : DriveSync := {|
  service := demo_drive;
  drive_folder_id := "root";
  log_drive_folder_id := "logs";
  local_folder := ["srv"; "inbox"];
  output_folder := ["srv"; "out"];
  cwd := ["srv"]
|}.

Definition demo_fs : gmap pathname node :=
  <[ ["srv"] := Dir ]>
  (<[ ["srv"; "inbox"] := Dir ]>
  (<[ ["srv"; "out"] := Dir ]>
  (<[ ["srv"; "inbox"; "a"] := Dir ]>
  (<[ ["srv"; "inbox"; "a"; "b.txt"] := File (String.list_byte_of_string "C") 0 true ]> ∅)))).

Definition demo_world : world := World demo_fs 5 [] [].

Definition demo_f : item := set_path (leaf "f" "f" (Some "hello")) "X/Y/f".
Definition demo_bad : item := set_path (leaf "b" "bad.bin" (Some "00")) "bad.bin".
Definition demo_g : item := set_path (leaf "g" "g.txt" (Some "xyz")) "g.txt".

Definition demo_listed : world :=
  (get_drive_files demo_self 10 None
     (logged INFO "=== Starting sync process ===" demo_world)).2.

(** An entry without remote checksum whose local file cannot be read. *)
Definition notes_entry : item := set_path (leaf "n" "notes" None) "notes".

Definition notes_world : world :=
  World (<[ ["srv"; "out"; "notes"] := File (String.list_byte_of_string "old") 3 false ]> demo_fs)
        5 [] [].

Definition is_list_call (c : api_call) : Prop :=
  match c with ListCall _ _ => True | _ => False end.

(** The listing request [c] was answered with a page. *)
Definition answered (svc : Drive) (c : api_call) : Prop :=
  match c with
  | ListCall f t => ∃ r, files_list svc f t = inr r
  | _ => False
  end.

(** What a run of the listing from [w] to [w'] with outcome [o] did: it
    touched neither the file system nor the clock, it sent listing
    requests only, and it raised exactly when its last request failed,
    with that request's error. *)
Definition listing_run {A} (svc : Drive) (w : world) (o : outcome A) (w' : world) : Prop :=
  fs w' = fs w ∧ clock w' = clock w ∧
  ∃ cs, calls w' = calls w ++ cs ∧
    match o with
    | Raise e =>
        ∃ f t msg cs', cs = cs' ++ [ListCall f t] ∧ Forall (answered svc) cs' ∧
          files_list svc f t = inl msg ∧ e = Exn HttpError msg
    | _ => Forall (answered svc) cs
    end.

(** Every run of [m] is a listing run. *)
Definition listing_only {A} (svc : Drive) (m : M A) : Prop :=
  ∀ w, listing_run svc w (m w).1 (m w).2.

(** [m'] is [m] with some regular files removed, nothing else changed. *)
Definition only_files_removed (m m' : gmap pathname node) : Prop :=
  ∀ p, m' !! p = m !! p ∨
       ((∃ data mt r, m !! p = Some (File data mt r)) ∧ m' !! p = None).

(** [m] keeps the world property [I], whatever its outcome. *)
Definition preserves {A} (I : world → Prop) (m : M A) : Prop :=
  ∀ w, I w → I (m w).2.

(** A service whose listing of folder X fails. *)
Definition broken_drive : Drive := {|
  files_list := λ folder_id page_token,
    if bool_decide (folder_id = "root") then
      inr (Response [leaf "g" "g.txt" (Some "xyz"); folder "x" "X"] None)
    else inl "500 internal error";
  get_media := get_media demo_drive;
  files_create := files_create demo_drive
|}.

Definition broken_self : DriveSync := {|
  service := broken_drive;
  drive_folder_id := "root";
  log_drive_folder_id := "logs";
  local_folder := ["srv"; "inbox"];
  output_folder := ["srv"; "out"];
  cwd := ["srv"]
|}.

(** Directories are kept from [m] to [m']. *)
Definition dirs_kept (m m' : gmap pathname node) : Prop :=
  ∀ p, is_dir m p = true → is_dir m' p = true.

(** [a] and [b] lie on one branch: one is an ancestor of the other. *)
Definition comparable (a b : pathname) : Prop := a `prefix_of` b ∨ b `prefix_of` a.

(** The trees rooted at [a] and [b] share no path. *)
Definition disjoint_trees (a b : pathname) : Prop := ¬ comparable a b.

(** [m'] agrees with [m] outside the branch of [root]. *)
Definition changes_along (root : pathname) (m m' : gmap pathname node) : Prop :=
  ∀ k, ¬ comparable root k → m' !! k = m !! k.

(** [d], relative to [root], is a directory reached from [root] through
    directories. *)
Definition dir_under (m : gmap pathname node) (root d : pathname) : Prop :=
  ∀ n : nat, (n ≤ length d)%nat → is_dir m (root ++ take n d) = true.

(** [k] is a regular file in a directory under [root]. *)
Definition file_under (m : gmap pathname node) (root k : pathname) : Prop :=
  ∃ d x, k = root ++ d ++ [x] ∧ dir_under m root d ∧ is_file m k = true.

(** Every exception [m] lets out is an [Exception]. *)
Definition no_interrupt {A} (m : M A) : Prop :=
  ∀ w e w', m w = (Raise e, w') → is_Exception e = true.

(** C3 as the specification words it, in two parts: every readable staged
    file ends up copied under the output root whatever happens to the
    other files, and every staged file is gone after the cycle. *)
Definition remaining_files_copied (hashlib : Hashlib) (self : DriveSync)
    (fuel : nat) (w : world) : Prop :=
  ∀ d x data mt,
    dir_under (fs w) (local_folder self) d →
    fs w !! (local_folder self ++ d ++ [x]) = Some (File data mt true) →
    ∃ mt' r, fs (sync hashlib self fuel w).2 !! (output_folder self ++ d ++ [x])
             = Some (File data mt' r).

Definition staged_files_deleted (hashlib : Hashlib) (self : DriveSync)
    (fuel : nat) (w : world) : Prop :=
  ∀ k, file_under (fs w) (local_folder self) k →
       fs (sync hashlib self fuel w).2 !! k = None.

(** A remote folder with nothing in it. *)
Definition empty_drive : Drive := {|
  files_list := λ _ _, inr (Response [] None);
  get_media := λ _, MediaError "404 not found";
  files_create := λ _ _, inr "new-id"
|}.

Definition merge_self : DriveSync := {|
  service := empty_drive;
  drive_folder_id := "root";
  log_drive_folder_id := "logs";
  local_folder := ["srv"; "inbox"];
  output_folder := ["srv"; "out"];
  cwd := ["srv"]
|}.

(** Staging holds a file that cannot be read and, in a sub-directory, a
    file that can. *)
Definition merge_fs : gmap pathname node :=
  <[ ["srv"] := Dir ]>
  (<[ ["srv"; "inbox"] := Dir ]>
  (<[ ["srv"; "out"] := Dir ]>
  (<[ ["srv"; "inbox"; "locked.txt"] := File (String.list_byte_of_string "L") 1 false ]>
  (<[ ["srv"; "inbox"; "sub"] := Dir ]>
  (<[ ["srv"; "inbox"; "sub"; "b.txt"] := File (String.list_byte_of_string "B") 2 true ]> ∅))))).

Definition merge_world : world := World merge_fs 5 [] [].

(** The world of that scenario when the merge starts, and when it fails. *)
Definition merge_reconciled : world :=
  (get_drive_files merge_self 10 None
     (logged INFO "=== Starting sync process ===" merge_world)).2.

Definition merge_failed : world :=
  (move_files 10 (local_folder merge_self) (output_folder merge_self) merge_reconciled).2.

(** C9 as the specification words it: after the merge pass every
    directory of the staging tree has a directory at the same relative
    path under the output root. *)
Definition merge_mirrors_directories (fuel : nat) (intake output : pathname)
    (w : world) : Prop :=
  ∀ d, dir_under (fs w) intake d →
       is_dir (fs (move_files fuel intake output w).2) (output ++ d) = true.

(** Staging holds the empty directory [a]; the output tree holds a
    regular file of that name. *)
Definition mirror_fs : gmap pathname node :=
  <[ ["srv"] := Dir ]>
  (<[ ["srv"; "inbox"] := Dir ]>
  (<[ ["srv"; "out"] := Dir ]>
  (<[ ["srv"; "inbox"; "a"] := Dir ]>
  (<[ ["srv"; "out"; "a"] := File (String.list_byte_of_string "x") 1 true ]> ∅)))).

Definition mirror_world : world := World mirror_fs 5 [] [].

(** What the merge keeps true of the file system [m0] it started from:
    directories stay, and no regular file appears where a staging
    directory is to be mirrored. *)
Definition merge_inv (m0 : gmap pathname node) (intake output : pathname)
    (w : world) : Prop :=
  dirs_kept m0 (fs w) ∧
  ∀ d, dir_under m0 intake d → is_file m0 (output ++ d) = false →
       is_file (fs w) (output ++ d) = false.

(** C1 as the specification words it: every file that exists after a
    first cycle is the same file, content and modification time, after a
    second cycle run from there against the same remote. *)
Definition cycle_idempotent (hashlib : Hashlib) (self : DriveSync)
    (fuel : nat) (w : world) : Prop :=
  ∀ p data mt r,
    fs (sync hashlib self fuel w).2 !! p = Some (File data mt r) →
    fs (sync hashlib self fuel (sync hashlib self fuel w).2).2 !! p
      = Some (File data mt r).

(** The remote holds one file; staging holds a file of the same name
    with another content. *)
Definition clash_drive : Drive := {|
  files_list := λ _ _, inr (Response [leaf "r" "report.txt" (Some "REMOTE")] None);
  get_media := λ _, MediaDone (String.list_byte_of_string "REMOTE") 100;
  files_create := λ _ _, inr "new-id"
|}.

Definition clash_self : DriveSync := {|
  service := clash_drive;
  drive_folder_id := "root";
  log_drive_folder_id := "logs";
  local_folder := ["srv"; "inbox"];
  output_folder := ["srv"; "out"];
  cwd := ["srv"]
|}.

Definition clash_fs : gmap pathname node :=
  <[ ["srv"] := Dir ]>
  (<[ ["srv"; "inbox"] := Dir ]>
  (<[ ["srv"; "out"] := Dir ]>
  (<[ ["srv"; "inbox"; "report.txt"] := File (String.list_byte_of_string "STAGED") 1 true ]> ∅))).

Definition clash_world : world := World clash_fs 5 [] [].

(** The local file of a listed entry is readable and its digest is the
    entry's remote checksum. *)
Definition in_sync (hashlib : Hashlib) (self : DriveSync)
    (m : gmap pathname node) (drive_file : item) : Prop :=
  ∃ data mt,
    node_at m (local_path self drive_file) = Some (File data mt true) ∧
    item_md5Checksum drive_file = Some (file_md5 hashlib data).

(** No regular file lies below the staging root. *)
Definition no_staged_files (self : DriveSync) (m : gmap pathname node) : Prop :=
  ∀ d x, is_file m (local_folder self ++ d ++ [x]) = false.

(** [m'] holds exactly the regular files of [m], unchanged. *)
Definition same_files (m m' : gmap pathname node) : Prop :=
  ∀ p data mt r, m' !! p = Some (File data mt r) ↔ m !! p = Some (File data mt r).

(** The state of a cycle that has written no file since [m0] and finds
    nothing to merge. *)
Definition quiet (self : DriveSync) (m0 : gmap pathname node) (w : world) : Prop :=
  same_files m0 (fs w) ∧ no_staged_files self (fs w).

(** A remote whose every file downloads and carries its true digest. *)
Definition steady_drive : Drive := {|
  files_list := λ folder_id page_token,
    if bool_decide (folder_id = "root") then
      inr (Response [folder "x" "X"; leaf "g" "g.txt" (Some "xyz")] None)
    else if bool_decide (folder_id = "x") then
      inr (Response [leaf "f" "f" (Some "hello")] None)
    else inl "404 not found";
  get_media := get_media demo_drive;
  files_create := files_create demo_drive
|}.

Definition steady_self : DriveSync := {|
  service := steady_drive;
  drive_folder_id := "root";
  log_drive_folder_id := "logs";
  local_folder := ["srv"; "inbox"];
  output_folder := ["srv"; "out"];
  cwd := ["srv"]
|}.

(** * The remote tree, without pages

    The entries of a folder are what its pages hold, in order, when the
    continuation tokens are followed to the end. *)
Inductive pages (svc : Drive) (folder_id : string) : option string → list item → Prop :=
  | pages_last tok resp :
      files_list svc folder_id tok = inr resp →
      truthy (nextPageToken resp) = false →
      pages svc folder_id tok (files resp)
  | pages_next tok resp es :
      files_list svc folder_id tok = inr resp →
      truthy (nextPageToken resp) = true →
      pages svc folder_id (nextPageToken resp) es →
      pages svc folder_id tok (files resp ++ es).

Definition contents (svc : Drive) (folder_id : string) (es : list item) : Prop :=
  pages svc folder_id None es.

(** A descendant [sub_item] of folder [it], as the folder's listing
    presents it: the folder's name is joined in front of its path. *)
Definition prefix_path (it sub_item : item) : item :=
  set_path sub_item (os_path_join (item_name it) (default "" (item_path sub_item))).

(** The flattened listing of a folder, stated on its contents: log
    entries are dropped, a leaf contributes itself under its own name, a
    folder contributes the flattened listing of its children, prefixed. *)
Inductive flat (svc : Drive) : string → list item → Prop :=
  | flat_folder folder_id es rs :
      contents svc folder_id es → flat_items svc es rs → flat svc folder_id rs
with flat_items (svc : Drive) : list item → list item → Prop :=
  | flat_nil : flat_items svc [] []
  | flat_log it es rs :
      is_log_name (item_name it) = true →
      flat_items svc es rs → flat_items svc (it :: es) rs
  | flat_sub it es sub rs :
      is_log_name (item_name it) = false →
      item_mimeType it = folder_mime →
      flat svc (item_id it) sub →
      flat_items svc es rs →
      flat_items svc (it :: es) (map (prefix_path it) sub ++ rs)
  | flat_leaf it es rs :
      is_log_name (item_name it) = false →
      item_mimeType it ≠ folder_mime →
      flat_items svc es rs →
      flat_items svc (it :: es) (set_path it (item_name it) :: rs).

Scheme flat_mut := Induction for flat Sort Prop
  with flat_items_mut := Induction for flat_items Sort Prop.

(** The same object with another service behind it. *)
Definition with_service (self : DriveSync) (svc : Drive) : DriveSync := {|
  service := svc;
  drive_folder_id := drive_folder_id self;
  log_drive_folder_id := log_drive_folder_id self;
  local_folder := local_folder self;
  output_folder := output_folder self;
  cwd := cwd self
|}.

(** [outs] are the contributions of the entries [es], one by one, for
    every fuel from [n0] on. *)
Definition contributions (self : DriveSync) (n0 : nat) (es : list item)
    (outs : list (list item)) : Prop :=
  Forall2 (λ it out,
             ∀ n : nat, (n0 ≤ n)%nat → ∀ results w, ∃ w',
               for_items (get_drive_files_from self n) [it] results w
                 = (Ret (results ++ out), w'))
          es outs.

(** The demo tree served in a single page per folder. *)
Definition demo_drive_single_page : Drive := {|
  files_list := λ folder_id page_token,
    if bool_decide (folder_id = "root") then
      inr (Response [folder "x" "X"; leaf "l" "drive_sync.log.1" None;
                     leaf "b" "bad.bin" (Some "00"); leaf "g" "g.txt" (Some "xyz")] None)
    else if bool_decide (folder_id = "x") then inr (Response [folder "y" "Y"] None)
    else if bool_decide (folder_id = "y") then inr (Response [leaf "f" "f" (Some "hello")] None)
    else inl "404 not found";
  get_media := get_media demo_drive;
  files_create := files_create demo_drive
|}.

(** [it] is an entry of the folder [folder_id]. *)
Definition child (svc : Drive) (folder_id : string) (it : item) : Prop :=
  ∃ es, contents svc folder_id es ∧ it ∈ es.

(** * Fuel for [os.walk]

    [k] lies strictly below the directory [top]. *)
Definition below (top k : pathname) : bool :=
  bool_decide (top `prefix_of` k ∧ top ≠ k).

(** [k] lies in the tree rooted at [c]. *)
Definition within (c k : pathname) : bool := bool_decide (c `prefix_of` k).

(** The cost of walking [top] when the directories that may ever be
    scanned are those of [known]: one turn for [top] and one for each
    known directory below it. *)
Definition walk_cost (known : list pathname) (top : pathname) : nat :=
  S (length (List.filter (below top) known)).

(** The paths of the directories of [m]. *)
Definition directories (m : gmap pathname node) : list pathname :=
  (List.filter (λ kn, match kn.2 with Dir => true | _ => false end) (map_to_list m)).*1.

(** [m] never stops for want of fuel. *)
Definition fuel_free {A} (m : M A) : Prop := ∀ w, (m w).1 ≠ OutOfFuel.

(** * Vocabulary of the further properties *)

(** The service presents [it] on some page of some folder. *)
Definition served (svc : Drive) (it : item) : Prop :=
  ∃ folder_id tok resp, files_list svc folder_id tok = inr resp ∧ it ∈ files resp.

(** [x] is an entry the service presents, not a folder, with the
    ['path'] key added and nothing else changed. *)
Definition listed_leaf (svc : Drive) (x : item) : Prop :=
  ∃ it p, served svc it ∧ item_mimeType it ≠ folder_mime ∧ x = set_path it p.

(** What [hashlib] documents of a hash object: feeding it block after
    block is feeding it their concatenation. *)
Definition streaming (hashlib : Hashlib) : Prop :=
  (∀ s, md5_update hashlib s [] = s) ∧
  (∀ s a b, md5_update hashlib (md5_update hashlib s a) b = md5_update hashlib s (a ++ b)).

(** The world after one turn of the polling loop whose sleep is not
    interrupted. *)
Definition next_cycle (hashlib : Hashlib) (self : DriveSync) (fuel interval : nat)
    (w : world) : world :=
  (poll_once hashlib self fuel interval false w).2.

(** The staged file [d/x] of the file system [m0] stands in [m] at the
    same relative path under [output], with its content and its
    modification time. *)
Definition copied (m0 : gmap pathname node) (intake output d : pathname) (x : string)
    (m : gmap pathname node) : Prop :=
  ∀ data mt r, m0 !! (intake ++ d ++ [x]) = Some (File data mt r) →
               m !! (output ++ d ++ [x]) = Some (File data mt true).

(** The path [p] and what is above it: the directories that
    [os.makedirs(p)] may create. *)
Definition ancestors (p : pathname) : list pathname :=
  map (λ n, take n p) (seq 0 (S (length p))).

(** The directories that can exist while a cycle runs from the file
    system [m] on the entries of [listing]: those of [m] and those a
    download may create. *)
Definition cycle_directories (self : DriveSync) (m : gmap pathname node)
    (listing : list item) : list pathname :=
  remove_dups (directories m
               ++ concat (map (λ e, ancestors (dirname (local_path self e))) listing)).

(** * Vocabulary of the amended claims *)

(** A relative path that every call of the program resolves to the same
    file, whatever exists: no empty component (so no leading, doubled
    or trailing ['/']), no ['.'] and no ['..'].  For such a path the
    lexical resolution of [os_path_join_fs] is the kernel's. *)
Definition plain_path (rel : string) : bool :=
  forallb (λ c, negb (bool_decide (c = "" ∨ c = "." ∨ c = ".."))) (split_path rel "").

(** The relative path [sync] reads from a listed entry. *)
Definition relative_path (drive_file : item) : string :=
  default (item_name drive_file) (item_path drive_file).

(** The file the logging handler writes, and what it rotates it to:
    the files of the working directory named after the log. *)
Definition is_log_path (self : DriveSync) (p : pathname) : Prop :=
  ∃ name, p = cwd self ++ [name] ∧ is_log_name name = true.

(** Every node of [m] lies in a directory, as in any file system. *)
Definition tree_like (m : gmap pathname node) : Prop :=
  map_Forall (λ k _, is_dir m (dirname k) = true) m.

(** The entry's remote checksum is the digest of the content its
    download delivers. *)
Definition truthful_checksum (hashlib : Hashlib) (self : DriveSync) (e : item) : Prop :=
  ∀ content,
    media_content (get_media (service self) (item_id e)) = inr content →
    item_md5Checksum e = Some (file_md5 hashlib content).

(** No staged regular file has the relative path of the entry. *)
Definition not_shadowed (self : DriveSync) (m : gmap pathname node) (e : item) : Prop :=
  is_file m (local_folder self ++ split_path (relative_path e) "") = false.

(** No record of level [ERROR] was added to the log after its first [n]
    records. *)
Definition clean_since (n : nat) (w : world) : Prop :=
  Forall (λ record, record.1 ≠ ERROR) (drop n (log w)).

(** The log only grows under [m]. *)
Definition log_grows {A} (m : M A) : Prop := ∀ w, log w `prefix_of` log (m w).2.

(** The requests sent are kept under [m]. *)
Definition calls_kept {A} (m : M A) : Prop := ∀ w, calls (m w).2 = calls w.

(** The test of the reconcile loop sends the entry to the fetcher:
    nothing exists at its local path, or what [md5] returns for that
    path (the digest of a readable file, [None] otherwise) is not the
    entry's remote checksum. *)
Definition stale (hashlib : Hashlib) (self : DriveSync) (m : gmap pathname node)
    (e : item) : Prop :=
  match node_at m (local_path self e) with
  | None => True
  | Some (File data _ true) => item_md5Checksum e ≠ Some (file_md5 hashlib data)
  | Some _ => item_md5Checksum e ≠ None
  end.

(** The records by which the reconcile loop shows that it handled the
    entry: the one of a skip or the one that opens a fetch. *)
Definition processed (self : DriveSync) (a : item) (records : list (level * string))
    : Prop :=
  (INFO, "Skipping " +:+ path_str (local_path self a) +:+ ", already up-to-date.")
    ∈ records ∨
  (INFO, "Downloading file from Drive to " +:+ path_str (local_path self a)) ∈ records.

(** A remote holding one file that carries no checksum. *)
Definition unhashed_drive : Drive := {|
  files_list := λ _ _, inr (Response [leaf "r" "report.txt" None] None);
  get_media := λ _, MediaDone (String.list_byte_of_string "REMOTE") 100;
  files_create := λ _ _, inr "new-id"
|}.

(** A remote folder holding two files of the same name. *)
Definition twin_drive : Drive := {|
  files_list := λ _ _,
    inr (Response [leaf "r1" "report.txt" (Some "ONE");
                   leaf "r2" "report.txt" (Some "TWO")] None);
  get_media := λ file_id,
    if bool_decide (file_id = "r1") then MediaDone (String.list_byte_of_string "ONE") 100
    else MediaDone (String.list_byte_of_string "TWO") 100;
  files_create := λ _ _, inr "new-id"
|}.

(** The local copy of the remote file of [clash_drive] is up to date
    in content but cannot be read. *)
Definition unreadable_world : world :=
  World (<[ ["srv"; "out"; "report.txt"] :=
              File (String.list_byte_of_string "REMOTE") 1 false ]> demo_fs) 5 [] [].

(** A configuration whose output root lies in the staging tree. *)
Definition staged_output_self : DriveSync := {|
  service := clash_drive;
  drive_folder_id := "root";
  log_drive_folder_id := "logs";
  local_folder := ["srv"];
  output_folder := ["srv"; "out"];
  cwd := []
|}.

(** * Reasoning principles for the monad *)

Lemma bind_Ret_inv {A B} (m : M A) (k : A → M B) w b w' :
  bind m k w = (Ret b, w') →
  ∃ a w1, m w = (Ret a, w1) ∧ k a w1 = (Ret b, w').
Proof.
  unfold bind. destruct (m w) as [[a|e|] w1]; intros H; try discriminate.
  eauto.
Qed.

Lemma try_except_Ret_inv {A} (m : M A) c h w a w' :
  try_except m c h w = (Ret a, w') →
  m w = (Ret a, w') ∨ ∃ e w1, m w = (Raise e, w1) ∧ c e = true ∧ h e w1 = (Ret a, w').
Proof.
  unfold try_except. destruct (m w) as [[a'|e|] w1]; intros H; try discriminate.
  - left. done.
  - destruct (c e) eqn:Hc; [right; eauto | discriminate].
Qed.

(** ** [os.makedirs] *)

Lemma new_dirs_along_refl p m : new_dirs_along p m m.
Proof. intros q. by left. Qed.

Lemma new_dirs_along_trans p m1 m2 m3 :
  new_dirs_along p m1 m2 → new_dirs_along p m2 m3 → new_dirs_along p m1 m3.
Proof.
  intros H12 H23 q. destruct (H23 q) as [E|(E1 & E2 & E3)], (H12 q) as [F|(F1 & F2 & F3)].
  - left. congruence.
  - right. split_and!; congruence || done.
  - right. split_and!; congruence || done.
  - congruence.
Qed.

Lemma new_dirs_along_weaken p p' m m' :
  p `prefix_of` p' → new_dirs_along p m m' → new_dirs_along p' m m'.
Proof.
  intros Hp H q. destruct (H q) as [E|(E1 & E2 & E3)]; [by left|right].
  split_and!; [done..|]. by etrans.
Qed.

Lemma os_mkdir_spec p w :
  ∃ o m', os_mkdir p w = (o, set_fs m' w) ∧ new_dirs_along p (fs w) m' ∧
          finished o ∧ (o = Ret tt → is_dir m' p = true).
Proof.
  unfold os_mkdir. destruct (node_at (fs w) p) as [n|] eqn:Hn.
  { eexists _, (fs w). destruct w. split_and!; [done|apply new_dirs_along_refl|done|done]. }
  destruct (node_at (fs w) (dirname p)) as [[]|] eqn:Hd.
  1,3: eexists _, (fs w); destruct w; split_and!; [done|apply new_dirs_along_refl|done|done].
  eexists _, _. split; [done|]. destruct p as [|x p]; [done|]. cbn in Hn. split_and!.
  - intros q. destruct (decide (q = x :: p)) as [->|Hne].
    + right. by rewrite lookup_insert_eq.
    + left. by rewrite lookup_insert_ne.
  - done.
  - intros _. unfold is_dir. cbn. by rewrite lookup_insert_eq.
Qed.

Lemma set_fs_set_fs m m' w : set_fs m' (set_fs m w) = set_fs m' w.
Proof. done. Qed.

Lemma set_fs_id w : set_fs (fs w) w = w.
Proof. by destruct w. Qed.

Lemma os_makedirs_rev_spec rp ok w :
  ∃ o m', os_makedirs_rev rp ok w = (o, set_fs m' w) ∧
          new_dirs_along (rev rp) (fs w) m' ∧ finished o ∧
          (o = Ret tt → is_dir m' (rev rp) = true).
Proof.
  revert w. induction rp as [|x rp IH]; intros w.
  - destruct ok; cbn; eexists _, (fs w); rewrite set_fs_id;
      (split_and!; [done|apply new_dirs_along_refl|done|done]).
  - cbn [os_makedirs_rev].
    set (tail := try_except (os_mkdir (rev (x :: rp))) is_OSError _).
    assert (∀ w1, ∃ o m', tail w1 = (o, set_fs m' w1) ∧
              new_dirs_along (rev (x :: rp)) (fs w1) m' ∧ finished o ∧
              (o = Ret tt → is_dir m' (rev (x :: rp)) = true)) as Htail.
    { intros w1. unfold tail, try_except.
      destruct (os_mkdir_spec (rev (x :: rp)) w1) as (o & m' & -> & Hm & Hf & Hd).
      destruct o as [[]|e|]; [| |done].
      - eexists _, _. split_and!; [done|done|done|done].
      - destruct (is_OSError e); [|eexists _, _; split_and!; [done|done|done|done]].
        unfold bind, os_path_isdir. cbn [fs set_fs].
        destruct (negb ok || negb (is_dir m' (rev (x :: rp)))) eqn:Hb;
          [exists (Raise e), m'|exists (Ret tt), m'];
          (split_and!; [reflexivity|exact Hm|done|]); [done|].
        intros _. apply orb_false_iff in Hb as [_ Hb]. by apply negb_false_iff in Hb. }
    unfold bind at 1. unfold bind at 1. unfold os_path_exists at 1.
    destruct (path_exists (fs w) (rev rp)) eqn:Hex; cbn [negb].
    + unfold ret at 1. apply Htail.
    + unfold try_except at 1.
      destruct (IH w) as (o & m1 & -> & Hm1 & Hf1 & Hd1).
      assert (new_dirs_along (rev (x :: rp)) (fs w) m1) as Hm1'.
      { eapply new_dirs_along_weaken; [|done]. cbn. by apply prefix_app_r. }
      assert (∀ o m', tail (set_fs m1 w) = (o, set_fs m' (set_fs m1 w)) →
              new_dirs_along (rev (x :: rp)) (fs (set_fs m1 w)) m' →
              new_dirs_along (rev (x :: rp)) (fs w) m') as Hcomb.
      { intros ? ? _ ?. eapply new_dirs_along_trans; [exact Hm1'|done]. }
      destruct o as [[]|e|]; [| |done].
      * destruct (Htail (set_fs m1 w)) as (o & m' & Ht & Hm & Hf & Hd).
        rewrite Ht, set_fs_set_fs. eexists _, _. split_and!; [done|eauto|done|done].
      * destruct (is_FileExistsError e).
        -- unfold ret. destruct (Htail (set_fs m1 w)) as (o & m' & Ht & Hm & Hf & Hd).
           rewrite Ht, set_fs_set_fs. eexists _, _. split_and!; [done|eauto|done|done].
        -- eexists _, _. split_and!; [done|done|done|done].
Qed.

Lemma os_makedirs_spec p ok w :
  ∃ o m', os_makedirs p ok w = (o, set_fs m' w) ∧
          new_dirs_along p (fs w) m' ∧ finished o ∧
          (o = Ret tt → is_dir m' p = true).
Proof.
  unfold os_makedirs. destruct (os_makedirs_rev_spec (rev p) ok w) as (o & m' & H).
  rewrite rev_involutive in H. eauto.
Qed.

(** ** The download loop and [download_file] *)

Lemma next_chunk_loop_spec file_id m acc w :
  ∃ cs, Forall (λ c, c = NextChunkCall file_id) cs ∧
    next_chunk_loop file_id m acc w =
      (match media_content m with
       | inl msg => Raise (Exn HttpError msg)
       | inr c => Ret (acc ++ c)
       end,
       World (fs w) (clock w) (log w) (calls w ++ cs)).
Proof.
  revert acc w. induction m as [data progress rest IH|data progress|msg]; intros acc w.
  - cbn [next_chunk_loop media_content].
    destruct (IH (acc ++ data) (World (fs w) (clock w) (log w) (calls w ++ [NextChunkCall file_id])))
      as (cs & Hcs & Hrun).
    exists (NextChunkCall file_id :: cs). split; [by constructor|].
    unfold bind, request, logging_debug, logging_log. cbn [level_enabled].
    rewrite Hrun. cbn [fs clock log calls].
    rewrite <- (app_assoc (calls w)). cbn [app].
    destruct (media_content rest); [done|]. by rewrite <- app_assoc.
  - exists [NextChunkCall file_id]. split; [by repeat constructor|done].
  - exists [NextChunkCall file_id]. split; [by repeat constructor|done].
Qed.

Lemma open_wb_write_spec p data w :
  ∃ o, finished o ∧
    (open_wb_write p data w = (o, w) ∧ (∀ u, o ≠ Ret u) ∨
     ∃ r, o = Ret tt ∧
          open_wb_write p data w =
            (Ret tt, World (<[p := File data (clock w) r]> (fs w)) (S (clock w)) (log w) (calls w)) ∧
          is_dir (fs w) p = false ∧ p ≠ []).
Proof.
  unfold open_wb_write.
  destruct (node_at (fs w) p) as [[d mt r|]|] eqn:Hn.
  - eexists. split; [|right; exists r; split_and!; [done|done|..]]; [done|..].
    + unfold is_dir. by rewrite Hn.
    + by intros ->.
  - eexists. split; [|left; split; [done|done]]. done.
  - destruct (node_at (fs w) (dirname p)) as [[]|] eqn:Hd.
    + eexists. split; [|left; split; [done|done]]. done.
    + eexists. split; [|right; exists true; split_and!; [done|done|..]]; [done|..].
      * unfold is_dir. by rewrite Hn.
      * by intros ->.
    + eexists. split; [|left; split; [done|done]]. done.
Qed.

(** The outcome of [download_file], case by case. *)
Lemma download_file_spec self file_id file_path w :
  ∃ cs, Forall (λ c, c = NextChunkCall file_id) cs ∧
  let w0 := World (fs w) (clock w)
              (log w ++ [(INFO, "Downloading file from Drive to " +:+ path_str file_path)])
              (calls w ++ cs) in
  match media_content (get_media (service self) file_id) with
  | inl msg =>
      download_file self file_id file_path w =
        (Ret false,
         World (fs w) (clock w)
           (log w0 ++ [(ERROR, "Error downloading file " +:+ path_str file_path
                                +:+ ": " +:+ msg)])
           (calls w0))
  | inr content =>
      ∃ m1, new_dirs_along (dirname file_path) (fs w) m1 ∧
        ((∃ msg, download_file self file_id file_path w =
            (Ret false,
             World m1 (clock w)
               (log w0 ++ [(ERROR, "Error downloading file " +:+ path_str file_path
                                    +:+ ": " +:+ msg)])
               (calls w0))) ∨
         (∃ r, download_file self file_id file_path w =
            (Ret true,
             World (<[file_path := File content (clock w) r]> m1) (S (clock w))
               (log w0 ++ [(INFO, "Finished downloading file: " +:+ path_str file_path)])
               (calls w0)) ∧ is_dir m1 file_path = false ∧ file_path ≠ []))
  end.
Proof.
  destruct (next_chunk_loop_spec file_id (get_media (service self) file_id) []
              (World (fs w) (clock w)
                 (log w ++ [(INFO, "Downloading file from Drive to " +:+ path_str file_path)])
                 (calls w)))
    as (cs & Hcs & Hloop).
  cbn [fs clock log calls] in Hloop.
  exists cs. split; [done|]. cbn zeta.
  destruct (media_content (get_media (service self) file_id)) as [msg|content].
  { unfold download_file, try_except, bind, logging_info, logging_error, logging_log, ret.
    cbn [level_enabled]. rewrite Hloop. done. }
  cbn [app] in Hloop.
  destruct (os_makedirs_spec (dirname file_path) true
              (World (fs w) (clock w)
                 (log w ++ [(INFO, "Downloading file from Drive to " +:+ path_str file_path)])
                 (calls w ++ cs)))
    as (o & m1 & Hmk & Hm1 & Hf & _).
  cbn [fs] in Hm1. unfold set_fs in Hmk. cbn [fs clock log calls] in Hmk.
  exists m1. split; [exact Hm1|].
  destruct o as [[]|e|]; [| |done].
  2:{ left. exists (str e). cbn in Hf.
      unfold download_file, try_except, bind, logging_info, logging_error, logging_log, ret.
      cbn [level_enabled]. rewrite Hloop, Hmk, Hf. done. }
  destruct (open_wb_write_spec file_path content
              (World m1 (clock w)
                 (log w ++ [(INFO, "Downloading file from Drive to " +:+ path_str file_path)])
                 (calls w ++ cs)))
    as (o & Hfo & [[Hw Hne]|(r & -> & Hw & Hd & Hp)]).
  - left. destruct o as [[]|e|]; [by destruct (Hne tt)| |done].
    exists (str e). cbn in Hfo.
    unfold download_file, try_except, bind, logging_info, logging_error, logging_log, ret.
    cbn [level_enabled]. rewrite Hloop, Hmk, Hw, Hfo. done.
  - right. exists r. cbn [fs clock log calls] in Hw, Hd. split; [|done].
    unfold download_file, try_except, bind, logging_info, logging_error, logging_log, ret.
    cbn [level_enabled]. rewrite Hloop, Hmk, Hw. done.
Qed.

Lemma new_dirs_along_dirname_node_at p m m' :
  new_dirs_along (dirname p) m m' → node_at m' p = node_at m p.
Proof.
  intros H. destruct p as [|x p]; [done|]. cbn [node_at].
  destruct (H (x :: p)) as [E|(_ & _ & Hpre)]; [done|].
  apply prefix_length in Hpre. unfold dirname in Hpre.
  assert (x :: p ≠ []) as Hne by done.
  pose proof (app_removelast_last "" Hne) as Hsplit.
  apply (f_equal length) in Hsplit. rewrite length_app in Hsplit.
  change (length [List.last (x :: p) ""]) with 1 in Hsplit. lia.
Qed.

Lemma new_dirs_along_is_dir p m m' q :
  new_dirs_along p m m' → is_dir m q = true → is_dir m' q = true.
Proof.
  intros H. unfold is_dir. destruct q as [|x q]; [done|]. cbn [node_at].
  destruct (H (x :: q)) as [->|(-> & _ & _)]; done.
Qed.

Lemma new_dirs_along_file p m m' q data mt r :
  new_dirs_along p m m' →
  m' !! q = Some (File data mt r) ↔ m !! q = Some (File data mt r).
Proof.
  intros H. destruct (H q) as [->|(-> & -> & _)]; [done|]. split; discriminate.
Qed.

(** ** [md5] and the reconcile step *)

Lemma md5_spec hashlib p w :
  match node_at (fs w) p with
  | Some (File data _ true) => md5 hashlib p w = (Ret (Some (file_md5 hashlib data)), w)
  | _ => ∃ msg, md5 hashlib p w =
           (Ret None, logged ERROR ("Error computing MD5 for " +:+ path_str p
                                   +:+ ": " +:+ msg) w)
  end.
Proof.
  unfold md5, try_except, bind, open_rb_read.
  destruct (node_at (fs w) p) as [[data mt []|]|]; [done|..]; by exists (path_str p).
Qed.

Lemma sync_entry_total hashlib self e w :
  ∃ w', sync_entry hashlib self e w = (Ret tt, w').
Proof.
  unfold sync_entry. fold (local_path self e).
  unfold bind at 1. unfold os_path_exists at 1.
  assert (∀ w0, ∃ w', (_ <- download_file self (item_id e) (local_path self e);; ret ()) w0
                      = (Ret tt, w')) as Hdl.
  { intros w0. destruct (download_file_spec self (item_id e) (local_path self e) w0)
      as (cs & _ & H). cbn zeta in H.
    destruct (media_content _).
    - unfold bind. rewrite H. by eexists.
    - destruct H as (m1 & _ & [[msg H]|(r & H & _)]); unfold bind; rewrite H; by eexists. }
  destruct (path_exists (fs w) (local_path self e)).
  2:{ unfold bind at 1, ret at 1. apply Hdl. }
  unfold bind at 1. unfold bind at 1.
  pose proof (md5_spec hashlib (local_path self e) w) as Hmd5.
  destruct (node_at (fs w) (local_path self e)) as [[data mt []|]|];
    [|destruct Hmd5 as [msg Hmd5]..]; rewrite Hmd5; case_bool_decide;
    try (unfold bind at 1, logging_info at 1, logging_log at 1; cbn [level_enabled];
         unfold ret; by eexists);
    unfold ret at 1; apply Hdl.
Qed.

Lemma for_each_total {A} (body : A → M unit) l :
  (∀ x w, ∃ w', body x w = (Ret tt, w')) →
  ∀ w, ∃ w', for_each l body w = (Ret tt, w').
Proof.
  intros Hbody. induction l as [|x l IH]; intros w; [by eexists|].
  cbn [for_each]. destruct (Hbody x w) as [w1 H1]. unfold bind. rewrite H1. apply IH.
Qed.

Lemma for_each_app {A} (body : A → M unit) l1 l2 w :
  for_each (l1 ++ l2) body w = (for_each l1 body ;;; for_each l2 body) w.
Proof.
  revert w. induction l1 as [|x l1 IH]; intros w; [done|].
  cbn [for_each app]. unfold bind.
  destruct (body x w) as [[[]|e|] w1]; [|done..]. rewrite IH. done.
Qed.

Lemma try_except_bind {A B} (m : M A) (k : A → M B) c h w a w1 :
  m w = (Ret a, w1) → try_except (bind m k) c h w = try_except (k a) c h w1.
Proof. unfold try_except, bind. by intros ->. Qed.

(** ** The listing *)

Lemma for_items_no_log recurse :
  (∀ i w rs w', recurse i w = (Ret rs, w') → Forall not_log_item rs) →
  ∀ items results w rs w',
    Forall not_log_item results →
    for_items recurse items results w = (Ret rs, w') → Forall not_log_item rs.
Proof.
  intros Hrec items. induction items as [|it items IH]; intros results w rs w' Hres H.
  - cbn in H. unfold ret in H. by simplify_eq.
  - cbn [for_items] in H. destruct (is_log_name (item_name it)) eqn:Hlog.
    + apply bind_Ret_inv in H as (? & w1 & _ & H). eauto.
    + case_bool_decide.
      * apply bind_Ret_inv in H as (sub & w1 & Hsub & H).
        eapply IH; [|exact H]. apply Forall_app. split; [done|].
        apply Forall_map. eapply Forall_impl; [eapply Hrec; eauto|].
        intros x Hx. exact Hx.
      * eapply IH; [|exact H]. apply Forall_app. split; [done|].
        apply Forall_cons. split; [exact Hlog | constructor].
Qed.

Lemma listing_no_log self fuel :
  (∀ folder w rs w',
     get_drive_files_from self fuel folder w = (Ret rs, w') → Forall not_log_item rs) ∧
  (∀ folder tok results w rs w',
     Forall not_log_item results →
     while_pages self fuel folder tok results w = (Ret rs, w') → Forall not_log_item rs).
Proof.
  induction fuel as [|fuel [IH1 IH2]].
  { split; intros; discriminate. }
  split.
  - intros folder w rs w' H. cbn [get_drive_files_from] in H.
    apply bind_Ret_inv in H as (? & w1 & _ & H).
    eapply IH2; [|exact H]. constructor.
  - intros folder tok results w rs w' Hres H. cbn [while_pages] in H.
    apply bind_Ret_inv in H as ([results' tok'] & w1 & Hpage & H).
    apply try_except_Ret_inv in Hpage as [Hpage | (e & w2 & _ & _ & Hh)].
    2:{ apply bind_Ret_inv in Hh as (? & ? & _ & Hh). discriminate. }
    apply bind_Ret_inv in Hpage as (resp & w2 & _ & Hpage).
    apply bind_Ret_inv in Hpage as (results'' & w3 & Hitems & Hpage).
    eapply for_items_no_log in Hitems as Hres'; [|exact IH1|exact Hres].
    unfold ret in Hpage. simplify_eq. cbn [fst snd] in H.
    destruct (truthy _); [eauto|].
    unfold ret in H. by simplify_eq.
Qed.

Lemma sync_entry_spec hashlib self e w :
  ∃ w0, fs w0 = fs w ∧
    (sync_entry hashlib self e w =
       (Ret tt, logged INFO ("Skipping " +:+ path_str (local_path self e)
                             +:+ ", already up-to-date.") w0) ∨
     sync_entry hashlib self e w =
       (_ <- download_file self (item_id e) (local_path self e) ;; ret tt) w0).
Proof.
  assert (∀ w0, (_ <- download_file self (item_id e) (local_path self e) ;; ret tt) w0
                = (let (o, w') := download_file self (item_id e) (local_path self e) w0 in
                   match o with
                   | Ret _ => (Ret tt, w')
                   | Raise e => (Raise e, w')
                   | OutOfFuel => (OutOfFuel, w')
                   end)) as Hdl by done.
  destruct (path_exists (fs w) (local_path self e)) eqn:Hex.
  2:{ exists w. split; [done|]. right. rewrite Hdl.
      unfold sync_entry. fold (local_path self e).
      unfold bind, os_path_exists, ret. rewrite Hex. done. }
  assert (∀ h w0, md5 hashlib (local_path self e) w = (Ret h, w0) → fs w0 = fs w →
            ∃ w0, fs w0 = fs w ∧
              (sync_entry hashlib self e w =
                 (Ret tt, logged INFO ("Skipping " +:+ path_str (local_path self e)
                                       +:+ ", already up-to-date.") w0) ∨
               sync_entry hashlib self e w =
                 (_ <- download_file self (item_id e) (local_path self e) ;; ret tt) w0))
    as Hcase.
  { intros h w0 Hmd5 Hfs. exists w0. split; [done|].
    destruct (decide (h = item_md5Checksum e)) as [Heq|Hne]; [left|right; rewrite Hdl];
      unfold sync_entry; fold (local_path self e);
      unfold bind, os_path_exists, ret; rewrite Hex, Hmd5.
    - by rewrite bool_decide_eq_true_2.
    - by rewrite bool_decide_eq_false_2. }
  pose proof (md5_spec hashlib (local_path self e) w) as Hmd5.
  destruct (node_at (fs w) (local_path self e)) as [[data mt []|]|];
    [|destruct Hmd5 as [msg Hmd5]..]; by eapply Hcase.
Qed.

(** C8: whatever the nesting depth, an entry whose name begins with the
    log file's name ['drive_sync.log'] is never in the flattened listing
    that [get_drive_files] returns, hence never in the fetch set. *)
Theorem log_entries_never_listed self fuel folder_id w listing w' :
  get_drive_files self fuel folder_id w = (Ret listing, w') →
  Forall not_log_item listing.
Proof.
  unfold get_drive_files. intros H.
  by eapply (proj1 (listing_no_log self fuel)).
Qed.

Lemma log_entries_never_listed_witness :
  get_drive_files demo_self 10 None demo_world
    = (Ret [demo_f; demo_bad; demo_g], (get_drive_files demo_self 10 None demo_world).2) ∧
  Forall not_log_item [demo_f; demo_bad; demo_g].
Proof.
  assert (get_drive_files demo_self 10 None demo_world
    = (Ret [demo_f; demo_bad; demo_g], (get_drive_files demo_self 10 None demo_world).2)) as H.
  { vm_compute. reflexivity. }
  split; [exact H|].
  exact (log_entries_never_listed demo_self 10 None demo_world _ _ H).
Defined.

(** C5: a download whose retrieval fails returns [False], logs the error
    and leaves the file system exactly as it was; when the retrieval
    completes, the node at the entry's local path is either untouched or a
    file holding the complete content: never a part of it. *)
Theorem download_leaves_no_partial_file self file_id file_path w :
  let r := download_file self file_id file_path w in
  match media_content (get_media (service self) file_id) with
  | inl msg =>
      r.1 = Ret false ∧ fs r.2 = fs w ∧
      last (log r.2) = Some (ERROR, "Error downloading file " +:+ path_str file_path
                                    +:+ ": " +:+ msg)
  | inr content =>
      node_at (fs r.2) file_path = node_at (fs w) file_path ∨
      ∃ mt rd, node_at (fs r.2) file_path = Some (File content mt rd)
  end.
Proof.
  cbn zeta.
  destruct (download_file_spec self file_id file_path w) as (cs & _ & H). cbn zeta in H.
  destruct (media_content _) as [msg|content].
  - rewrite H. cbn [fst snd fs log]. split_and!; [done..|]. by rewrite last_snoc.
  - destruct H as (m1 & Hm1 & [[msg H]|(r & H & Hd & Hp)]); rewrite H; cbn [fst snd fs].
    + left. by apply new_dirs_along_dirname_node_at.
    + right. exists (clock w), r. destruct file_path; [done|]. cbn [node_at].
      by rewrite lookup_insert_eq.
Qed.

(** C2 (the defect): when the local file exists but cannot be hashed and
    the entry carries no remote checksum, both sides of the comparison in
    [sync] are [None]; the entry is reported up to date and is not
    fetched. *)
Theorem unhashable_file_without_remote_hash_is_skipped hashlib self e w :
  path_exists (fs w) (local_path self e) = true →
  (∀ data mt, node_at (fs w) (local_path self e) ≠ Some (File data mt true)) →
  item_md5Checksum e = None →
  ∃ msg,
    sync_entry hashlib self e w =
      (Ret tt,
       logged INFO ("Skipping " +:+ path_str (local_path self e) +:+ ", already up-to-date.")
         (logged ERROR ("Error computing MD5 for " +:+ path_str (local_path self e)
                        +:+ ": " +:+ msg) w)).
Proof.
  intros Hex Hunreadable Hnone.
  pose proof (md5_spec hashlib (local_path self e) w) as Hmd5.
  destruct (node_at (fs w) (local_path self e)) as [[data mt []|]|] eqn:Hn.
  { by destruct (Hunreadable data mt). }
  all: destruct Hmd5 as [msg Hmd5]; exists msg;
    unfold sync_entry; fold (local_path self e);
    unfold bind, os_path_exists, ret; rewrite Hex, Hmd5, Hnone;
    by rewrite bool_decide_eq_true_2.
Qed.

Lemma unhashable_file_without_remote_hash_is_skipped_witness :
  ∃ msg,
    sync_entry toy_hashlib demo_self notes_entry notes_world =
      (Ret tt,
       logged INFO ("Skipping " +:+ path_str (local_path demo_self notes_entry)
                    +:+ ", already up-to-date.")
         (logged ERROR ("Error computing MD5 for " +:+ path_str (local_path demo_self notes_entry)
                        +:+ ": " +:+ msg) notes_world)).
Proof.
  apply (unhashable_file_without_remote_hash_is_skipped toy_hashlib demo_self
           notes_entry notes_world).
  - reflexivity.
  - intros data mt. vm_compute. discriminate.
  - reflexivity.
Defined.

(** ** What the listing does to the world *)

Lemma listing_run_refl {A} svc w (a : A) : listing_run svc w (Ret a) w.
Proof.
  split_and!; [done..|]. exists []. split; [by rewrite app_nil_r|constructor].
Qed.

Lemma listing_run_step {A B} svc w (a : A) w1 (o : outcome B) w' :
  listing_run svc w (Ret a) w1 → listing_run svc w1 o w' → listing_run svc w o w'.
Proof.
  intros (Hfs1 & Hck1 & cs1 & Hcs1 & Hok1) (Hfs2 & Hck2 & cs2 & Hcs2 & Hok2).
  split_and!; [congruence..|]. exists (cs1 ++ cs2).
  split; [by rewrite Hcs2, Hcs1, app_assoc|].
  destruct o as [b|e|].
  - by apply Forall_app.
  - destruct Hok2 as (f & t & msg & cs' & -> & Hcs' & Hfail & ->).
    exists f, t, msg, (cs1 ++ cs'). split_and!; [by rewrite app_assoc| |done..].
    by apply Forall_app.
  - by apply Forall_app.
Qed.

Lemma listing_run_outcome {A B} svc w (o : outcome A) (o' : outcome B) w' :
  match o, o' with
  | Raise e, Raise e' => e = e'
  | Raise _, _ | _, Raise _ => False
  | _, _ => True
  end →
  listing_run svc w o w' → listing_run svc w o' w'.
Proof.
  intros Ho (Hfs & Hck & cs & Hcs & Hok). split_and!; [done..|]. exists cs. split; [done|].
  destruct o, o'; try done. by subst.
Qed.

Lemma listing_run_logged {A} svc w (o : outcome A) w' l msg :
  listing_run svc w o w' → listing_run svc w o (logged l msg w').
Proof. intros (Hfs & Hck & cs & Hcs & Hok). split_and!; [done..|]. by exists cs. Qed.

Lemma logging_info_logged msg w : logging_info msg w = (Ret tt, logged INFO msg w).
Proof. done. Qed.

Lemma logging_error_logged msg w : logging_error msg w = (Ret tt, logged ERROR msg w).
Proof. done. Qed.

Lemma listing_only_ret {A} svc (a : A) : listing_only svc (ret a).
Proof. intros w. apply listing_run_refl. Qed.

Lemma listing_only_out_of_fuel {A} svc : listing_only svc (@out_of_fuel A).
Proof.
  intros w. eapply listing_run_outcome; [|apply (listing_run_refl svc w tt)]. done.
Qed.

Lemma listing_only_log svc l msg : listing_only svc (logging_log l msg).
Proof.
  intros w. unfold logging_log. cbn [fst snd]. destruct (level_enabled l).
  - apply (listing_run_logged svc w (Ret tt) w l msg). apply listing_run_refl.
  - apply listing_run_refl.
Qed.

Lemma listing_only_bind {A B} svc (m : M A) (k : A → M B) :
  listing_only svc m → (∀ a, listing_only svc (k a)) → listing_only svc (bind m k).
Proof.
  intros Hm Hk w. unfold bind. specialize (Hm w).
  destruct (m w) as [[a|e|] w1]; cbn [fst snd] in *.
  - eapply listing_run_step; [exact Hm|apply Hk].
  - by eapply listing_run_outcome; [|exact Hm].
  - by eapply listing_run_outcome; [|exact Hm].
Qed.

(** A handler that logs and raises the same exception again. *)
Lemma listing_only_reraise {A} svc (m : M A) c (msg : exn → string) :
  listing_only svc m →
  listing_only svc (try_except m c (λ e, logging_error (msg e) ;;; raise e)).
Proof.
  intros Hm w. unfold try_except. specialize (Hm w).
  destruct (m w) as [[a|e|] w1]; cbn [fst snd] in *; [done| |done].
  destruct (c e); [|done].
  unfold bind. rewrite logging_error_logged. cbn [raise fst snd].
  by apply listing_run_logged.
Qed.

Lemma files_list_execute_only self folder_id page_token :
  listing_only (service self) (files_list_execute self folder_id page_token).
Proof.
  intros w. unfold files_list_execute, bind, request.
  destruct (files_list (service self) folder_id page_token) as [msg|r] eqn:Hl; cbn.
  - split_and!; [done..|]. exists [ListCall folder_id page_token]. split; [done|].
    exists folder_id, page_token, msg, []. by split_and!.
  - split_and!; [done..|]. exists [ListCall folder_id page_token]. split; [done|].
    repeat constructor. by exists r.
Qed.

Lemma for_items_only self recurse :
  (∀ i, listing_only (service self) (recurse i)) →
  ∀ items results, listing_only (service self) (for_items recurse items results).
Proof.
  intros Hrec items. induction items as [|it items IH]; intros results.
  - apply listing_only_ret.
  - cbn [for_items]. destruct (is_log_name (item_name it)).
    + apply listing_only_bind; [apply listing_only_log|intros _; apply IH].
    + case_bool_decide; [|apply IH].
      apply listing_only_bind; [apply Hrec|intros sub; apply IH].
Qed.

Lemma listing_only_get_drive_files_from self fuel :
  (∀ folder, listing_only (service self) (get_drive_files_from self fuel folder)) ∧
  (∀ folder tok results,
     listing_only (service self) (while_pages self fuel folder tok results)).
Proof.
  induction fuel as [|fuel [IH1 IH2]].
  { split; intros; apply listing_only_out_of_fuel. }
  split.
  - intros folder. cbn [get_drive_files_from].
    apply listing_only_bind; [apply listing_only_log|intros _; apply IH2].
  - intros folder tok results. cbn [while_pages].
    apply listing_only_bind.
    + apply (listing_only_reraise _ _ _ (λ e, "Error fetching Drive files: " +:+ str e)).
      apply listing_only_bind; [apply files_list_execute_only|intros resp].
      apply listing_only_bind; [by apply for_items_only|intros results'].
      apply listing_only_ret.
    + intros r. destruct (truthy r.2); [apply IH2|apply listing_only_ret].
Qed.

Lemma get_drive_files_run self fuel folder_id w :
  listing_run (service self) w (get_drive_files self fuel folder_id w).1
                              (get_drive_files self fuel folder_id w).2.
Proof. apply listing_only_get_drive_files_from. Qed.

Lemma answered_not_failed svc f t msg :
  answered svc (ListCall f t) → files_list svc f t = inl msg → False.
Proof. intros [r Hr] H. congruence. Qed.

(** C6: when a listing request of the cycle fails, for the root folder or
    for a folder at any depth, the listing raises that request's error;
    [sync] catches it at its top level, logs it and returns, having
    touched no file and sent no request other than listings (reconcile,
    merge, purge and upload are skipped); the polling loop does not
    break and goes on to its next turn. *)
Theorem listing_failure_aborts_cycle hashlib self fuel interval w f t msg :
  let r := get_drive_files self fuel None
             (logged INFO "=== Starting sync process ===" w) in
  ListCall f t ∈ drop (length (calls w)) (calls r.2) →
  files_list (service self) f t = inl msg →
  r.1 = Raise (Exn HttpError msg) ∧
  sync hashlib self fuel w = (Ret tt, logged ERROR ("Sync error: " +:+ msg) r.2) ∧
  fs r.2 = fs w ∧
  Forall is_list_call (drop (length (calls w)) (calls r.2)) ∧
  ∃ w', poll_once hashlib self fuel interval false w = (Ret false, w') ∧ fs w' = fs w ∧
        ∀ sleeps, poll_loop hashlib self fuel interval (false :: sleeps) w
                  = poll_loop hashlib self fuel interval sleeps w'.
Proof.
  cbn zeta. intros Hin Hfail.
  pose proof (get_drive_files_run self fuel None
                (logged INFO "=== Starting sync process ===" w)) as Hrun.
  destruct (get_drive_files self fuel None _) as [o w1] eqn:Hlist. cbn [fst snd] in *.
  destruct Hrun as (Hfs & Hck & cs & Hcs & Hok). cbn [logged fs clock calls] in *.
  rewrite Hcs, drop_app_length in Hin |- *.
  assert (o = Raise (Exn HttpError msg) ∧ Forall is_list_call cs) as [-> Hcalls].
  { destruct o as [a|e|].
    - rewrite Forall_forall in Hok. by destruct (answered_not_failed _ _ _ _ (Hok _ Hin) Hfail).
    - destruct Hok as (f' & t' & msg' & cs' & -> & Hcs' & Hfail' & ->).
      split.
      + apply elem_of_app in Hin as [Hin|Hin].
        * rewrite Forall_forall in Hcs'.
          by destruct (answered_not_failed _ _ _ _ (Hcs' _ Hin) Hfail).
        * apply list_elem_of_singleton in Hin. simplify_eq. congruence.
      + apply Forall_app. split; [|by repeat constructor].
        eapply Forall_impl; [exact Hcs'|]. by intros [].
    - rewrite Forall_forall in Hok. by destruct (answered_not_failed _ _ _ _ (Hok _ Hin) Hfail). }
  assert (sync hashlib self fuel w = (Ret (), logged ERROR ("Sync error: " +:+ msg) w1)) as Hsync.
  { unfold sync. unfold bind at 1. rewrite logging_info_logged.
    unfold try_except. unfold bind at 1. rewrite Hlist. done. }
  split_and!; [done..|].
  assert (∃ w', poll_once hashlib self fuel interval false w = (Ret false, w') ∧
                fs w' = fs w) as (w' & Hpoll & Hfs').
  { eexists. unfold poll_once, try_except. unfold bind at 1. rewrite Hsync.
    split; [reflexivity|done]. }
  exists w'. split_and!; [done..|].
  intros sleeps. cbn [poll_loop]. unfold bind. by rewrite Hpoll.
Qed.

Lemma listing_failure_aborts_cycle_witness :
  (get_drive_files broken_self 10 None
     (logged INFO "=== Starting sync process ===" demo_world)).1
    = Raise (Exn HttpError "500 internal error") ∧
  sync toy_hashlib broken_self 10 demo_world
    = (Ret tt,
       logged ERROR ("Sync error: " +:+ "500 internal error")
         (get_drive_files broken_self 10 None
            (logged INFO "=== Starting sync process ===" demo_world)).2) ∧
  fs (get_drive_files broken_self 10 None
        (logged INFO "=== Starting sync process ===" demo_world)).2 = fs demo_world ∧
  Forall is_list_call
    (drop (length (calls demo_world))
       (calls (get_drive_files broken_self 10 None
                 (logged INFO "=== Starting sync process ===" demo_world)).2)) ∧
  ∃ w', poll_once toy_hashlib broken_self 10 10 false demo_world = (Ret false, w') ∧
        fs w' = fs demo_world ∧
        ∀ sleeps, poll_loop toy_hashlib broken_self 10 10 (false :: sleeps) demo_world
                  = poll_loop toy_hashlib broken_self 10 10 sleeps w'.
Proof.
  apply (listing_failure_aborts_cycle toy_hashlib broken_self 10 10 demo_world "x" None
           "500 internal error").
  - vm_compute. apply list_elem_of_In. right. left. reflexivity.
  - reflexivity.
Defined.

(** ** Invariants of loops *)

Lemma preserves_ret {A} I (a : A) : preserves I (ret a).
Proof. by intros w. Qed.

Lemma preserves_bind {A B} I (m : M A) (k : A → M B) :
  preserves I m → (∀ a, preserves I (k a)) → preserves I (bind m k).
Proof.
  intros Hm Hk w Hw. unfold bind. specialize (Hm w Hw).
  destruct (m w) as [[a|e|] w1]; cbn [snd] in *; [by apply Hk|done..].
Qed.

Lemma preserves_try_except {A} I (m : M A) c h :
  preserves I m → (∀ e, preserves I (h e)) → preserves I (try_except m c h).
Proof.
  intros Hm Hh w Hw. unfold try_except. specialize (Hm w Hw).
  destruct (m w) as [[a|e|] w1]; cbn [snd] in *; [done| |done].
  destruct (c e); [by apply Hh|done].
Qed.

Lemma preserves_for_each {A} I (body : A → M unit) l :
  (∀ x, x ∈ l → preserves I (body x)) → preserves I (for_each l body).
Proof.
  induction l as [|x l IH]; intros Hbody; [apply preserves_ret|].
  cbn [for_each]. apply preserves_bind.
  - apply Hbody. by left.
  - intros _. apply IH. intros y Hy. apply Hbody. by right.
Qed.

Lemma preserves_log I l msg :
  (∀ w l msg, I w → I (logged l msg w)) → preserves I (logging_log l msg).
Proof.
  intros Hlog w Hw. unfold logging_log. cbn [snd]. destruct (level_enabled l); [|done].
  by apply (Hlog w l msg).
Qed.

(** The rule for [os.walk]: every directory the loop reaches satisfies [S],
    and the body keeps [I] when run on what the scan returned. *)
Lemma preserves_os_walk I (S : pathname → Prop) body :
  (∀ top dirs files w,
     S top → I w → (os_scandir top w).1 = Ret (Some (dirs, files)) →
     I (body top dirs files w).2) →
  (∀ top d, S top → S (top ++ [d])) →
  ∀ fuel stack, Forall S stack → preserves I (os_walk fuel stack body).
Proof.
  intros Hbody Hsub fuel. induction fuel as [|fuel IH]; intros stack Hstack w Hw.
  { by destruct stack. }
  destruct stack as [|top stack]; [done|].
  apply Forall_cons in Hstack as [Htop Hstack].
  cbn [os_walk]. unfold bind at 1.
  destruct (os_scandir top w) as [o w1] eqn:Hscan.
  assert (w1 = w) as -> by (unfold os_scandir in Hscan; by simplify_eq).
  destruct o as [[[dirs files]|]|e|]; [| |done..].
  - unfold bind. specialize (Hbody top dirs files w Htop Hw).
    rewrite Hscan in Hbody. specialize (Hbody eq_refl).
    destruct (body top dirs files w) as [[[]|e|] w2]; cbn [snd] in *; [|done..].
    apply IH; [|done]. apply Forall_app. split; [|done].
    apply Forall_forall. intros p Hp. apply list_elem_of_fmap in Hp as (d & -> & _).
    by apply Hsub.
  - by apply IH.
Qed.

(** ** The purge *)

Lemma only_files_removed_refl m : only_files_removed m m.
Proof. intros p. by left. Qed.

Lemma only_files_removed_trans m1 m2 m3 :
  only_files_removed m1 m2 → only_files_removed m2 m3 → only_files_removed m1 m3.
Proof.
  intros H12 H23 p. destruct (H23 p) as [E|[(d & mt & r & E1) E2]],
    (H12 p) as [F|[(d' & mt' & r' & F1) F2]].
  - left. congruence.
  - right. split; [eauto|congruence].
  - right. split; [|done]. exists d, mt, r. congruence.
  - congruence.
Qed.

Lemma only_files_removed_is_dir m m' p :
  only_files_removed m m' → is_dir m p = true → is_dir m' p = true.
Proof.
  intros H. unfold is_dir. destruct p as [|x p]; [done|]. cbn [node_at].
  destruct (H (x :: p)) as [->|[(d & mt & r & ->) _]]; done.
Qed.

Lemma os_remove_spec p w :
  (∃ e, os_remove p w = (Raise e, w) ∧ is_Exception e = true ∧ is_file (fs w) p = false) ∨
  (os_remove p w = (Ret tt, set_fs (delete p (fs w)) w) ∧ is_file (fs w) p = true ∧ p ≠ []).
Proof.
  unfold os_remove, is_file. destruct (node_at (fs w) p) as [[]|] eqn:Hn.
  - right. split_and!; [done..|]. by intros ->.
  - left. by eexists.
  - left. by eexists.
Qed.

Lemma os_remove_only_files_removed p w :
  only_files_removed (fs w) (fs (os_remove p w).2).
Proof.
  destruct (os_remove_spec p w) as [(e & -> & _)|(-> & Hf & Hp)];
    [apply only_files_removed_refl|].
  cbn [snd set_fs fs]. intros q. destruct (decide (q = p)) as [->|Hne].
  - right. rewrite lookup_delete_eq. split; [|done].
    unfold is_file in Hf. destruct p; [done|]. cbn in Hf.
    destruct (fs w !! (s :: p)) as [[]|]; [eauto|done..].
  - left. by rewrite lookup_delete_ne.
Qed.

Lemma purge_file_preserves m0 root file :
  preserves (λ w, only_files_removed m0 (fs w)) (purge_file root file).
Proof.
  unfold purge_file. apply preserves_try_except.
  - apply preserves_bind.
    + intros w Hw. eapply only_files_removed_trans; [exact Hw|].
      apply os_remove_only_files_removed.
    + intros _. by apply preserves_log.
  - intros e. by apply preserves_log.
Qed.

Lemma purge_only_files_removed self fuel w :
  only_files_removed (fs w) (fs (purge self fuel w).2).
Proof.
  unfold purge.
  apply (preserves_os_walk (λ w', only_files_removed (fs w) (fs w')) (λ _, True)).
  - intros top dirs files w' _ Hw' _.
    exact (preserves_for_each (λ w', only_files_removed (fs w) (fs w')) _ _
             (λ file _, purge_file_preserves (fs w) top file) w' Hw').
  - done.
  - by repeat constructor.
  - apply only_files_removed_refl.
Qed.

(** C10: the purge removes regular files and nothing else, so every
    directory that stood under the staging root before the purge is still
    a directory after it. *)
Theorem purge_keeps_directories self fuel w d :
  is_dir (fs w) (local_folder self ++ d) = true →
  is_dir (fs (purge self fuel w).2) (local_folder self ++ d) = true ∧
  only_files_removed (fs w) (fs (purge self fuel w).2).
Proof.
  intros Hd. split; [|apply purge_only_files_removed].
  eapply only_files_removed_is_dir; [apply purge_only_files_removed|done].
Qed.

Lemma purge_keeps_directories_witness :
  is_dir (fs (purge demo_self 10 demo_world).2) (local_folder demo_self ++ ["a"]) = true ∧
  only_files_removed (fs demo_world) (fs (purge demo_self 10 demo_world).2).
Proof.
  apply (purge_keeps_directories demo_self 10 demo_world ["a"]). reflexivity.
Defined.

(** ** Scanning a directory *)

Lemma child_name_spec top k x : child_name top k = Some x ↔ k = top ++ [x].
Proof.
  unfold child_name. split.
  - intros H. destruct (drop (length top) k) as [|y [|]] eqn:Hd; try discriminate.
    case_bool_decide as Ht; [|discriminate]. simplify_eq.
    by rewrite <- (take_drop (length top) k), Hd, Ht.
  - intros ->. rewrite drop_app_length, take_app_length.
    by rewrite bool_decide_eq_true_2.
Qed.

Lemma elem_of_entries m top x n :
  (x, n) ∈ entries m top ↔ m !! (top ++ [x]) = Some n.
Proof.
  unfold entries. rewrite list_elem_of_omap. split.
  - intros ([k n'] & Hin & Hf). cbn [fst snd] in Hf.
    destruct (child_name top k) as [y|] eqn:Hc; [|discriminate]. simplify_eq.
    apply child_name_spec in Hc as ->. by apply elem_of_map_to_list in Hin.
  - intros H. exists (top ++ [x], n). split; [by apply elem_of_map_to_list|].
    cbn [fst snd]. by rewrite (proj2 (child_name_spec top (top ++ [x]) x) eq_refl).
Qed.

Lemma os_scandir_inv top w dirs files :
  (os_scandir top w).1 = Ret (Some (dirs, files)) →
  is_dir (fs w) top = true ∧
  (∀ x, x ∈ dirs ↔ fs w !! (top ++ [x]) = Some Dir) ∧
  (∀ x, x ∈ files ↔ ∃ data mt r, fs w !! (top ++ [x]) = Some (File data mt r)).
Proof.
  unfold os_scandir. cbn [fst]. destruct (is_dir (fs w) top); [|discriminate].
  intros H. simplify_eq. split; [done|]. split; intros x.
  - rewrite list_elem_of_fmap. split.
    + intros ([y n] & -> & Hin). apply list_elem_of_In, filter_In in Hin as [Hin Hd].
      apply list_elem_of_In, elem_of_entries in Hin. cbn [fst].
      unfold entry_is_dir in Hd. cbn [snd] in Hd. by destruct n.
    + intros H. exists (x, Dir). split; [done|].
      apply list_elem_of_In, filter_In. split; [|done].
      by apply list_elem_of_In, elem_of_entries.
  - rewrite list_elem_of_fmap. split.
    + intros ([y n] & -> & Hin). apply list_elem_of_In, filter_In in Hin as [Hin Hd].
      apply list_elem_of_In, elem_of_entries in Hin. cbn [fst].
      unfold entry_is_dir in Hd. cbn [snd] in Hd. destruct n; [eauto|done].
    + intros (data & mt & r & H). exists (x, File data mt r). split; [done|].
      apply list_elem_of_In, filter_In. split; [|done].
      by apply list_elem_of_In, elem_of_entries.
Qed.

Lemma os_scandir_None top w :
  (os_scandir top w).1 = Ret None → is_dir (fs w) top = false.
Proof. unfold os_scandir. cbn [fst]. by destruct (is_dir (fs w) top). Qed.

(** ** [shutil.copy2] and [ensure_dir] *)

Lemma shutil_copy2_spec src dst w :
  (∃ e, shutil_copy2 src dst w = (Raise e, w) ∧ is_Exception e = true) ∨
  (∃ data mt dst',
     shutil_copy2 src dst w =
       (Ret tt, World (<[dst' := File data mt true]> (fs w)) (S (clock w)) (log w) (calls w)) ∧
     node_at (fs w) src = Some (File data mt true) ∧
     dst' = (if is_dir (fs w) dst then dst ++ [basename src] else dst) ∧
     is_dir (fs w) dst' = false ∧ dst' ≠ []).
Proof.
  unfold shutil_copy2.
  set (dst' := if is_dir (fs w) dst then dst ++ [basename src] else dst).
  destruct (bool_decide (src = dst') && path_exists (fs w) src); [left; by eexists|].
  destruct (node_at (fs w) src) as [[data mt []|]|] eqn:Hsrc; try (left; by eexists).
  destruct (node_at (fs w) dst') as [[d' mt' r'|]|] eqn:Hdst.
  - right. exists data, mt, dst'. split_and!; [done..| |].
    + unfold is_dir. by rewrite Hdst.
    + intros E. by rewrite E in Hdst.
  - left. by eexists.
  - destruct (node_at (fs w) (dirname dst')) as [[]|] eqn:Hpar; try (left; by eexists).
    right. exists data, mt, dst'. split_and!; [done..| |].
    + unfold is_dir. by rewrite Hdst.
    + intros E. by rewrite E in Hdst.
Qed.

Lemma ensure_dir_spec d w :
  (path_exists (fs w) d = true ∧ ensure_dir d w = (Ret tt, w)) ∨
  (path_exists (fs w) d = false ∧ ensure_dir d w = os_makedirs d false w).
Proof.
  unfold ensure_dir, bind, os_path_exists.
  destruct (path_exists (fs w) d); [left|right]; done.
Qed.

Lemma relpath_app start r : relpath (start ++ r) start = r.
Proof.
  induction start as [|x start IH]; [by destruct r|].
  cbn. by rewrite bool_decide_eq_true_2.
Qed.

(** ** Directories are never removed *)

Lemma dirs_kept_refl m : dirs_kept m m.
Proof. by intros p. Qed.

Lemma dirs_kept_trans m1 m2 m3 : dirs_kept m1 m2 → dirs_kept m2 m3 → dirs_kept m1 m3.
Proof. intros H12 H23 p Hp. eauto. Qed.

Lemma insert_file_dirs_kept m p data mt r :
  is_dir m p = false → dirs_kept m (<[p := File data mt r]> m).
Proof.
  intros Hp q Hq. unfold is_dir in *. destruct q as [|x q]; [done|]. cbn [node_at] in *.
  destruct (decide (p = x :: q)) as [->|Hne]; [cbn [node_at] in Hp; congruence|].
  by rewrite lookup_insert_ne.
Qed.

Lemma ensure_dir_dirs_kept d w : dirs_kept (fs w) (fs (ensure_dir d w).2).
Proof.
  destruct (ensure_dir_spec d w) as [[_ ->]|[_ ->]]; [apply dirs_kept_refl|].
  destruct (os_makedirs_spec d false w) as (o & m' & -> & Hm & _).
  intros p. by eapply new_dirs_along_is_dir.
Qed.

Lemma os_remove_dirs_kept p w : dirs_kept (fs w) (fs (os_remove p w).2).
Proof. intros q. apply only_files_removed_is_dir, os_remove_only_files_removed. Qed.

Lemma shutil_copy2_dirs_kept src dst w : dirs_kept (fs w) (fs (shutil_copy2 src dst w).2).
Proof.
  destruct (shutil_copy2_spec src dst w) as [(e & -> & _)|(data & mt & dst' & -> & _ & _ & Hd & _)];
    [apply dirs_kept_refl|].
  by apply insert_file_dirs_kept.
Qed.

Lemma move_file_dirs_kept m0 root target file :
  preserves (λ w, dirs_kept m0 (fs w)) (move_file root target file).
Proof.
  unfold move_file. apply preserves_bind; [by intros w|]. intros ex.
  apply preserves_bind.
  { destruct ex; [|apply preserves_ret].
    apply preserves_bind; [by apply preserves_log|]. intros _ w Hw.
    eapply dirs_kept_trans; [exact Hw|apply os_remove_dirs_kept]. }
  intros _. apply preserves_bind.
  { intros w Hw. eapply dirs_kept_trans; [exact Hw|apply shutil_copy2_dirs_kept]. }
  intros _. by apply preserves_log.
Qed.

Lemma move_dir_dirs_kept m0 intake output root dirs files :
  preserves (λ w, dirs_kept m0 (fs w)) (move_dir intake output root dirs files).
Proof.
  unfold move_dir. apply preserves_bind.
  { intros w Hw. eapply dirs_kept_trans; [exact Hw|apply ensure_dir_dirs_kept]. }
  intros _. apply preserves_for_each. intros file _. apply move_file_dirs_kept.
Qed.

Lemma move_files_dirs_kept fuel intake output w :
  dirs_kept (fs w) (fs (move_files fuel intake output w).2).
Proof.
  unfold move_files.
  apply (preserves_os_walk (λ w', dirs_kept (fs w) (fs w')) (λ _, True)).
  - intros top dirs files w' _ Hw' _. by apply move_dir_dirs_kept.
  - done.
  - by repeat constructor.
  - apply dirs_kept_refl.
Qed.

(** ** [os.walk] loops that return *)

Lemma os_walk_Ret_inv (J : list pathname → world → Prop) body :
  (∀ top stack w, J (top :: stack) w → is_dir (fs w) top = false → J stack w) →
  (∀ top stack w dirs files w',
     J (top :: stack) w → (os_scandir top w).1 = Ret (Some (dirs, files)) →
     body top dirs files w = (Ret tt, w') →
     J (map (λ d, top ++ [d]) dirs ++ stack) w') →
  ∀ fuel stack w w', J stack w → os_walk fuel stack body w = (Ret tt, w') → J [] w'.
Proof.
  intros Hskip Hbody fuel. induction fuel as [|fuel IH]; intros stack w w' HJ Hrun.
  { destruct stack; [|discriminate]. cbn in Hrun. unfold ret in Hrun. by simplify_eq. }
  destruct stack as [|top stack].
  { cbn in Hrun. unfold ret in Hrun. by simplify_eq. }
  cbn [os_walk] in Hrun. apply bind_Ret_inv in Hrun as (sc & w1 & Hscan & Hrun).
  assert (w1 = w) as -> by (unfold os_scandir in Hscan; by simplify_eq).
  destruct sc as [[dirs files]|].
  - apply bind_Ret_inv in Hrun as ([] & w2 & Hb & Hrun).
    eapply IH; [|exact Hrun]. eapply Hbody; [exact HJ| |exact Hb]. by rewrite Hscan.
  - eapply IH; [|exact Hrun]. apply (Hskip top); [done|].
    apply os_scandir_None. by rewrite Hscan.
Qed.

(** ** Exceptions that escape the merge *)

Lemma no_interrupt_ret {A} (a : A) : no_interrupt (ret a).
Proof. intros w e w' H. discriminate. Qed.

Lemma no_interrupt_bind {A B} (m : M A) (k : A → M B) :
  no_interrupt m → (∀ a, no_interrupt (k a)) → no_interrupt (bind m k).
Proof.
  intros Hm Hk w e w' H. unfold bind in H.
  destruct (m w) as [[a|e1|] w1] eqn:Hmw; [by eapply Hk| |discriminate].
  simplify_eq. by eapply Hm.
Qed.

Lemma no_interrupt_for_each {A} (body : A → M unit) l :
  (∀ x, no_interrupt (body x)) → no_interrupt (for_each l body).
Proof.
  intros Hbody. induction l as [|x l IH]; [apply no_interrupt_ret|].
  cbn [for_each]. by apply no_interrupt_bind.
Qed.

Lemma no_interrupt_log l msg : no_interrupt (logging_log l msg).
Proof. intros w e w' H. discriminate. Qed.

Lemma no_interrupt_os_walk body :
  (∀ top dirs files, no_interrupt (body top dirs files)) →
  ∀ fuel stack, no_interrupt (os_walk fuel stack body).
Proof.
  intros Hbody fuel. induction fuel as [|fuel IH]; intros stack.
  { destruct stack; intros w e w' H; discriminate. }
  destruct stack as [|top stack]; [apply no_interrupt_ret|].
  cbn [os_walk]. apply no_interrupt_bind; [intros w e w' H; discriminate|].
  intros [[dirs files]|]; [|apply IH].
  apply no_interrupt_bind; [apply Hbody|intros _; apply IH].
Qed.

Lemma no_interrupt_os_remove p : no_interrupt (os_remove p).
Proof.
  intros w e w' H. destruct (os_remove_spec p w) as [(e' & H' & He & _)|(H' & _)];
    rewrite H' in H; by simplify_eq.
Qed.

Lemma no_interrupt_shutil_copy2 src dst : no_interrupt (shutil_copy2 src dst).
Proof.
  intros w e w' H.
  destruct (shutil_copy2_spec src dst w) as [(e' & H' & He)|(? & ? & ? & H' & _)];
    rewrite H' in H; by simplify_eq.
Qed.

Lemma no_interrupt_ensure_dir d : no_interrupt (ensure_dir d).
Proof.
  intros w e w' H. destruct (ensure_dir_spec d w) as [[_ H']|[_ H']]; rewrite H' in H.
  - discriminate.
  - destruct (os_makedirs_spec d false w) as (o & m' & Hmk & _ & Hf & _).
    rewrite Hmk in H. by simplify_eq.
Qed.

Lemma no_interrupt_move_files fuel intake output :
  no_interrupt (move_files fuel intake output).
Proof.
  unfold move_files. apply no_interrupt_os_walk. intros top dirs files.
  unfold move_dir. apply no_interrupt_bind; [apply no_interrupt_ensure_dir|intros _].
  apply no_interrupt_for_each. intros file. unfold move_file.
  apply no_interrupt_bind; [intros w e w' H; discriminate|intros ex].
  apply no_interrupt_bind.
  { destruct ex; [|apply no_interrupt_ret].
    apply no_interrupt_bind; [apply no_interrupt_log|intros _; apply no_interrupt_os_remove]. }
  intros _. apply no_interrupt_bind; [apply no_interrupt_shutil_copy2|].
  intros _. apply no_interrupt_log.
Qed.

(** ** The merge writes on the output branch only *)

Lemma changes_along_refl root m : changes_along root m m.
Proof. by intros k. Qed.

Lemma changes_along_trans root m1 m2 m3 :
  changes_along root m1 m2 → changes_along root m2 m3 → changes_along root m1 m3.
Proof. intros H12 H23 k Hk. rewrite H23, H12; done. Qed.

Lemma comparable_extension root rel q :
  q `prefix_of` root ++ rel → comparable root q.
Proof.
  intros Hq. destruct (prefix_weak_total root q (root ++ rel)) as [H|H];
    [by apply prefix_app_r|done|by left|by right].
Qed.

Lemma new_dirs_along_changes root rel m m' :
  new_dirs_along (root ++ rel) m m' → changes_along root m m'.
Proof.
  intros H k Hk. destruct (H k) as [E|(_ & _ & Hpre)]; [done|].
  destruct Hk. by eapply comparable_extension.
Qed.

Lemma insert_changes_along root rel n m :
  changes_along root m (<[root ++ rel := n]> m).
Proof.
  intros k Hk. rewrite lookup_insert_ne; [done|]. intros <-. apply Hk.
  left. by apply prefix_app_r.
Qed.

Lemma delete_changes_along root rel m :
  changes_along root m (delete (root ++ rel) m).
Proof.
  intros k Hk. rewrite lookup_delete_ne; [done|]. intros <-. apply Hk.
  left. by apply prefix_app_r.
Qed.

Lemma ensure_dir_changes_along root rel w :
  changes_along root (fs w) (fs (ensure_dir (root ++ rel) w).2).
Proof.
  destruct (ensure_dir_spec (root ++ rel) w) as [[_ ->]|[_ ->]]; [apply changes_along_refl|].
  destruct (os_makedirs_spec (root ++ rel) false w) as (o & m' & -> & Hm & _).
  by eapply new_dirs_along_changes.
Qed.

Lemma move_file_changes_along m0 output rel root file :
  preserves (λ w, changes_along output m0 (fs w)) (move_file root (output ++ rel) file).
Proof.
  unfold move_file. apply preserves_bind; [by intros w|]. intros ex.
  apply preserves_bind.
  { destruct ex; [|apply preserves_ret].
    apply preserves_bind; [by apply preserves_log|]. intros _ w Hw.
    eapply changes_along_trans; [exact Hw|].
    destruct (os_remove_spec ((output ++ rel) ++ [file]) w) as [(e & -> & _)|(-> & _)];
      [apply changes_along_refl|].
    cbn [snd set_fs fs]. rewrite <- app_assoc. apply delete_changes_along. }
  intros _. apply preserves_bind.
  { intros w Hw. eapply changes_along_trans; [exact Hw|].
    destruct (shutil_copy2_spec (root ++ [file]) ((output ++ rel) ++ [file]) w)
      as [(e & -> & _)|(data & mt & dst' & -> & _ & -> & _)];
      [apply changes_along_refl|].
    cbn [snd fs]. destruct (is_dir _ _); rewrite <- !app_assoc; apply insert_changes_along. }
  intros _. by apply preserves_log.
Qed.

Lemma move_files_changes_along fuel intake output w :
  changes_along output (fs w) (fs (move_files fuel intake output w).2).
Proof.
  unfold move_files.
  apply (preserves_os_walk (λ w', changes_along output (fs w) (fs w')) (λ _, True)).
  - intros top dirs files w' _ Hw' _. revert w' Hw'.
    change (preserves (λ w', changes_along output (fs w) (fs w'))
              (move_dir intake output top dirs files)).
    unfold move_dir. apply preserves_bind.
    { intros w' Hw'. eapply changes_along_trans; [exact Hw'|].
      apply ensure_dir_changes_along. }
    intros _. apply preserves_for_each. intros file _. apply move_file_changes_along.
  - done.
  - by repeat constructor.
  - apply changes_along_refl.
Qed.

Lemma disjoint_trees_not_comparable local output k :
  disjoint_trees local output → local `prefix_of` k → ¬ comparable output k.
Proof.
  intros Hdis Hk [H|H]; apply Hdis.
  - destruct (prefix_weak_total local output k) as [?|?]; [done..|by left|by right].
  - left. by etrans.
Qed.

(** ** The purge reaches every staged file *)

Lemma only_files_removed_None m m' p :
  only_files_removed m m' → m !! p = None → m' !! p = None.
Proof. intros H Hp. destruct (H p) as [->|[_ ->]]; done. Qed.

Lemma purge_file_spec top x w :
  ∃ w', purge_file top x w = (Ret tt, w') ∧ only_files_removed (fs w) (fs w') ∧
        (is_file (fs w) (top ++ [x]) = true → fs w' !! (top ++ [x]) = None).
Proof.
  unfold purge_file, try_except, bind.
  destruct (os_remove_spec (top ++ [x]) w) as [(e & H & He & Hf)|(H & Hf & Hp)]; rewrite H.
  - rewrite He. eexists. split; [reflexivity|]. split; [apply only_files_removed_refl|].
    intros. congruence.
  - eexists. split; [reflexivity|]. cbn [logging_info logging_log level_enabled snd fs set_fs].
    split.
    + pose proof (os_remove_only_files_removed (top ++ [x]) w) as Hr.
      rewrite H in Hr. exact Hr.
    + intros _. cbn. apply lookup_delete_eq.
Qed.

Lemma purge_dir_spec top dirs files w :
  ∃ w', purge_dir top dirs files w = (Ret tt, w') ∧ only_files_removed (fs w) (fs w') ∧
        ∀ x, x ∈ files → is_file (fs w) (top ++ [x]) = true → fs w' !! (top ++ [x]) = None.
Proof.
  unfold purge_dir. revert w. induction files as [|y files IH]; intros w.
  { exists w. split; [done|]. split; [apply only_files_removed_refl|].
    intros x Hx. by apply elem_of_nil in Hx. }
  cbn [for_each]. destruct (purge_file_spec top y w) as (w1 & H1 & Hr1 & Hy).
  destruct (IH w1) as (w' & H' & Hr' & Hrest).
  exists w'. unfold bind. rewrite H1. split; [done|].
  split; [by eapply only_files_removed_trans|].
  intros x Hx Hf.
  assert (fs w1 !! (top ++ [x]) = None ∨ is_file (fs w1) (top ++ [x]) = true) as [Hn|Hf1].
  { destruct (Hr1 (top ++ [x])) as [E|[_ E]]; [right|by left].
    unfold is_file in *. destruct (top ++ [x]) eqn:Hk; [done|]. cbn [node_at] in *.
    by rewrite E. }
  { by eapply only_files_removed_None. }
  apply elem_of_cons in Hx as [->|Hx]; [|by apply Hrest].
  eapply only_files_removed_None; [done|]. by apply Hy.
Qed.

Lemma dir_under_prefix m root d r :
  dir_under m root d → r `prefix_of` d → is_dir m (root ++ r) = true.
Proof.
  intros Hd [rest ->]. specialize (Hd (length r)).
  rewrite take_app_length in Hd. apply Hd. rewrite length_app. lia.
Qed.

Lemma is_dir_lookup m p x : is_dir m (p ++ [x]) = true → m !! (p ++ [x]) = Some Dir.
Proof.
  unfold is_dir. destruct (p ++ [x]) eqn:E; [by destruct p|]. cbn [node_at].
  by destruct (m !! _) as [[]|].
Qed.

Lemma is_file_lookup m k : is_file m k = true → ∃ data mt r, m !! k = Some (File data mt r).
Proof.
  unfold is_file. destruct k; [done|]. cbn [node_at].
  destruct (m !! _) as [[]|]; [eauto|done..].
Qed.

Lemma purge_removes_staged_files self fuel w w' :
  purge self fuel w = (Ret tt, w') →
  ∀ k, file_under (fs w) (local_folder self) k → fs w' !! k = None.
Proof.
  intros Hrun. set (local := local_folder self).
  pose (J := λ (stack : list pathname) (w1 : world),
    only_files_removed (fs w) (fs w1) ∧
    ∀ d x, dir_under (fs w) local d → is_file (fs w) (local ++ d ++ [x]) = true →
      fs w1 !! (local ++ d ++ [x]) = None ∨
      ∃ r, local ++ r ∈ stack ∧ r `prefix_of` d).
  assert (J [] w') as [_ Hdone].
  { eapply (os_walk_Ret_inv J purge_dir); [| |shelve|exact Hrun].
    - intros top stack w1 [Hr Hp] Htop. split; [done|]. intros d x Hd Hf.
      destruct (Hp d x Hd Hf) as [?|(r & Hin & Hpre)]; [by left|right].
      apply elem_of_cons in Hin as [<-|Hin]; [|eauto].
      assert (is_dir (fs w1) (local ++ r) = true); [|congruence].
      eapply only_files_removed_is_dir; [done|]. by eapply dir_under_prefix.
    - intros top stack w1 dirs files w2 [Hr Hp] Hscan Hbody.
      apply os_scandir_inv in Hscan as (Htop & Hdirs & Hfiles).
      destruct (purge_dir_spec top dirs files w1) as (w2' & Hb & Hr2 & Hdel).
      rewrite Hb in Hbody. simplify_eq.
      split; [by eapply only_files_removed_trans|]. intros d x Hd Hf.
      destruct (Hp d x Hd Hf) as [Hn|(r & Hin & Hpre)].
      { left. by eapply only_files_removed_None. }
      apply elem_of_cons in Hin as [<-|Hin].
      2:{ right. exists r. split; [|done]. apply elem_of_app. by right. }
      destruct Hpre as [rest ->]. destruct rest as [|y rest].
      + left. rewrite app_nil_r in *. rewrite app_assoc.
        destruct (Hr (local ++ r ++ [x])) as [E|[_ E]].
        * apply Hdel.
          -- apply Hfiles. rewrite <- app_assoc, E. by apply is_file_lookup.
          -- rewrite <- app_assoc. unfold is_file in *.
             destruct (local ++ r ++ [x]) eqn:Hk; [done|]. cbn [node_at] in *. by rewrite E.
        * rewrite <- app_assoc. by eapply only_files_removed_None.
      + right. exists (r ++ [y]). split.
        * apply elem_of_app. left. apply list_elem_of_fmap. exists y. split; [by rewrite app_assoc|].
          apply Hdirs. apply is_dir_lookup.
          eapply only_files_removed_is_dir; [done|]. rewrite <- app_assoc.
          eapply dir_under_prefix; [done|]. exists rest. by rewrite <- app_assoc.
        * exists rest. by rewrite <- app_assoc. }
  Unshelve.
  2:{ split; [apply only_files_removed_refl|]. intros d x Hd Hf. right. exists [].
      split; [|apply prefix_nil]. rewrite app_nil_r. by left. }
  intros k (d & x & -> & Hd & Hf).
  destruct (Hdone d x Hd Hf) as [?|(r & Hin & _)]; [done|]. by apply elem_of_nil in Hin.
Qed.

(** ** Enough fuel for [os.walk] *)

Lemma filter_length_split {A} (P Q : A → bool) l :
  length (List.filter P l)
  = (length (List.filter P (List.filter Q l))
     + length (List.filter P (List.filter (λ x, negb (Q x)) l)))%nat.
Proof.
  induction l as [|x l IH]; [done|]. cbn [List.filter].
  destruct (Q x); cbn [negb List.filter]; destruct (P x); cbn [length]; lia.
Qed.

Lemma filter_filter_absorb {A} (P R : A → bool) l :
  (∀ x, P x = true → R x = true) →
  List.filter P (List.filter R l) = List.filter P l.
Proof.
  intros HPR. induction l as [|x l IH]; [done|]. cbn [List.filter].
  destruct (R x) eqn:HR; cbn [List.filter]; destruct (P x) eqn:HP; try congruence.
  apply HPR in HP. congruence.
Qed.

Lemma NoDup_bool_filter {A} (P : A → bool) l : NoDup l → NoDup (List.filter P l).
Proof.
  induction 1 as [|x l Hx Hl IH]; [constructor|]. cbn [List.filter].
  destruct (P x); [|done]. constructor; [|done].
  intros Hin. apply Hx. apply list_elem_of_In, filter_In in Hin as [Hin _].
  by apply list_elem_of_In.
Qed.

Lemma filter_ext_length {A} (P Q : A → bool) l :
  (∀ x, P x = Q x) → length (List.filter P l) = length (List.filter Q l).
Proof. intros H. f_equal. apply filter_ext. exact H. Qed.

Lemma filter_eq_length (c : pathname) l :
  NoDup l → c ∈ l → length (List.filter (λ k, bool_decide (k = c)) l) = 1.
Proof.
  induction 1 as [|x l Hx Hl IH]; intros Hc; [by apply elem_of_nil in Hc|].
  cbn [List.filter]. case_bool_decide as Heq.
  - subst x. cbn [length]. f_equal.
    assert (List.filter (λ k, bool_decide (k = c)) l = []) as ->; [|done].
    clear -Hx. induction l as [|y l IH]; [done|]. cbn [List.filter].
    apply not_elem_of_cons in Hx as [Hne Hx]. rewrite bool_decide_eq_false_2 by done.
    by apply IH.
  - apply elem_of_cons in Hc as [->|Hc]; [done|]. by apply IH.
Qed.

Lemma below_within top x k : within (top ++ [x]) k = true → below top k = true.
Proof.
  unfold within, below. intros H. apply bool_decide_eq_true in H.
  apply bool_decide_eq_true. split.
  - etrans; [|exact H]. by apply prefix_app_r.
  - intros ->. apply prefix_length in H. rewrite length_app in H. cbn in H. lia.
Qed.

Lemma within_cases c k :
  within c k = bool_decide (k = c) || below c k.
Proof.
  unfold within, below. apply eq_true_iff_eq.
  rewrite orb_true_iff, !bool_decide_eq_true. split.
  - intros H. destruct (decide (k = c)) as [->|Hne]; [by left|right]. split; [done|congruence].
  - intros [->|[H _]]; done.
Qed.

Lemma within_siblings top x x' k :
  x ≠ x' → below (top ++ [x']) k = true → within (top ++ [x]) k = false.
Proof.
  unfold within, below. intros Hne H. apply bool_decide_eq_true in H as [H _].
  apply bool_decide_eq_false. intros H'.
  destruct (prefix_weak_total _ _ _ H H') as [[r E]|[r E]];
    rewrite <- app_assoc in E; apply app_inv_head in E;
    cbn in E; by simplify_eq.
Qed.

Lemma filter_within_length known c :
  NoDup known → c ∈ known →
  length (List.filter (within c) known) = S (length (List.filter (below c) known)).
Proof.
  intros Hnd Hc.
  rewrite (filter_ext_length _ (λ k, bool_decide (k = c) || below c k))
    by apply within_cases.
  assert (length (List.filter (λ k, bool_decide (k = c) || below c k) known)
          = (length (List.filter (λ k, bool_decide (k = c)) known)
             + length (List.filter (below c) known))%nat) as ->.
  { clear. induction known as [|k known IH]; [done|]. cbn [List.filter].
    case_bool_decide as Heq; cbn [orb].
    - assert (below c k = false) as ->.
      { unfold below. apply bool_decide_eq_false. intros [_ H]. congruence. }
      cbn [length]. lia.
    - destruct (below c k); cbn [length]; lia. }
  by rewrite (filter_eq_length c known Hnd Hc).
Qed.

(** The sub-directories of [top] cost, together, less than [top]. *)
Lemma children_cost known top xs :
  NoDup xs → NoDup known → (∀ x, x ∈ xs → top ++ [x] ∈ known) →
  (sum_list (map (λ x, walk_cost known (top ++ [x])) xs) < walk_cost known top)%nat.
Proof.
  unfold walk_cost. intros Hxs. revert known.
  induction Hxs as [|x xs Hx Hxs IH]; intros known Hnd Hin; [cbn; lia|].
  cbn [map sum_list].
  rewrite (filter_length_split (below top) (within (top ++ [x])) known).
  assert (List.filter (below top) (List.filter (within (top ++ [x])) known)
          = List.filter (within (top ++ [x])) known) as Hfirst.
  { clear. induction known as [|k known IH]; [done|]. cbn [List.filter].
    destruct (within (top ++ [x]) k) eqn:Hw; [|done]. cbn [List.filter].
    by rewrite (below_within _ _ _ Hw), IH. }
  assert (length (List.filter (below top) (List.filter (within (top ++ [x])) known))
          = S (length (List.filter (below (top ++ [x])) known))) as ->.
  { rewrite Hfirst. apply filter_within_length; [done|]. apply Hin. by left. }
  set (known' := List.filter (λ k, negb (within (top ++ [x]) k)) known).
  assert (NoDup known') as Hnd' by (unfold known'; by apply NoDup_bool_filter).
  assert (∀ x', x' ∈ xs → top ++ [x'] ∈ known') as Hin'.
  { intros x' Hx'. apply list_elem_of_In, filter_In. split.
    - apply list_elem_of_In, Hin. by right.
    - apply negb_true_iff. unfold within. apply bool_decide_eq_false. intros [r E].
      rewrite <- app_assoc in E. apply app_inv_head in E. cbn in E. simplify_eq.
      by apply Hx, list_elem_of_In. }
  specialize (IH known' Hnd' Hin').
  assert (map (λ x0, S (length (List.filter (below (top ++ [x0])) known))) xs
          = map (λ x0, S (length (List.filter (below (top ++ [x0])) known'))) xs) as ->.
  { apply map_ext_in. intros x' Hx'. f_equal. unfold known'. symmetry. f_equal.
    apply filter_filter_absorb. intros k Hk. apply negb_true_iff.
    apply (within_siblings top x x'); [|done]. intros ->. apply Hx.
    by apply list_elem_of_In. }
  unfold id in *. lia.
Qed.

Lemma NoDup_entries_names m top : NoDup (entries m top).*1.
Proof.
  unfold entries. pose proof (NoDup_fst_map_to_list m) as Hnd.
  induction (map_to_list m) as [|[k n] l IH]; [constructor|].
  cbn [fmap list_fmap] in Hnd. apply NoDup_cons in Hnd as [Hk Hl].
  cbn [omap list_omap fst snd]. destruct (child_name top k) as [x|] eqn:Hc; [|by apply IH].
  cbn [fmap list_fmap fst]. apply NoDup_cons. split; [|by apply IH].
  intros Hx. apply Hk. apply list_elem_of_fmap in Hx as ([x' n'] & Hxx & Hin).
  cbn [fst] in Hxx. subst x'. apply list_elem_of_omap in Hin as ([k' n''] & Hin & Hf).
  cbn [fst snd] in Hf. destruct (child_name top k') as [y|] eqn:Hc'; [|discriminate].
  simplify_eq. apply child_name_spec in Hc as ->. apply child_name_spec in Hc' as ->.
  apply list_elem_of_fmap. by exists (top ++ [x], n').
Qed.

Lemma NoDup_fst_filter {A B} (P : A * B → bool) (l : list (A * B)) :
  NoDup l.*1 → NoDup (List.filter P l).*1.
Proof.
  induction l as [|[a b] l IH]; [done|]. cbn [fmap list_fmap fst].
  intros [Ha Hl]%NoDup_cons. cbn [List.filter]. destruct (P (a, b)); [|by apply IH].
  cbn [fmap list_fmap fst]. apply NoDup_cons. split; [|by apply IH].
  intros Hin. apply Ha. apply list_elem_of_fmap in Hin as ([a' b'] & -> & Hin).
  apply list_elem_of_In, filter_In in Hin as [Hin _].
  apply list_elem_of_fmap. exists (a', b'). split; [done|]. by apply list_elem_of_In.
Qed.

Lemma os_scandir_NoDup top w dirs files :
  (os_scandir top w).1 = Ret (Some (dirs, files)) → NoDup dirs.
Proof.
  unfold os_scandir. cbn [fst]. destruct (is_dir (fs w) top); [|discriminate].
  intros H. simplify_eq. apply NoDup_fst_filter, NoDup_entries_names.
Qed.

(** With fuel for the cost of its stack, [os.walk] does not run out of
    fuel, when the directories it can meet are [known] and its body
    keeps it so. *)
Lemma os_walk_enough_fuel (I : world → Prop) (P : pathname → Prop) known body :
  NoDup known →
  (∀ w top x, I w → P top → fs w !! (top ++ [x]) = Some Dir → top ++ [x] ∈ known) →
  (∀ top dirs files w,
     P top → I w → (os_scandir top w).1 = Ret (Some (dirs, files)) →
     I (body top dirs files w).2 ∧ (body top dirs files w).1 ≠ OutOfFuel) →
  (∀ top d, P top → P (top ++ [d])) →
  ∀ fuel stack w,
    Forall P stack → I w →
    (sum_list (map (walk_cost known) stack) ≤ fuel)%nat →
    (os_walk fuel stack body w).1 ≠ OutOfFuel.
Proof.
  intros Hnd Hknown Hbody Hsub fuel.
  induction fuel as [|fuel IH]; intros stack w Hstack Hw Hfuel.
  { destruct stack as [|top stack]; [done|]. cbn in Hfuel. unfold walk_cost in Hfuel. lia. }
  destruct stack as [|top stack]; [done|].
  apply Forall_cons in Hstack as [Htop Hstack]. cbn [map sum_list] in Hfuel.
  cbn [os_walk]. unfold bind at 1.
  destruct (os_scandir top w) as [o w1] eqn:Hscan.
  assert (w1 = w) as -> by (unfold os_scandir in Hscan; by simplify_eq).
  assert (o = (os_scandir top w).1) as Ho by by rewrite Hscan.
  destruct o as [[[dirs files]|]|e|]; [| |unfold os_scandir in Ho; discriminate..].
  - symmetry in Ho. destruct (Hbody top dirs files w Htop Hw Ho) as [HI Hout].
    unfold bind. destruct (body top dirs files w) as [[[]|e|] w2]; cbn [fst snd] in *;
      [|done..].
    apply IH; [|done|].
    + apply Forall_app. split; [|done]. apply Forall_forall. intros p Hp.
      apply list_elem_of_fmap in Hp as (d & -> & _). by apply Hsub.
    + rewrite map_app, sum_list_with_app, map_map.
      pose proof (os_scandir_NoDup _ _ _ _ Ho) as Hdirs.
      apply os_scandir_inv in Ho as (_ & Hd & _).
      assert (sum_list (map (λ x, walk_cost known (top ++ [x])) dirs)
              < walk_cost known top)%nat; [|unfold id in *; lia].
      apply children_cost; [done..|]. intros x Hx. apply (Hknown w top x); [done..|].
      by apply Hd.
  - apply IH; [done..|]. unfold walk_cost at 1 in Hfuel. unfold id in *. lia.
Qed.

Lemma elem_of_directories m k : m !! k = Some Dir → k ∈ directories m.
Proof.
  intros H. unfold directories. apply list_elem_of_fmap. exists (k, Dir). split; [done|].
  apply list_elem_of_In, filter_In. split; [|done].
  by apply list_elem_of_In, elem_of_map_to_list.
Qed.

Lemma NoDup_directories m : NoDup (directories m).
Proof. apply NoDup_fst_filter, NoDup_fst_map_to_list. Qed.

Lemma fuel_free_ret {A} (a : A) : fuel_free (ret a).
Proof. by intros w. Qed.

Lemma fuel_free_bind {A B} (m : M A) (k : A → M B) :
  fuel_free m → (∀ a, fuel_free (k a)) → fuel_free (bind m k).
Proof.
  intros Hm Hk w. unfold bind. specialize (Hm w).
  destruct (m w) as [[a|e|] w1]; [apply Hk|done..].
Qed.

Lemma fuel_free_for_each {A} (body : A → M unit) l :
  (∀ x, fuel_free (body x)) → fuel_free (for_each l body).
Proof.
  intros Hbody. induction l as [|x l IH]; [apply fuel_free_ret|].
  cbn [for_each]. by apply fuel_free_bind.
Qed.

Lemma fuel_free_log l msg : fuel_free (logging_log l msg).
Proof. by intros w. Qed.

Lemma fuel_free_os_remove p : fuel_free (os_remove p).
Proof.
  intros w. by destruct (os_remove_spec p w) as [(e & -> & _)|(-> & _)].
Qed.

Lemma fuel_free_shutil_copy2 src dst : fuel_free (shutil_copy2 src dst).
Proof.
  intros w. by destruct (shutil_copy2_spec src dst w) as [(e & -> & _)|(? & ? & ? & -> & _)].
Qed.

Lemma fuel_free_ensure_dir d : fuel_free (ensure_dir d).
Proof.
  intros w. destruct (ensure_dir_spec d w) as [[_ ->]|[_ ->]]; [done|].
  destruct (os_makedirs_spec d false w) as (o & m' & -> & _ & Hf & _).
  by destruct o.
Qed.

Lemma fuel_free_move_dir intake output top dirs files :
  fuel_free (move_dir intake output top dirs files).
Proof.
  unfold move_dir. apply fuel_free_bind; [apply fuel_free_ensure_dir|intros _].
  apply fuel_free_for_each. intros file. unfold move_file.
  apply fuel_free_bind; [by intros w|intros ex].
  apply fuel_free_bind.
  { destruct ex; [|apply fuel_free_ret].
    apply fuel_free_bind; [apply fuel_free_log|intros _; apply fuel_free_os_remove]. }
  intros _. apply fuel_free_bind; [apply fuel_free_shutil_copy2|].
  intros _. apply fuel_free_log.
Qed.

(** With fuel for the directories under the staging root, of which
    [known] lists at least those of the world [w], the purge returns:
    no removal error leaves its [try] block. *)
Lemma purge_returns self fuel known w :
  NoDup known →
  (∀ k, local_folder self `prefix_of` k → fs w !! k = Some Dir → k ∈ known) →
  (walk_cost known (local_folder self) ≤ fuel)%nat →
  ∃ w', purge self fuel w = (Ret tt, w').
Proof.
  intros Hnd Hknown Hfuel.
  assert ((purge self fuel w).1 ≠ OutOfFuel) as Hout.
  { unfold purge.
    apply (os_walk_enough_fuel (λ w', only_files_removed (fs w) (fs w'))
             (λ top, local_folder self `prefix_of` top) known).
    - done.
    - intros w' top x Hw' Htop Hd. apply Hknown.
      + etrans; [exact Htop|]. by apply prefix_app_r.
      + destruct (Hw' (top ++ [x])) as [E|[_ E]]; congruence.
    - intros top dirs files w' _ Hw' _.
      destruct (purge_dir_spec top dirs files w') as (w2 & -> & Hr & _).
      split; [by eapply only_files_removed_trans|done].
    - intros top d Htop. etrans; [exact Htop|]. by apply prefix_app_r.
    - by repeat constructor.
    - apply only_files_removed_refl.
    - cbn [map sum_list sum_list_with]. unfold id. lia. }
  assert (∀ fuel stack w e w', os_walk fuel stack purge_dir w ≠ (Raise e, w')) as Hraise.
  { clear. intros fuel. induction fuel as [|fuel IH]; intros stack w e w'.
    { by destruct stack. }
    destruct stack as [|top stack]; [done|]. cbn [os_walk]. unfold bind at 1.
    unfold os_scandir at 1. destruct (is_dir (fs w) top); [|apply IH].
    unfold bind.
    destruct (purge_dir_spec top
                (List.filter entry_is_dir (entries (fs w) top)).*1
                (List.filter (λ xn, negb (entry_is_dir xn)) (entries (fs w) top)).*1 w)
      as (w2 & -> & _).
    apply IH. }
  destruct (purge self fuel w) as [[[]|e|] w'] eqn:Hp; [by eexists| |done].
  by apply Hraise in Hp.
Qed.

(** With fuel for the directories under the staging root, the merge
    ends: it returns, or a failing call raises an [Exception]. *)
Lemma move_files_finishes fuel intake output w :
  disjoint_trees intake output →
  (walk_cost (directories (fs w)) intake ≤ fuel)%nat →
  finished (move_files fuel intake output w).1.
Proof.
  intros Hdis Hfuel.
  assert ((move_files fuel intake output w).1 ≠ OutOfFuel) as Hout.
  { unfold move_files.
    apply (os_walk_enough_fuel (λ w', changes_along output (fs w) (fs w'))
             (λ top, intake `prefix_of` top) (directories (fs w))).
    - apply NoDup_directories.
    - intros w' top x Hw' Htop Hd. apply elem_of_directories.
      rewrite <- Hd. symmetry. apply Hw'.
      apply (disjoint_trees_not_comparable intake); [done|].
      etrans; [exact Htop|]. by apply prefix_app_r.
    - intros top dirs files w' _ Hw' _. split; [|apply fuel_free_move_dir].
      revert w' Hw'.
      change (preserves (λ w', changes_along output (fs w) (fs w'))
                (move_dir intake output top dirs files)).
      unfold move_dir. apply preserves_bind.
      { intros w' Hw'. eapply changes_along_trans; [exact Hw'|].
        apply ensure_dir_changes_along. }
      intros _. apply preserves_for_each. intros file _. apply move_file_changes_along.
    - intros top d Htop. etrans; [exact Htop|]. by apply prefix_app_r.
    - by repeat constructor.
    - apply changes_along_refl.
    - cbn [map sum_list sum_list_with]. unfold id. lia. }
  destruct (move_files fuel intake output w) as [[[]|e|] w'] eqn:Hm; [done| |done].
  cbn [fst finished]. by eapply no_interrupt_move_files.
Qed.

(** C3 on a concrete input: the staged file [locked.txt] cannot be
    copied; the readable file [sub/b.txt] is then never copied, and no
    staged file is deleted. *)
Lemma merge_failure_not_isolated :
  ¬ remaining_files_copied toy_hashlib merge_self 10 merge_world ∧
  ¬ staged_files_deleted toy_hashlib merge_self 10 merge_world.
Proof.
  assert (dir_under (fs merge_world) (local_folder merge_self) ["sub"]) as Hsub.
  { intros [|[|n]] _; reflexivity. }
  split.
  - intros H.
    destruct (H ["sub"] "b.txt" (String.list_byte_of_string "B") 2 Hsub eq_refl)
      as (mt' & r & Hcopy).
    vm_compute in Hcopy. discriminate.
  - intros H.
    assert (file_under (fs merge_world) (local_folder merge_self)
              ["srv"; "inbox"; "sub"; "b.txt"]) as Hf.
    { exists ["sub"], "b.txt". split; [done|]. split; [exact Hsub|reflexivity]. }
    specialize (H _ Hf). vm_compute in H. discriminate.
Qed.

(** ** The merge reaches every staging directory *)

Lemma new_dirs_along_is_file p m m' q :
  new_dirs_along p m m' → is_file m' q = is_file m q.
Proof.
  intros H. unfold is_file. destruct q as [|x q]; [done|]. cbn [node_at].
  destruct (H (x :: q)) as [->|(-> & -> & _)]; done.
Qed.

Lemma only_files_removed_not_file m m' q :
  only_files_removed m m' → is_file m q = false → is_file m' q = false.
Proof.
  intros H. unfold is_file. destruct q as [|x q]; [done|]. cbn [node_at].
  destruct (H (x :: q)) as [->|[_ ->]]; done.
Qed.

Lemma exists_not_file_is_dir m p :
  path_exists m p = true → is_file m p = false → is_dir m p = true.
Proof. unfold path_exists, is_file, is_dir. by destruct (node_at m p) as [[]|]. Qed.

Lemma node_at_app_singleton m p x : node_at m (p ++ [x]) = m !! (p ++ [x]).
Proof. unfold node_at. by destruct p. Qed.

Lemma move_file_merge_inv m0 intake output r file :
  preserves (merge_inv m0 intake output)
            (move_file (intake ++ r) (output ++ r) file).
Proof.
  unfold move_file. apply preserves_bind; [by intros w|]. intros ex.
  apply preserves_bind.
  { destruct ex; [|apply preserves_ret].
    apply preserves_bind; [by apply preserves_log|]. intros _ w [Hd Hf]. split.
    - eapply dirs_kept_trans; [exact Hd|apply os_remove_dirs_kept].
    - intros d Hdir Hno. eapply only_files_removed_not_file;
        [apply os_remove_only_files_removed|by apply Hf]. }
  intros _. apply preserves_bind; [|intros _; by apply preserves_log].
  intros w [Hd Hf].
  destruct (shutil_copy2_spec ((intake ++ r) ++ [file]) ((output ++ r) ++ [file]) w)
    as [(e & -> & _)|(data & mt & dst' & Hrun & Hsrc & Hdst & Hnd & Hne)]; [done|].
  rewrite Hrun. cbn [snd fs]. split.
  { eapply dirs_kept_trans; [exact Hd|]. by apply insert_file_dirs_kept. }
  intros d Hdir Hno. specialize (Hf d Hdir Hno).
  destruct (decide (dst' = output ++ d)) as [Heq|Hneq].
  2:{ unfold is_file in *. destruct (output ++ d) eqn:E; [done|]. cbn [node_at fs] in *.
      by rewrite lookup_insert_ne. }
  exfalso.
  assert (r ++ [file] `prefix_of` d) as Hpre.
  { rewrite Hdst in Heq. destruct (is_dir (fs w) _); rewrite <- !app_assoc in Heq;
      apply app_inv_head in Heq; subst d; [|done].
    rewrite (app_assoc r). by apply prefix_app_r. }
  pose proof (dir_under_prefix _ _ _ _ Hdir Hpre) as Hisdir.
  apply Hd in Hisdir. rewrite app_assoc in Hisdir.
  unfold is_dir in Hisdir. by rewrite Hsrc in Hisdir.
Qed.

Lemma ensure_dir_merge_inv m0 intake output p :
  preserves (merge_inv m0 intake output) (ensure_dir p).
Proof.
  intros w [Hd Hf]. split.
  - eapply dirs_kept_trans; [exact Hd|apply ensure_dir_dirs_kept].
  - intros d Hdir Hno. specialize (Hf d Hdir Hno).
    destruct (ensure_dir_spec p w) as [[_ ->]|[_ ->]]; [done|].
    destruct (os_makedirs_spec p false w) as (o & m' & -> & Hm & _).
    cbn [snd set_fs fs]. by rewrite (new_dirs_along_is_file _ _ _ _ Hm).
Qed.

Lemma move_dir_merge_inv m0 intake output r dirs files :
  preserves (merge_inv m0 intake output)
            (move_dir intake output (intake ++ r) dirs files).
Proof.
  unfold move_dir. rewrite relpath_app.
  apply preserves_bind; [apply ensure_dir_merge_inv|].
  intros _. apply preserves_for_each. intros file _. apply move_file_merge_inv.
Qed.

Lemma ensure_dir_Ret p w w' :
  ensure_dir p w = (Ret tt, w') →
  is_file (fs w) p = false → is_dir (fs w') p = true.
Proof.
  intros Hrun Hnf. destruct (ensure_dir_spec p w) as [[Hex H]|[Hex H]]; rewrite H in Hrun.
  - simplify_eq. by apply exists_not_file_is_dir.
  - destruct (os_makedirs_spec p false w) as (o & m' & Hmk & _ & _ & Hd).
    rewrite Hmk in Hrun. simplify_eq. by apply Hd.
Qed.

(** C9, amended: after a merge pass that returns, every directory of the
    staging tree has a directory at the same relative path under the
    output root, provided no regular file stood at that path when the
    merge began. *)
Theorem merge_mirrors_free_directories fuel intake output w w' d :
  move_files fuel intake output w = (Ret tt, w') →
  dir_under (fs w) intake d →
  is_file (fs w) (output ++ d) = false →
  is_dir (fs w') (output ++ d) = true.
Proof.
  intros Hrun Hdir Hno.
  pose (J := λ (stack : list pathname) (w1 : world),
    merge_inv (fs w) intake output w1 ∧
    Forall (λ top, intake `prefix_of` top) stack ∧
    ∀ d, dir_under (fs w) intake d → is_file (fs w) (output ++ d) = false →
      is_dir (fs w1) (output ++ d) = true ∨
      ∃ r, intake ++ r ∈ stack ∧ r `prefix_of` d).
  assert (J [] w') as (_ & _ & Hdone).
  { unfold move_files in Hrun.
    eapply (os_walk_Ret_inv J (move_dir intake output)); [| |shelve|exact Hrun].
    - intros top stack w1 ([Hk Hf] & Hst & Hp) Htop.
      apply Forall_cons in Hst as [_ Hst]. split_and!; [done..|].
      intros d' Hd' Hno'. destruct (Hp d' Hd' Hno') as [?|(r & Hin & Hpre)]; [by left|right].
      apply elem_of_cons in Hin as [<-|Hin]; [|eauto].
      assert (is_dir (fs w1) (intake ++ r) = true); [|congruence].
      apply Hk. by eapply dir_under_prefix.
    - intros top stack w1 dirs files w2 (Hinv & Hst & Hp) Hscan Hbody.
      apply Forall_cons in Hst as [[r ->] Hst].
      apply os_scandir_inv in Hscan as (Htop & Hdirs & Hfiles).
      pose proof (move_dir_merge_inv (fs w) intake output r dirs files w1 Hinv) as Hinv2.
      rewrite Hbody in Hinv2. cbn [snd] in Hinv2.
      pose proof (move_dir_dirs_kept (fs w1) intake output (intake ++ r) dirs files w1
                    (dirs_kept_refl _)) as Hk12.
      rewrite Hbody in Hk12. cbn [snd] in Hk12.
      split_and!; [done| |].
      { apply Forall_app. split; [|done]. apply Forall_forall. intros p Hp'.
        apply list_elem_of_fmap in Hp' as (x & -> & _).
        rewrite <- app_assoc. by apply prefix_app_r. }
      intros d' Hd' Hno'. destruct (Hp d' Hd' Hno') as [Hdone|(r' & Hin & Hpre)].
      { left. by apply Hk12. }
      apply elem_of_cons in Hin as [Heq|Hin].
      2:{ right. exists r'. split; [|done]. apply elem_of_app. by right. }
      apply app_inv_head in Heq as ->. destruct Hpre as [rest ->].
      destruct rest as [|y rest].
      + left. rewrite app_nil_r in *.
        unfold move_dir in Hbody. rewrite relpath_app in Hbody.
        apply bind_Ret_inv in Hbody as ([] & w1' & Hens & Hloop).
        apply ensure_dir_Ret in Hens; [|by apply Hinv].
        pose proof (preserves_for_each (λ w0, dirs_kept (fs w1') (fs w0)) _ files
                      (λ file _, move_file_dirs_kept (fs w1') (intake ++ r) (output ++ r) file)
                      w1' (dirs_kept_refl _)) as Hk.
        rewrite Hloop in Hk. by apply Hk.
      + right. exists (r ++ [y]). split.
        * apply elem_of_app. left. apply list_elem_of_fmap. exists y.
          split; [by rewrite app_assoc|].
          apply Hdirs, is_dir_lookup. rewrite <- app_assoc.
          apply Hinv. eapply dir_under_prefix; [done|].
          exists rest. by rewrite <- app_assoc.
        * exists rest. by rewrite <- app_assoc. }
  Unshelve.
  2:{ split_and!.
      - split; [apply dirs_kept_refl|done].
      - by repeat constructor.
      - intros d' Hd' Hno'. right. exists []. split; [|apply prefix_nil].
        rewrite app_nil_r. by left. }
  destruct (Hdone d Hdir Hno) as [?|(r & Hin & _)]; [done|]. by apply elem_of_nil in Hin.
Qed.

(** C9, refuted as stated: the empty staging directory [a] is not mirrored
    when the output tree already holds a regular file named [a]. *)
Lemma merge_skips_occupied_directory :
  ¬ merge_mirrors_directories 10 ["srv"; "inbox"] ["srv"; "out"] mirror_world.
Proof.
  intros H.
  assert (dir_under (fs mirror_world) ["srv"; "inbox"] ["a"]) as Hd.
  { intros [|[|n]] _; reflexivity. }
  specialize (H ["a"] Hd). vm_compute in H. discriminate.
Qed.

Lemma merge_mirrors_free_directories_witness :
  is_dir (fs (move_files 10 (local_folder demo_self) (output_folder demo_self) demo_world).2)
         (output_folder demo_self ++ ["a"]) = true.
Proof.
  apply (merge_mirrors_free_directories 10 (local_folder demo_self) (output_folder demo_self)
           demo_world _ ["a"]).
  - vm_compute. reflexivity.
  - intros [|[|n]] _; reflexivity.
  - reflexivity.
Defined.

(** ** A second cycle *)

Lemma same_files_refl m : same_files m m.
Proof. by intros p data mt r. Qed.

Lemma same_files_trans m1 m2 m3 : same_files m1 m2 → same_files m2 m3 → same_files m1 m3.
Proof. intros H12 H23 p data mt r. etrans; [apply H23|apply H12]. Qed.

Lemma new_dirs_along_same_files p m m' : new_dirs_along p m m' → same_files m m'.
Proof. intros H q data mt r. by eapply new_dirs_along_file. Qed.


Lemma ensure_dir_quiet self m0 p : preserves (quiet self m0) (ensure_dir p).
Proof.
  intros w [Hs Hn].
  destruct (ensure_dir_spec p w) as [[_ ->]|[_ ->]]; [done|].
  destruct (os_makedirs_spec p false w) as (o & m' & -> & Hm & _).
  cbn [snd]. split; cbn [set_fs fs].
  - eapply same_files_trans; [exact Hs|by eapply new_dirs_along_same_files].
  - intros d x. rewrite (new_dirs_along_is_file _ _ _ _ Hm). by apply Hn.
Qed.

Lemma no_files_scanned self w top dirs files :
  no_staged_files self (fs w) → local_folder self `prefix_of` top →
  (os_scandir top w).1 = Ret (Some (dirs, files)) → files = [].
Proof.
  intros Hn Htop Hscan. apply os_scandir_inv in Hscan as (_ & _ & Hfiles).
  destruct files as [|x files]; [done|].
  destruct (proj1 (Hfiles x)) as (data & mt & r & Hx); [by left|].
  assert (is_file (fs w) (top ++ [x]) = false) as Hf.
  { destruct Htop as [d ->]. rewrite <- app_assoc. apply Hn. }
  unfold is_file in Hf. rewrite node_at_app_singleton, Hx in Hf. done.
Qed.

Lemma move_files_quiet self m0 fuel :
  preserves (quiet self m0) (move_files fuel (local_folder self) (output_folder self)).
Proof.
  unfold move_files.
  apply (preserves_os_walk (quiet self m0) (λ top, local_folder self `prefix_of` top)).
  - intros top dirs files w Htop Hq Hscan.
    rewrite (no_files_scanned self w top dirs files (proj2 Hq) Htop Hscan).
    unfold move_dir. cbn [for_each].
    apply preserves_bind; [apply ensure_dir_quiet|intros _; apply preserves_ret|done].
  - intros top d Htop. by apply prefix_app_r.
  - by repeat constructor.
Qed.

Lemma purge_quiet self m0 fuel : preserves (quiet self m0) (purge self fuel).
Proof.
  unfold purge.
  apply (preserves_os_walk (quiet self m0) (λ top, local_folder self `prefix_of` top)).
  - intros top dirs files w Htop Hq Hscan.
    by rewrite (no_files_scanned self w top dirs files (proj2 Hq) Htop Hscan).
  - intros top d Htop. by apply prefix_app_r.
  - by repeat constructor.
Qed.

Lemma upload_log_file_fs self p folder_id w :
  fs (upload_log_file self p folder_id w).2 = fs w.
Proof.
  unfold upload_log_file, bind, os_path_exists, try_except, open_rb_read, request.
  destruct (path_exists (fs w) p); [|done]. cbn [negb].
  destruct (node_at (fs w) p) as [[data mt []|]|]; cbn; try done.
  by destruct (files_create _ _ _).
Qed.

Lemma sync_tail_quiet self m0 fuel : preserves (quiet self m0) (sync_tail self fuel).
Proof.
  unfold sync_tail. apply preserves_bind; [apply move_files_quiet|intros _].
  apply preserves_bind; [apply purge_quiet|intros _].
  apply preserves_bind; [by apply preserves_log|intros _].
  apply preserves_bind; [|intros _; apply preserves_ret].
  intros w Hq. unfold quiet. by rewrite upload_log_file_fs.
Qed.

Lemma sync_entry_in_sync hashlib self e w :
  in_sync hashlib self (fs w) e →
  sync_entry hashlib self e w =
    (Ret tt, logged INFO ("Skipping " +:+ path_str (local_path self e)
                          +:+ ", already up-to-date.") w).
Proof.
  intros (data & mt & Hn & Hsum).
  pose proof (md5_spec hashlib (local_path self e) w) as Hmd5. rewrite Hn in Hmd5.
  unfold sync_entry. fold (local_path self e).
  unfold bind, os_path_exists, path_exists, ret. rewrite Hn, Hmd5, Hsum.
  by rewrite bool_decide_eq_true_2.
Qed.

Lemma reconcile_in_sync hashlib self m0 drive_files :
  Forall (in_sync hashlib self m0) drive_files →
  ∀ w, fs w = m0 →
    ∃ w', for_each drive_files (sync_entry hashlib self) w = (Ret tt, w') ∧ fs w' = m0.
Proof.
  induction 1 as [|e l He Hl IH]; intros w Hw; [by exists w|].
  cbn [for_each]. unfold bind. rewrite sync_entry_in_sync by by rewrite Hw.
  by apply IH.
Qed.

(** A cycle run from a world in which every listed entry is in sync and
    nothing is staged writes no file. *)
Lemma idle_cycle_writes_nothing hashlib self fuel w1 :
  (∀ drive_files,
     (get_drive_files self fuel None
        (logged INFO "=== Starting sync process ===" w1)).1 = Ret drive_files →
     Forall (in_sync hashlib self (fs w1)) drive_files) →
  no_staged_files self (fs w1) →
  same_files (fs w1) (fs (sync hashlib self fuel w1).2).
Proof.
  intros Hsync Hstaged.
  assert (quiet self (fs w1) (sync hashlib self fuel w1).2) as [Hq _]; [|exact Hq].
  unfold sync at 1. unfold bind at 1. rewrite logging_info_logged.
  pose proof (get_drive_files_run self fuel None
                (logged INFO "=== Starting sync process ===" w1)) as (Hfs & _).
  unfold try_except. unfold bind at 1.
  destruct (get_drive_files self fuel None _) as [[drive_files|e|] w2];
    cbn [fst snd logged fs] in *.
  - destruct (reconcile_in_sync hashlib self (fs w1) drive_files (Hsync _ eq_refl) w2 Hfs)
      as (w3 & Hrec & Hfs3).
    unfold bind at 1. rewrite Hrec.
    assert (quiet self (fs w1) w3) as Hq3.
    { split; rewrite Hfs3; [apply same_files_refl|done]. }
    pose proof (sync_tail_quiet self (fs w1) fuel w3 Hq3) as Hq4.
    destruct (sync_tail self fuel w3) as [[[]|e|] w4]; cbn [snd] in *; [done| |done].
    destruct (is_Exception e); done.
  - destruct (is_Exception e); cbn [snd sync_except logging_error logging_log level_enabled fs];
      (split; rewrite Hfs; [apply same_files_refl|done]).
  - split; rewrite Hfs; [apply same_files_refl|done].
Qed.

(** C1, refuted as stated: a staged file that shadows a listed entry is
    merged over the downloaded file in the first cycle; the second cycle
    finds a digest mismatch and downloads the entry again, so the file
    written by the first cycle changes content and modification time. *)
Lemma second_cycle_rewrites_shadowed_entry :
  ¬ cycle_idempotent toy_hashlib clash_self 10 clash_world.
Proof.
  intros H.
  specialize (H ["srv"; "out"; "report.txt"] (String.list_byte_of_string "STAGED") 1 true).
  vm_compute in H. specialize (H eq_refl). discriminate.
Qed.

(** ** The listing and the remote tree *)

Lemma pages_det svc f tok es1 es2 :
  pages svc f tok es1 → pages svc f tok es2 → es1 = es2.
Proof.
  intros H1. revert es2. induction H1 as [tok resp Hl Ht|tok resp es Hl Ht Hp IH];
    intros es2 H2;
    inversion H2 as [tok' resp' Hl' Ht'|tok' resp' es' Hl' Ht' Hp']; subst;
    rewrite Hl in Hl'; injection Hl' as <-; try congruence.
  f_equal. by apply IH.
Qed.

Lemma flat_items_app svc es1 rs1 es2 rs2 :
  flat_items svc es1 rs1 → flat_items svc es2 rs2 →
  flat_items svc (es1 ++ es2) (rs1 ++ rs2).
Proof.
  intros H1 H2. induction H1; cbn [app].
  - done.
  - by apply flat_log.
  - rewrite <- app_assoc. by apply flat_sub.
  - by apply flat_leaf.
Qed.

Lemma for_items_sound svc recurse :
  (∀ i w rs w', recurse i w = (Ret rs, w') → flat svc i rs) →
  ∀ items results w rs w',
    for_items recurse items results w = (Ret rs, w') →
    ∃ rs', flat_items svc items rs' ∧ rs = results ++ rs'.
Proof.
  intros Hrec items. induction items as [|it items IH]; intros results w rs w' H.
  - cbn in H. unfold ret in H. simplify_eq. exists []. split; [constructor|by rewrite app_nil_r].
  - cbn [for_items] in H. destruct (is_log_name (item_name it)) eqn:Hlog.
    + apply bind_Ret_inv in H as (? & w1 & _ & H).
      destruct (IH _ _ _ _ H) as (rs' & Hf & ->). exists rs'. split; [by apply flat_log|done].
    + case_bool_decide as Hmime.
      * apply bind_Ret_inv in H as (sub & w1 & Hsub & H).
        destruct (IH _ _ _ _ H) as (rs' & Hf & ->).
        exists (map (prefix_path it) sub ++ rs'). split; [|by rewrite app_assoc].
        apply flat_sub; eauto.
      * destruct (IH _ _ _ _ H) as (rs' & Hf & ->).
        exists (set_path it (item_name it) :: rs'). split; [by apply flat_leaf|].
        by rewrite <- app_assoc.
Qed.

Lemma listing_sound self fuel :
  (∀ f w rs w',
     get_drive_files_from self fuel f w = (Ret rs, w') → flat (service self) f rs) ∧
  (∀ f tok results w rs w',
     while_pages self fuel f tok results w = (Ret rs, w') →
     ∃ es rs', pages (service self) f tok es ∧ flat_items (service self) es rs' ∧
               rs = results ++ rs').
Proof.
  induction fuel as [|fuel [IH1 IH2]].
  { split; intros; discriminate. }
  split.
  - intros f w rs w' H. cbn [get_drive_files_from] in H.
    apply bind_Ret_inv in H as (? & w1 & _ & H).
    destruct (IH2 _ _ _ _ _ _ H) as (es & rs' & Hp & Hf & ->). by econstructor.
  - intros f tok results w rs w' H. cbn [while_pages] in H.
    apply bind_Ret_inv in H as ([results' tok'] & w1 & Hpage & H).
    apply try_except_Ret_inv in Hpage as [Hpage | (e & w2 & _ & _ & Hh)].
    2:{ apply bind_Ret_inv in Hh as (? & ? & _ & Hh). discriminate. }
    apply bind_Ret_inv in Hpage as (resp & w2 & Hcall & Hpage).
    apply bind_Ret_inv in Hpage as (results'' & w3 & Hitems & Hpage).
    unfold files_list_execute in Hcall.
    apply bind_Ret_inv in Hcall as (? & w4 & _ & Hcall).
    destruct (files_list (service self) f tok) as [msg|resp'] eqn:Hl; [discriminate|].
    eapply for_items_sound in Hitems as (rs1 & Hf1 & Hrs1); [|exact IH1].
    unfold ret in Hpage, Hcall. simplify_eq. cbn [fst snd] in H.
    destruct (truthy (nextPageToken resp)) eqn:Ht.
    + destruct (IH2 _ _ _ _ _ _ H) as (es & rs2 & Hp & Hf2 & ->).
      exists (files resp ++ es), (rs1 ++ rs2). split_and!.
      * by eapply pages_next.
      * by apply flat_items_app.
      * by rewrite app_assoc.
    + unfold ret in H. simplify_eq. exists (files resp), rs1. split_and!; [|done..].
      by apply pages_last.
Qed.

Lemma flat_same_contents svc1 svc2 :
  (∀ f es, contents svc1 f es ↔ contents svc2 f es) →
  ∀ f rs, flat svc1 f rs → flat svc2 f rs.
Proof.
  intros Hsame.
  apply (flat_mut svc1 (λ f rs _, flat svc2 f rs) (λ es rs _, flat_items svc2 es rs)).
  - intros f es rs Hc _ IH. econstructor; [by apply Hsame|done].
  - constructor.
  - intros. by apply flat_log.
  - intros. by apply flat_sub.
  - intros. by apply flat_leaf.
Qed.

Lemma contributions_weaken self n0 n1 es outs :
  (n0 ≤ n1)%nat → contributions self n0 es outs → contributions self n1 es outs.
Proof.
  intros Hle H. eapply Forall2_impl; [exact H|]. intros it out Hit n Hn. apply Hit. lia.
Qed.

Lemma for_items_cons recurse it items results w :
  for_items recurse (it :: items) results w
  = (r1 <- for_items recurse [it] results ;; for_items recurse items r1) w.
Proof.
  cbn [for_items]. destruct (is_log_name (item_name it)).
  - unfold bind. by destruct (logging_info _ w) as [[[]|e|] w1].
  - case_bool_decide; [|done].
    unfold bind. by destruct (recurse (item_id it) w) as [[sub|e|] w1].
Qed.

Lemma for_items_contributions self n0 es outs :
  contributions self n0 es outs →
  ∀ n : nat, (n0 ≤ n)%nat → ∀ results w, ∃ w',
    for_items (get_drive_files_from self n) es results w
      = (Ret (results ++ concat outs), w').
Proof.
  induction 1 as [|it out es outs Hit Hes IH]; intros n Hn results w.
  - exists w. cbn. by rewrite app_nil_r.
  - rewrite for_items_cons. unfold bind.
    destruct (Hit n Hn results w) as (w1 & ->).
    destruct (IH n Hn (results ++ out) w1) as (w' & ->).
    exists w'. cbn [concat]. by rewrite app_assoc.
Qed.

Lemma while_pages_complete self f tok es :
  pages (service self) f tok es →
  ∀ n0 outs, contributions self n0 es outs →
  ∃ k : nat, ∀ n : nat, (n0 + k ≤ n)%nat → ∀ results w, ∃ w',
    while_pages self n f tok results w = (Ret (results ++ concat outs), w').
Proof.
  induction 1 as [tok resp Hl Ht|tok resp es Hl Ht Hp IH]; intros n0 outs Hc.
  - exists 1. intros n Hn results w. destruct n as [|n]; [lia|].
    cbn [while_pages]. unfold bind at 1, try_except, bind at 1, files_list_execute.
    unfold bind at 1, request. rewrite Hl. unfold ret at 1. unfold bind at 1.
    destruct (for_items_contributions self n0 _ outs Hc n ltac:(lia) results
                (World (fs w) (clock w) (log w) (calls w ++ [ListCall f tok])))
      as (w1 & ->).
    unfold ret at 1. cbn [fst snd]. rewrite Ht. by eexists.
  - apply Forall2_app_inv_l in Hc as (outs1 & outs2 & Hc1 & Hc2 & ->).
    destruct (IH n0 outs2 Hc2) as (k & Hk).
    exists (S k). intros n Hn results w. destruct n as [|n]; [lia|].
    cbn [while_pages]. unfold bind at 1, try_except, bind at 1, files_list_execute.
    unfold bind at 1, request. rewrite Hl. unfold ret at 1. unfold bind at 1.
    destruct (for_items_contributions self n0 _ outs1 Hc1 n ltac:(lia) results
                (World (fs w) (clock w) (log w) (calls w ++ [ListCall f tok])))
      as (w1 & ->).
    unfold ret at 1. cbn [fst snd]. rewrite Ht.
    destruct (Hk n ltac:(lia) (results ++ concat outs1) w1) as (w' & ->).
    exists w'. by rewrite concat_app, app_assoc.
Qed.

Lemma listing_complete self :
  ∀ f rs, flat (service self) f rs →
    ∃ n0 : nat, ∀ n : nat, (n0 ≤ n)%nat → ∀ w, ∃ w',
      get_drive_files_from self n f w = (Ret rs, w').
Proof.
  apply (flat_mut (service self)
           (λ f rs _, ∃ n0 : nat, ∀ n : nat, (n0 ≤ n)%nat → ∀ w, ∃ w',
                        get_drive_files_from self n f w = (Ret rs, w'))
           (λ es rs _, ∃ n0 outs, rs = concat outs ∧ contributions self n0 es outs)).
  - intros f es rs Hc _ (n0 & outs & -> & Houts).
    destruct (while_pages_complete self f None es Hc n0 outs Houts) as (k & Hk).
    exists (S (n0 + k)). intros n Hn w. destruct n as [|n]; [lia|].
    cbn [get_drive_files_from]. unfold bind. rewrite logging_info_logged.
    apply (Hk n ltac:(lia) []).
  - exists 0, []. split; [done|constructor].
  - intros it es rs Hlog _ (n0 & outs & -> & Houts).
    exists n0, ([] :: outs). split; [done|]. constructor; [|done].
    intros n _ results w. cbn [for_items]. rewrite Hlog.
    unfold bind. rewrite logging_info_logged. eexists. by rewrite app_nil_r.
  - intros it es sub rs Hlog Hmime _ (n1 & Hsub) _ (n0 & outs & -> & Houts).
    exists (n0 `max` n1), (map (prefix_path it) sub :: outs). split; [done|].
    constructor; [|eapply contributions_weaken; [|exact Houts]; lia].
    intros n Hn results w. cbn [for_items]. rewrite Hlog.
    rewrite bool_decide_eq_true_2 by done. unfold bind.
    destruct (Hsub n ltac:(lia) w) as (w' & ->). by eexists.
  - intros it es rs Hlog Hmime _ (n0 & outs & -> & Houts).
    exists n0, ([set_path it (item_name it)] :: outs). split; [done|]. constructor; [|done].
    intros n _ results w. cbn [for_items]. rewrite Hlog.
    rewrite bool_decide_eq_false_2 by done. by eexists.
Qed.

Lemma flat_items_folder_elem svc es rs x :
  flat_items svc es rs → x ∈ es →
  is_log_name (item_name x) = false → item_mimeType x = folder_mime →
  ∃ sub, flat svc (item_id x) sub ∧ ∀ s, s ∈ sub → prefix_path x s ∈ rs.
Proof.
  intros Hf Hx Hlog Hmime.
  induction Hf as [|it es rs Hl Hf IH|it es sub rs Hl Hm Hsub Hf IH|it es rs Hl Hm Hf IH].
  - by apply elem_of_nil in Hx.
  - apply elem_of_cons in Hx as [->|Hx]; [congruence|]. by apply IH.
  - apply elem_of_cons in Hx as [->|Hx].
    + exists sub. split; [done|]. intros s Hs. apply elem_of_app. left.
      by apply list_elem_of_fmap_2.
    + destruct (IH Hx) as (sub' & Hsub' & Hin). exists sub'. split; [done|].
      intros s Hs. apply elem_of_app. right. by apply Hin.
  - apply elem_of_cons in Hx as [->|Hx]; [congruence|].
    destruct (IH Hx) as (sub' & Hsub' & Hin). exists sub'. split; [done|].
    intros s Hs. right. by apply Hin.
Qed.

Lemma flat_items_leaf_elem svc es rs x :
  flat_items svc es rs → x ∈ es →
  is_log_name (item_name x) = false → item_mimeType x ≠ folder_mime →
  set_path x (item_name x) ∈ rs.
Proof.
  intros Hf Hx Hlog Hmime.
  induction Hf as [|it es rs Hl Hf IH|it es sub rs Hl Hm Hsub Hf IH|it es rs Hl Hm Hf IH].
  - by apply elem_of_nil in Hx.
  - apply elem_of_cons in Hx as [->|Hx]; [congruence|]. by apply IH.
  - apply elem_of_cons in Hx as [->|Hx]; [congruence|].
    apply elem_of_app. right. by apply IH.
  - apply elem_of_cons in Hx as [->|Hx]; [by left|]. right. by apply IH.
Qed.

Lemma flat_child_folder svc folder_id rs x :
  flat svc folder_id rs → child svc folder_id x →
  is_log_name (item_name x) = false → item_mimeType x = folder_mime →
  ∃ sub, flat svc (item_id x) sub ∧ ∀ s, s ∈ sub → prefix_path x s ∈ rs.
Proof.
  intros Hf (es & Hc & Hx). destruct Hf as [folder_id es' rs Hc' Hitems].
  rewrite (pages_det _ _ _ _ _ Hc Hc') in Hx. by eapply flat_items_folder_elem.
Qed.

Lemma flat_child_leaf svc folder_id rs x :
  flat svc folder_id rs → child svc folder_id x →
  is_log_name (item_name x) = false → item_mimeType x ≠ folder_mime →
  set_path x (item_name x) ∈ rs.
Proof.
  intros Hf (es & Hc & Hx). destruct Hf as [folder_id es' rs Hc' Hitems].
  rewrite (pages_det _ _ _ _ _ Hc Hc') in Hx. by eapply flat_items_leaf_elem.
Qed.

(** A leaf two folders down is listed under the join of the three names. *)
Lemma nested_leaf_listed svc root rs x y f :
  flat svc root rs →
  child svc root x → is_log_name (item_name x) = false → item_mimeType x = folder_mime →
  child svc (item_id x) y → is_log_name (item_name y) = false → item_mimeType y = folder_mime →
  child svc (item_id y) f → is_log_name (item_name f) = false → item_mimeType f ≠ folder_mime →
  set_path f (os_path_join (item_name x) (os_path_join (item_name y) (item_name f))) ∈ rs.
Proof.
  intros Hroot Hx Hxl Hxm Hy Hyl Hym Hf Hfl Hfm.
  destruct (flat_child_folder _ _ _ _ Hroot Hx Hxl Hxm) as (subx & Hsubx & Hinx).
  destruct (flat_child_folder _ _ _ _ Hsubx Hy Hyl Hym) as (suby & Hsuby & Hiny).
  pose proof (flat_child_leaf _ _ _ _ Hsuby Hf Hfl Hfm) as Hleaf.
  apply Hiny, Hinx in Hleaf. exact Hleaf.
Qed.

Lemma contents_one_page svc f resp es :
  files_list svc f None = inr resp → truthy (nextPageToken resp) = false →
  contents svc f es ↔ es = files resp.
Proof.
  intros Hl Ht. split.
  - intros H. eapply pages_det; [exact H|]. by apply pages_last.
  - intros ->. by apply pages_last.
Qed.

Lemma contents_two_pages svc f resp1 resp2 es :
  files_list svc f None = inr resp1 → truthy (nextPageToken resp1) = true →
  files_list svc f (nextPageToken resp1) = inr resp2 →
  truthy (nextPageToken resp2) = false →
  contents svc f es ↔ es = files resp1 ++ files resp2.
Proof.
  intros Hl1 Ht1 Hl2 Ht2.
  assert (contents svc f (files resp1 ++ files resp2)) as Hc.
  { eapply pages_next; [done..|]. by apply pages_last. }
  split; [intros H; by eapply pages_det|by intros ->].
Qed.

Lemma contents_failing svc f msg es :
  files_list svc f None = inl msg → ¬ contents svc f es.
Proof. intros Hl H. inversion H; congruence. Qed.

Lemma demo_same_contents folder_id es :
  contents demo_drive folder_id es ↔ contents demo_drive_single_page folder_id es.
Proof.
  destruct (decide (folder_id = "root")) as [->|Hroot].
  { etrans; [|symmetry].
    - by apply (contents_two_pages demo_drive "root"
                  (Response [folder "x" "X"; leaf "l" "drive_sync.log.1" None] (Some "t1"))
                  (Response [leaf "b" "bad.bin" (Some "00"); leaf "g" "g.txt" (Some "xyz")] None)).
    - by apply (contents_one_page demo_drive_single_page "root"
                  (Response [folder "x" "X"; leaf "l" "drive_sync.log.1" None;
                             leaf "b" "bad.bin" (Some "00"); leaf "g" "g.txt" (Some "xyz")] None)). }
  destruct (decide (folder_id = "x")) as [->|Hx].
  { etrans; [|symmetry].
    - by apply (contents_one_page demo_drive "x" (Response [folder "y" "Y"] None)).
    - by apply (contents_one_page demo_drive_single_page "x" (Response [folder "y" "Y"] None)). }
  destruct (decide (folder_id = "y")) as [->|Hy].
  { etrans; [|symmetry].
    - by apply (contents_one_page demo_drive "y"
                  (Response [leaf "f" "f" (Some "hello")] (Some ""))).
    - by apply (contents_one_page demo_drive_single_page "y"
                  (Response [leaf "f" "f" (Some "hello")] None)). }
  split; intros H; exfalso; eapply contents_failing; try exact H; cbn;
    by rewrite !bool_decide_eq_false_2.
Qed.

(** * Further properties of the methods *)

(** ** [ensure_dir] *)

(** X1: [ensure_dir] always ends (it returns or raises an [Exception]),
    changes nothing but the file system, and there only adds directories
    on the way to its argument.  When it returns, the path exists.  A
    path that already exists, be it a regular file, is left alone and
    no error is raised. *)
Theorem ensure_dir_only_adds_directories d w :
  let r := ensure_dir d w in
  finished r.1 ∧
  r.2 = set_fs (fs r.2) w ∧
  new_dirs_along d (fs w) (fs r.2) ∧
  (r.1 = Ret tt → path_exists (fs r.2) d = true) ∧
  (path_exists (fs w) d = true → r = (Ret tt, w)).
Proof.
  cbv zeta. destruct (ensure_dir_spec d w) as [[Hex ->]|[Hex ->]].
  - cbn [fst snd]. split_and!; [exact I|by destruct w|apply new_dirs_along_refl|by intros|done].
  - destruct (os_makedirs_spec d false w) as (o & m' & -> & Hnew & Hfin & Hdir).
    cbn [fst snd]. split_and!; [done|reflexivity|done| |intros; congruence].
    intros Ho. specialize (Hdir Ho). unfold is_dir in Hdir. unfold path_exists.
    cbn [fs set_fs]. by destruct (node_at m' d).
Qed.

(** ** [get_drive_files] *)

(** X2: whatever its outcome, the listing leaves the local file system
    and the clock alone and sends listing requests only.  When it raises,
    the exception is the error of the last request it sent, and every
    request before that one was answered. *)
Theorem listing_is_read_only self fuel folder_id w :
  let r := get_drive_files self fuel folder_id w in
  fs r.2 = fs w ∧ clock r.2 = clock w ∧
  ∃ cs, calls r.2 = calls w ++ cs ∧ Forall is_list_call cs ∧
        ∀ e, r.1 = Raise e →
          ∃ cs' f t msg, cs = cs' ++ [ListCall f t] ∧
            Forall (answered (service self)) cs' ∧
            files_list (service self) f t = inl msg ∧ e = Exn HttpError msg.
Proof.
  cbv zeta. destruct (get_drive_files_run self fuel folder_id w) as (Hfs & Hclock & cs & Hcs & Ho).
  split_and!; [done..|]. exists cs. split; [done|].
  assert (∀ l, Forall (answered (service self)) l → Forall is_list_call l) as Hans.
  { intros l Hl. eapply Forall_impl; [exact Hl|]. by intros []. }
  destruct (get_drive_files self fuel folder_id w).1 as [rs|e|].
  - split; [by apply Hans|]. intros; discriminate.
  - destruct Ho as (f & t & msg & cs' & -> & Hcs' & Hl & ->). split.
    + apply Forall_app. split; [by apply Hans|]. by repeat constructor.
    + intros e [= <-]. by exists cs', f, t, msg.
  - split; [by apply Hans|]. intros; discriminate.
Qed.

Lemma pages_served svc f tok es : pages svc f tok es → Forall (served svc) es.
Proof.
  induction 1 as [tok resp Hl _|tok resp es Hl _ _ IH].
  - apply Forall_forall. intros it Hit. by exists f, tok, resp.
  - apply Forall_app. split; [|done]. apply Forall_forall. intros it Hit.
    by exists f, tok, resp.
Qed.

Lemma flat_listed_leaves svc f rs : flat svc f rs → Forall (listed_leaf svc) rs.
Proof.
  intros H.
  induction H using flat_mut with
    (P0 := λ es rs _, Forall (served svc) es → Forall (listed_leaf svc) rs).
  - apply IHflat. by eapply pages_served.
  - constructor.
  - intros [_ Hes]%Forall_cons. by apply IHflat.
  - intros [_ Hes]%Forall_cons. apply Forall_app. split; [|by apply IHflat0].
    apply Forall_map. eapply Forall_impl; [exact IHflat|].
    intros x (it' & p & Hs & Hm & ->). by exists it', (os_path_join (item_name it) p).
  - intros [Hit Hes]%Forall_cons. constructor; [|by apply IHflat].
    by exists it, (item_name it).
Qed.

(** X3: every entry of a listing that [get_drive_files] returns is an
    entry the service presented on some page, never a folder, with its
    ['path'] key set and its other keys (identifier, name, checksum) as
    the service gave them.  The fallback on the name in [sync]'s
    [drive_file.get('path', drive_file['name'])] is therefore never
    taken. *)
Theorem listed_entries_are_served_leaves self fuel folder_id w listing w' :
  get_drive_files self fuel folder_id w = (Ret listing, w') →
  Forall (λ x, listed_leaf (service self) x ∧ item_mimeType x ≠ folder_mime ∧
               ∃ p, item_path x = Some p) listing.
Proof.
  intros H. apply (proj1 (listing_sound self fuel)) in H.
  apply flat_listed_leaves in H. eapply Forall_impl; [exact H|].
  intros x Hx. split; [done|]. destruct Hx as (it & p & _ & Hm & ->). eauto.
Qed.

Lemma listed_entries_are_served_leaves_witness :
  Forall (λ x, listed_leaf demo_drive x ∧ item_mimeType x ≠ folder_mime ∧
               ∃ p, item_path x = Some p) [demo_f; demo_bad; demo_g].
Proof.
  apply (listed_entries_are_served_leaves demo_self 10 None
           (logged INFO "=== Starting sync process ===" demo_world) _ demo_listed).
  vm_compute. reflexivity.
Defined.

(** X4: the listing computes the flattening of the remote tree, read
    without pages ([flat]): a listing it returns is that flattening, and
    when the tree below the folder is finite and every page of it is
    served, every large enough fuel makes it return that flattening. *)
Theorem listing_is_the_flattening self folder_id :
  (∀ fuel w listing w',
     get_drive_files self fuel (Some folder_id) w = (Ret listing, w') →
     flat (service self) folder_id listing) ∧
  (∀ listing, flat (service self) folder_id listing →
     ∃ n0 : nat, ∀ fuel : nat, (n0 ≤ fuel)%nat → ∀ w, ∃ w',
       get_drive_files self fuel (Some folder_id) w = (Ret listing, w')).
Proof.
  split.
  - intros fuel w listing w'. apply (proj1 (listing_sound self fuel)).
  - intros listing Hflat. destruct (listing_complete self _ _ Hflat) as [n0 Hn0].
    exists n0. intros fuel Hfuel w. by apply Hn0.
Qed.

(** ** [download_file] *)

(** X5: [download_file] never raises: it returns a boolean, and the
    boolean tells whether the file was written.  [True] means the whole
    content of the download now stands at the path, stamped with the
    time of the write; [False] means no file was written or changed
    (at most directories were created on the way to the path) and the
    error is in the log.  It sends download requests for that file only,
    and adds exactly two records to the log, the progress records being
    below the logger's level. *)
Theorem download_file_reports_the_write self file_id file_path w :
  ∃ b w' cs m1,
    download_file self file_id file_path w = (Ret b, w') ∧
    calls w' = calls w ++ cs ∧ Forall (λ c, c = NextChunkCall file_id) cs ∧
    new_dirs_along (dirname file_path) (fs w) m1 ∧
    if b then
      ∃ content r,
        media_content (get_media (service self) file_id) = inr content ∧
        fs w' = <[file_path := File content (clock w) r]> m1 ∧ file_path ≠ [] ∧
        clock w' = S (clock w) ∧
        log w' = log w ++ [(INFO, "Downloading file from Drive to " +:+ path_str file_path);
                           (INFO, "Finished downloading file: " +:+ path_str file_path)]
    else
      ∃ msg,
        fs w' = m1 ∧ clock w' = clock w ∧
        log w' = log w ++ [(INFO, "Downloading file from Drive to " +:+ path_str file_path);
                           (ERROR, "Error downloading file " +:+ path_str file_path
                                   +:+ ": " +:+ msg)].
Proof.
  destruct (download_file_spec self file_id file_path w) as (cs & Hcs & H). cbv zeta in H.
  destruct (media_content (get_media (service self) file_id)) as [msg|content] eqn:Hm.
  - exists false. eexists. exists cs, (fs w). split; [exact H|]. cbn [calls fs clock log].
    split_and!; [done|done|apply new_dirs_along_refl|]. exists msg.
    by rewrite <- app_assoc.
  - destruct H as (m1 & Hm1 & [[msg H]|(r & H & Hd & Hp)]).
    + exists false. eexists. exists cs, m1. split; [exact H|]. cbn [calls fs clock log].
      split_and!; [done..|]. exists msg. by rewrite <- app_assoc.
    + exists true. eexists. exists cs, m1. split; [exact H|]. cbn [calls fs clock log].
      split_and!; [done..|]. exists content, r. by rewrite <- app_assoc.
Qed.

Lemma download_file_Ret_true self file_id file_path w w' :
  download_file self file_id file_path w = (Ret true, w') →
  ∃ content,
    media_content (get_media (service self) file_id) = inr content ∧
    node_at (fs w') file_path =
      Some (File content (clock w)
              match node_at (fs w) file_path with
              | Some (File _ _ r) => r
              | _ => true
              end).
Proof.
  intros H. unfold download_file in H.
  apply bind_Ret_inv in H as ([] & w0 & Hlog & H).
  unfold logging_info, logging_log in Hlog. cbn [level_enabled] in Hlog. simplify_eq.
  apply try_except_Ret_inv in H as [H|(e & w1 & _ & _ & H)].
  2:{ apply bind_Ret_inv in H as (? & ? & _ & H). discriminate. }
  apply bind_Ret_inv in H as (file_handle & w1 & Hloop & H).
  apply bind_Ret_inv in H as ([] & w2 & Hmk & H).
  apply bind_Ret_inv in H as ([] & w3 & Hwrite & H).
  apply bind_Ret_inv in H as ([] & w4 & Hlog & H).
  unfold logging_info, logging_log in Hlog. cbn [level_enabled] in Hlog.
  unfold ret in H. simplify_eq. cbn [fs].
  match type of Hloop with next_chunk_loop _ _ _ ?w0 = _ =>
    destruct (next_chunk_loop_spec file_id (get_media (service self) file_id) [] w0)
      as (cs & _ & Hloop')
  end.
  rewrite Hloop' in Hloop. cbn [fs clock log calls] in Hloop.
  destruct (media_content (get_media (service self) file_id)) as [msg|content];
    [discriminate|].
  exists content. split; [done|]. simplify_eq. cbn [app] in *.
  match type of Hmk with os_makedirs _ _ ?w1 = _ =>
    destruct (os_makedirs_spec (dirname file_path) true w1) as (o & m1 & Hmk' & Hm1 & _)
  end.
  rewrite Hmk' in Hmk. cbn [fs] in Hm1. simplify_eq.
  unfold open_wb_write in Hwrite. cbn [fs set_fs clock log calls] in Hwrite.
  assert (file_path ≠ []) as Hp.
  { intros ->. cbn in Hwrite. discriminate. }
  assert (∀ m, node_at m file_path = m !! file_path) as Hnode.
  { intros m. by destruct file_path. }
  rewrite !Hnode in *.
  destruct (Hm1 file_path) as [E|(E1 & E2 & _)].
  2:{ rewrite E2 in Hwrite. discriminate. }
  rewrite E in Hwrite. destruct (fs w !! file_path) as [[data mt r|]|].
  - simplify_eq. cbn [fs]. by rewrite lookup_insert_eq.
  - discriminate.
  - destruct (node_at m1 (dirname file_path)) as [[]|]; [discriminate| |discriminate].
    simplify_eq. cbn [fs]. by rewrite lookup_insert_eq.
Qed.

(** X6: a fetch followed by the hash of the fetched file gives the
    digest of the downloaded content: when [download_file] returns
    [True] and the path did not hold a file without read permission,
    [md5] of that path returns the digest of the content the service
    delivered (a file that exists keeps its permission when it is
    written over, so a file that could not be read before still cannot
    be hashed). *)
Theorem fetched_file_hashes_to_its_content hashlib self file_id file_path w w' :
  download_file self file_id file_path w = (Ret true, w') →
  (∀ data mt, node_at (fs w) file_path ≠ Some (File data mt false)) →
  ∃ content,
    media_content (get_media (service self) file_id) = inr content ∧
    md5 hashlib file_path w' = (Ret (Some (file_md5 hashlib content)), w').
Proof.
  intros H Hperm. apply download_file_Ret_true in H as (content & Hm & Hn).
  exists content. split; [done|].
  pose proof (md5_spec hashlib file_path w') as Hmd5. rewrite Hn in Hmd5.
  destruct (node_at (fs w) file_path) as [[data mt []|]|] eqn:Hold; try done.
  by destruct (Hperm data mt).
Qed.

Lemma fetched_file_hashes_to_its_content_witness :
  ∃ content,
    media_content (get_media demo_drive "f") = inr content ∧
    md5 toy_hashlib ["srv"; "out"; "X"; "Y"; "f"]
      (download_file demo_self "f" ["srv"; "out"; "X"; "Y"; "f"] demo_world).2
    = (Ret (Some (file_md5 toy_hashlib content)),
       (download_file demo_self "f" ["srv"; "out"; "X"; "Y"; "f"] demo_world).2).
Proof.
  apply (fetched_file_hashes_to_its_content toy_hashlib demo_self "f"
           ["srv"; "out"; "X"; "Y"; "f"] demo_world).
  - vm_compute. reflexivity.
  - intros data mt. vm_compute. discriminate.
Defined.

(** ** [md5] *)

Lemma read_blocks_concat fuel data :
  (length data ≤ fuel)%nat → concat (read_blocks fuel data) = data.
Proof.
  revert data. induction fuel as [|fuel IH]; intros data Hlen.
  { destruct data; [done|]. cbn in Hlen. lia. }
  cbn [read_blocks]. destruct data as [|b data]; [done|].
  cbn [concat]. rewrite IH; [apply take_drop|].
  rewrite length_drop. cbn [length] in *. lia.
Qed.

Lemma fold_left_md5_update hashlib blocks s :
  streaming hashlib →
  fold_left (md5_update hashlib) blocks s = md5_update hashlib s (concat blocks).
Proof.
  intros [Hnil Happ]. revert s. induction blocks as [|b blocks IH]; intros s.
  - cbn. by rewrite Hnil.
  - cbn [fold_left concat]. by rewrite IH, Happ.
Qed.

(** X7: reading the file in blocks of 4096 bytes loses and repeats
    nothing: for a hash object that streams as [hashlib] documents,
    [md5] of a readable file returns the digest of the file's whole
    content, and leaves the world as it was. *)
Theorem md5_is_the_digest_of_the_content hashlib p data mt w :
  streaming hashlib →
  node_at (fs w) p = Some (File data mt true) →
  md5 hashlib p w =
    (Ret (Some (md5_hexdigest hashlib (md5_update hashlib (md5_new hashlib) data))), w).
Proof.
  intros Hstream Hn. pose proof (md5_spec hashlib p w) as H. rewrite Hn in H.
  rewrite H. unfold file_md5.
  by rewrite fold_left_md5_update, read_blocks_concat.
Qed.

Lemma md5_is_the_digest_of_the_content_witness :
  md5 toy_hashlib ["srv"; "inbox"; "a"; "b.txt"] demo_world =
    (Ret (Some (md5_hexdigest toy_hashlib
                  (md5_update toy_hashlib (md5_new toy_hashlib)
                     (String.list_byte_of_string "C")))), demo_world).
Proof.
  apply (md5_is_the_digest_of_the_content toy_hashlib ["srv"; "inbox"; "a"; "b.txt"]
           (String.list_byte_of_string "C") 0 demo_world).
  - split; [intros s; apply app_nil_r|intros s a b; symmetry; apply app_assoc].
  - reflexivity.
Defined.

(** X8: [md5] never raises and never writes.  It returns [None]
    exactly when the path is not a regular file that can be read (it is
    missing, a directory, or unreadable), and then it has logged one
    error; otherwise it returns the digest and leaves even the log
    alone. *)
Theorem md5_returns_none_on_any_error hashlib p w :
  ∃ o w',
    md5 hashlib p w = (Ret o, w') ∧
    fs w' = fs w ∧ clock w' = clock w ∧ calls w' = calls w ∧
    match o with
    | Some h =>
        w' = w ∧ ∃ data mt, node_at (fs w) p = Some (File data mt true) ∧
                            h = file_md5 hashlib data
    | None =>
        (∀ data mt, node_at (fs w) p ≠ Some (File data mt true)) ∧
        ∃ msg, log w' = log w ++ [(ERROR, "Error computing MD5 for " +:+ path_str p
                                          +:+ ": " +:+ msg)]
    end.
Proof.
  pose proof (md5_spec hashlib p w) as H.
  destruct (node_at (fs w) p) as [[data mt []|]|] eqn:Hn.
  - exists (Some (file_md5 hashlib data)), w.
    split; [done|]. do 3 (split; [done|]). split; [done|]. by exists data, mt.
  - destruct H as [msg H]. exists None. eexists. split; [exact H|].
    do 3 (split; [done|]). split; [congruence|]. by exists msg.
  - destruct H as [msg H]. exists None. eexists. split; [exact H|].
    do 3 (split; [done|]). split; [congruence|]. by exists msg.
  - destruct H as [msg H]. exists None. eexists. split; [exact H|].
    do 3 (split; [done|]). split; [congruence|]. by exists msg.
Qed.

(** ** The reconcile step of [sync] *)

Lemma plain_path_relative rel : plain_path rel = true → startswith rel "/" = false.
Proof.
  destruct rel as [|c s]; [done|]. unfold plain_path, startswith.
  cbn [split_path String.prefix]. destruct (ascii_dec "/" c) as [E|E]; [|done].
  subst c. rewrite bool_decide_eq_true_2 by done. cbn [forallb].
  rewrite bool_decide_eq_true_2 by (by left). done.
Qed.

Lemma fold_left_norm_step_plain comps base :
  forallb (λ c, negb (bool_decide (c = "" ∨ c = "." ∨ c = ".."))) comps = true →
  fold_left norm_step comps base = base ++ comps.
Proof.
  revert base. induction comps as [|c comps IH]; intros base H.
  { by rewrite app_nil_r. }
  cbn [forallb] in H. apply andb_prop in H as [Hc H].
  apply negb_true_iff, bool_decide_eq_false in Hc.
  cbn [fold_left]. unfold norm_step at 2.
  rewrite bool_decide_eq_false_2 by (intros [?|?]; apply Hc; auto).
  rewrite bool_decide_eq_false_2 by (intros ?; apply Hc; auto).
  rewrite IH by done. by rewrite <- app_assoc.
Qed.

(** For a plain relative path the local path of an entry is the output
    root followed by the components of the path. *)
Lemma local_path_plain self e :
  plain_path (relative_path e) = true →
  local_path self e = output_folder self ++ split_path (relative_path e) "".
Proof.
  intros H. unfold local_path, os_path_join_fs. fold (relative_path e).
  rewrite (plain_path_relative _ H). by apply fold_left_norm_step_plain.
Qed.

(** X9: an entry with a plain relative path (no empty, ['.'] or ['..']
    component) whose local file, the output root followed by the
    components of that path, is readable and hashes to the entry's
    remote checksum is skipped: the step sends no request, writes
    nothing, lets the clock alone, and adds the one record that says
    so. *)
Theorem matching_file_is_not_fetched hashlib self e w data mt :
  plain_path (relative_path e) = true →
  node_at (fs w) (output_folder self ++ split_path (relative_path e) "")
    = Some (File data mt true) →
  item_md5Checksum e = Some (file_md5 hashlib data) →
  sync_entry hashlib self e w =
    (Ret tt,
     World (fs w) (clock w)
       (log w ++ [(INFO, "Skipping "
                         +:+ path_str (output_folder self ++ split_path (relative_path e) "")
                         +:+ ", already up-to-date.")])
       (calls w)).
Proof.
  intros Hplain Hnode Hsum. rewrite <- (local_path_plain self e Hplain) in *.
  rewrite sync_entry_in_sync; [done|]. by exists data, mt.
Qed.

Lemma matching_file_is_not_fetched_witness :
  let w := World (<[ ["srv"; "out"; "g.txt"] :=
                       File (String.list_byte_of_string "xyz") 3 true ]> demo_fs) 5 [] [] in
  sync_entry toy_hashlib demo_self demo_g w =
    (Ret tt,
     World (fs w) (clock w)
       (log w ++ [(INFO, "Skipping "
                         +:+ path_str (output_folder demo_self
                                       ++ split_path (relative_path demo_g) "")
                         +:+ ", already up-to-date.")])
       (calls w)).
Proof.
  intros w.
  apply (matching_file_is_not_fetched toy_hashlib demo_self demo_g w
           (String.list_byte_of_string "xyz") 3); reflexivity.
Defined.

(** X10: an entry with a plain relative path is fetched in each of
    these cases: nothing exists at its local path (the output root
    followed by the components of the relative path); the local file
    is readable and its digest is not the entry's remote checksum (an
    entry without checksum included); the local path exists but cannot
    be hashed and the entry carries a checksum.  The step is then
    [download_file] on the entry's identifier and that path, run with
    the file system, the clock and the trace of requests as they
    were. *)
Theorem changed_or_missing_file_is_fetched hashlib self e w :
  plain_path (relative_path e) = true →
  let p := output_folder self ++ split_path (relative_path e) "" in
  path_exists (fs w) p = false ∨
  (∃ data mt, node_at (fs w) p = Some (File data mt true) ∧
              item_md5Checksum e ≠ Some (file_md5 hashlib data)) ∨
  (path_exists (fs w) p = true ∧
   (∀ data mt, node_at (fs w) p ≠ Some (File data mt true)) ∧
   item_md5Checksum e ≠ None) →
  ∃ w0,
    fs w0 = fs w ∧ clock w0 = clock w ∧ calls w0 = calls w ∧
    sync_entry hashlib self e w =
      (_ <- download_file self (item_id e) p ;; ret tt) w0.
Proof.
  intros Hplain p Hcase. subst p. rewrite <- (local_path_plain self e Hplain) in *.
  pose proof (md5_spec hashlib (local_path self e) w) as Hmd5.
  destruct Hcase as [Hex|[(data & mt & Hn & Hsum)|(Hex & Hn & Hsum)]].
  - exists w. split_and!; [done..|].
    unfold sync_entry. fold (local_path self e).
    unfold bind at 1. unfold os_path_exists at 1. rewrite Hex. reflexivity.
  - exists w. split_and!; [done..|]. rewrite Hn in Hmd5.
    unfold sync_entry. fold (local_path self e).
    unfold bind at 1. unfold os_path_exists at 1. unfold path_exists. rewrite Hn.
    unfold bind at 1. unfold bind at 1. rewrite Hmd5.
    rewrite bool_decide_eq_false_2 by congruence. reflexivity.
  - assert (∃ msg, md5 hashlib (local_path self e) w =
              (Ret None, logged ERROR ("Error computing MD5 for "
                                       +:+ path_str (local_path self e)
                                       +:+ ": " +:+ msg) w)) as [msg Hm].
    { destruct (node_at (fs w) (local_path self e)) as [[data mt []|]|]; try done.
      by destruct (Hn data mt). }
    eexists. split_and!; [| | |].
    4:{ unfold sync_entry. fold (local_path self e).
        unfold bind at 1. unfold os_path_exists at 1. rewrite Hex.
        unfold bind at 1. unfold bind at 1. rewrite Hm.
        rewrite bool_decide_eq_false_2 by congruence. reflexivity. }
    all: reflexivity.
Qed.

Lemma changed_or_missing_file_is_fetched_witness :
  ∃ w0,
    fs w0 = fs demo_world ∧ clock w0 = clock demo_world ∧ calls w0 = calls demo_world ∧
    sync_entry toy_hashlib demo_self demo_g demo_world =
      (_ <- download_file demo_self (item_id demo_g)
              (output_folder demo_self ++ split_path (relative_path demo_g) "") ;;
       ret tt) w0.
Proof.
  apply (changed_or_missing_file_is_fetched toy_hashlib demo_self demo_g demo_world).
  - reflexivity.
  - left. reflexivity.
Defined.

(** ** [move_files] *)

Lemma move_file_Ret root target file w w' :
  move_file root target file w = (Ret tt, w') →
  ∃ data mt,
    fs w !! (root ++ [file]) = Some (File data mt true) ∧
    root ++ [file] ≠ target ++ [file] ∧
    fs w' = <[target ++ [file] := File data mt true]> (fs w).
Proof.
  intros H. unfold move_file in H.
  apply bind_Ret_inv in H as (ex & w0 & Hex & H).
  unfold os_path_exists in Hex. simplify_eq.
  apply bind_Ret_inv in H as ([] & w1 & Hrm & H).
  apply bind_Ret_inv in H as ([] & w2 & Hcp & H).
  unfold logging_info, logging_log in H. cbn [level_enabled] in H. simplify_eq. cbn [fs].
  assert (is_dir (fs w1) (target ++ [file]) = false ∧
          ∀ v, <[target ++ [file] := v]> (fs w1) = <[target ++ [file] := v]> (fs w0) ∧
          ∀ k, k ≠ target ++ [file] → fs w1 !! k = fs w0 !! k) as (Hnd & Hw1).
  { destruct (path_exists (fs w0) (target ++ [file])) eqn:Hex.
    - apply bind_Ret_inv in Hrm as ([] & w0' & Hlog & Hrm).
      unfold logging_info, logging_log in Hlog. cbn [level_enabled] in Hlog. simplify_eq.
      destruct (os_remove_spec (target ++ [file])
                  (World (fs w0) (clock w0)
                     (log w0 ++ [(INFO, "Overwriting existing file in output: "
                                        +:+ path_str (target ++ [file]))]) (calls w0)))
        as [(e & He & _)|(He & _)]; rewrite He in Hrm; [discriminate|].
      simplify_eq. cbn [fs set_fs]. split.
      + unfold is_dir. rewrite node_at_app_singleton. by rewrite lookup_delete_eq.
      + intros v. split; [apply insert_delete_eq|].
        intros k Hk. by rewrite lookup_delete_ne.
    - unfold ret in Hrm. simplify_eq. split; [|done].
      unfold is_dir. unfold path_exists in Hex. by destruct (node_at _ _). }
  destruct (shutil_copy2_spec (root ++ [file]) (target ++ [file]) w1)
    as [(e & He & _)|(data & mt & dst' & He & Hsrc & Hdst & _)];
    rewrite He in Hcp; [discriminate|].
  rewrite Hnd in Hdst. subst dst'. simplify_eq. cbn [fs].
  rewrite node_at_app_singleton in Hsrc.
  assert (root ++ [file] ≠ target ++ [file]) as Hne.
  { intros E. unfold shutil_copy2 in He. rewrite Hnd in He.
    rewrite bool_decide_eq_true_2 in He by done.
    unfold path_exists in He. rewrite node_at_app_singleton, Hsrc in He.
    cbn in He. discriminate. }
  destruct (Hw1 (File data mt true)) as [Hins Hother].
  exists data, mt. split_and!; [|done|done].
  rewrite <- Hsrc. symmetry. by apply Hother.
Qed.

Lemma staging_agrees intake output m m' k :
  disjoint_trees intake output → changes_along output m m' →
  intake `prefix_of` k → m' !! k = m !! k.
Proof.
  intros Hdis Hch Hk. apply Hch. by apply (disjoint_trees_not_comparable intake).
Qed.

Lemma move_dir_changes_along m0 intake output top dirs files :
  preserves (λ w, changes_along output m0 (fs w)) (move_dir intake output top dirs files).
Proof.
  unfold move_dir. apply preserves_bind.
  { intros w Hw. eapply changes_along_trans; [exact Hw|]. apply ensure_dir_changes_along. }
  intros _. apply preserves_for_each. intros file _. apply move_file_changes_along.
Qed.

Lemma copy_loop_spec m0 intake output r :
  disjoint_trees intake output →
  ∀ files w w',
    changes_along output m0 (fs w) →
    for_each files (move_file (intake ++ r) (output ++ r)) w = (Ret tt, w') →
    (∀ d x, copied m0 intake output d x (fs w) → copied m0 intake output d x (fs w')) ∧
    (∀ y, y ∈ files → copied m0 intake output r y (fs w')).
Proof.
  intros Hdis files. induction files as [|y files IH]; intros w w' Hch H.
  { cbn in H. unfold ret in H. simplify_eq. split; [done|].
    intros y Hy. by apply elem_of_nil in Hy. }
  cbn [for_each] in H. apply bind_Ret_inv in H as ([] & w1 & Hstep & H).
  pose proof (move_file_changes_along m0 output r (intake ++ r) y w Hch) as Hch1.
  rewrite Hstep in Hch1. cbn [snd] in Hch1.
  apply move_file_Ret in Hstep as (data & mt & Hsrc & _ & Hfs).
  destruct (IH _ _ Hch1 H) as [Hkeep Hrest].
  assert (∀ d x, copied m0 intake output d x (fs w) ∨ (d = r ∧ x = y) →
                 copied m0 intake output d x (fs w1)) as Hstep.
  { intros d x Hc data' mt' r' Hm0. rewrite Hfs.
    destruct (decide (d = r ∧ x = y)) as [[-> ->]|Hne].
    - rewrite <- !app_assoc, lookup_insert_eq.
      rewrite <- (staging_agrees intake output m0 (fs w)) in Hm0;
        [|done..|by apply prefix_app_r].
      rewrite <- app_assoc in Hsrc. congruence.
    - destruct Hc as [Hc|Hc]; [|done]. rewrite lookup_insert_ne; [by eapply Hc|].
      rewrite <- !app_assoc. intros E. apply app_inv_head in E.
      apply Hne. apply app_inj_tail in E as [E1 E2]. done. }
  split.
  - intros d x Hc. apply Hkeep, Hstep. by left.
  - intros x [->|Hx]%elem_of_cons; [|by apply Hrest].
    apply Hkeep, Hstep. by right.
Qed.

Lemma new_dirs_along_copied p m0 intake output d x m m' :
  new_dirs_along p m m' → copied m0 intake output d x m → copied m0 intake output d x m'.
Proof.
  intros Hnew Hc data mt r Hm0. specialize (Hc data mt r Hm0).
  destruct (Hnew (output ++ d ++ [x])) as [E|(E & _)]; congruence.
Qed.

Lemma is_dir_agrees m m' k : m' !! k = m !! k → is_dir m' k = is_dir m k.
Proof. intros E. unfold is_dir. destruct k; [done|]. cbn [node_at]. by rewrite E. Qed.

Lemma merge_copies_staged_files fuel intake output w w' d x :
  disjoint_trees intake output →
  move_files fuel intake output w = (Ret tt, w') →
  dir_under (fs w) intake d →
  copied (fs w) intake output d x (fs w').
Proof.
  intros Hdis Hrun Hdir.
  pose (J := λ (stack : list pathname) (w1 : world),
    changes_along output (fs w) (fs w1) ∧
    Forall (λ top, intake `prefix_of` top) stack ∧
    ∀ d x, dir_under (fs w) intake d →
      (∃ data mt r, fs w !! (intake ++ d ++ [x]) = Some (File data mt r)) →
      copied (fs w) intake output d x (fs w1) ∨
      ∃ r, intake ++ r ∈ stack ∧ r `prefix_of` d).
  assert (J [] w') as (_ & _ & Hdone).
  { unfold move_files in Hrun.
    eapply (os_walk_Ret_inv J (move_dir intake output)); [| |shelve|exact Hrun].
    - intros top stack w1 (Hch & Hst & Hp) Htop.
      apply Forall_cons in Hst as [_ Hst]. split_and!; [done..|].
      intros d' x' Hd' Hf'. destruct (Hp d' x' Hd' Hf') as [?|(r & Hin & Hpre)]; [by left|right].
      apply elem_of_cons in Hin as [<-|Hin]; [|eauto].
      assert (is_dir (fs w1) (intake ++ r) = true); [|congruence].
      rewrite (is_dir_agrees (fs w)).
      + by eapply dir_under_prefix.
      + eapply staging_agrees; [done..|]. by apply prefix_app_r.
    - intros top stack w1 dirs files w2 (Hch & Hst & Hp) Hscan Hbody.
      apply Forall_cons in Hst as [[r ->] Hst].
      apply os_scandir_inv in Hscan as (Htop & Hdirs & Hfiles).
      pose proof (move_dir_changes_along (fs w) intake output (intake ++ r) dirs files w1 Hch)
        as Hch2.
      rewrite Hbody in Hch2. cbn [snd] in Hch2.
      unfold move_dir in Hbody. rewrite relpath_app in Hbody.
      apply bind_Ret_inv in Hbody as ([] & w1' & Hens & Hloop).
      assert (new_dirs_along (output ++ r) (fs w1) (fs w1')) as Hnew.
      { destruct (ensure_dir_spec (output ++ r) w1) as [[_ E]|[_ E]]; rewrite E in Hens.
        - simplify_eq. apply new_dirs_along_refl.
        - destruct (os_makedirs_spec (output ++ r) false w1) as (o & m' & E' & Hm & _).
          rewrite E' in Hens. by simplify_eq. }
      assert (changes_along output (fs w) (fs w1')) as Hch1.
      { eapply changes_along_trans; [exact Hch|]. by eapply new_dirs_along_changes. }
      destruct (copy_loop_spec (fs w) intake output r Hdis files w1' w2 Hch1 Hloop)
        as [Hkeep Hnow].
      split_and!; [done| |].
      { apply Forall_app. split; [|done]. apply Forall_forall. intros p Hp'.
        apply list_elem_of_fmap in Hp' as (y & -> & _).
        rewrite <- app_assoc. by apply prefix_app_r. }
      intros d' x' Hd' Hf'. destruct (Hp d' x' Hd' Hf') as [Hc|(r' & Hin & Hpre)].
      { left. apply Hkeep. by eapply new_dirs_along_copied. }
      apply elem_of_cons in Hin as [Heq|Hin].
      2:{ right. exists r'. split; [|done]. apply elem_of_app. by right. }
      apply app_inv_head in Heq as ->. destruct Hpre as [rest ->].
      destruct rest as [|y rest].
      + left. rewrite app_nil_r in *. apply Hnow. apply Hfiles.
        destruct Hf' as (data & mt & r0 & Hf'). exists data, mt, r0.
        rewrite <- Hf', <- app_assoc. eapply staging_agrees; [done..|].
        by apply prefix_app_r.
      + right. exists (r ++ [y]). split.
        * apply elem_of_app. left. apply list_elem_of_fmap. exists y.
          split; [by rewrite app_assoc|].
          apply Hdirs, is_dir_lookup. rewrite <- app_assoc.
          rewrite (is_dir_agrees (fs w)).
          -- eapply dir_under_prefix; [done|]. exists rest. by rewrite <- app_assoc.
          -- eapply staging_agrees; [done..|]. by apply prefix_app_r.
        * exists rest. by rewrite <- app_assoc. }
  Unshelve.
  2:{ split_and!.
      - apply changes_along_refl.
      - by repeat constructor.
      - intros d' x' Hd' Hf'. right. exists []. split; [|apply prefix_nil].
        rewrite app_nil_r. by left. }
  intros data mt r Hm0.
  destruct (Hdone d x Hdir) as [Hc|(r' & Hin & _)]; [by eauto|by eapply Hc|].
  by apply elem_of_nil in Hin.
Qed.

(** X11: when staging and output are disjoint trees and the merge pass
    returns, every regular file that stood in a directory of the staging
    tree when the pass began stands at the same relative path under
    the output root, with the staged content and the staged
    modification time ([copy2] carries it), whatever stood there
    before. *)
Theorem merge_overwrites_with_staged_files fuel intake output w w' d x data mt r :
  disjoint_trees intake output →
  move_files fuel intake output w = (Ret tt, w') →
  dir_under (fs w) intake d →
  fs w !! (intake ++ d ++ [x]) = Some (File data mt r) →
  fs w' !! (output ++ d ++ [x]) = Some (File data mt true).
Proof.
  intros Hdis Hrun Hdir Hfile.
  by apply (merge_copies_staged_files fuel intake output w w' d x Hdis Hrun Hdir data mt r).
Qed.

Lemma merge_overwrites_with_staged_files_witness :
  fs (move_files 10 ["srv"; "inbox"] ["srv"; "out"]
        (World (<[ ["srv"; "out"; "a"] := Dir ]>
                 (<[ ["srv"; "out"; "a"; "b.txt"] :=
                       File (String.list_byte_of_string "old") 4 true ]> demo_fs)) 5 [] [])).2
    !! (["srv"; "out"] ++ ["a"] ++ ["b.txt"])
  = Some (File (String.list_byte_of_string "C") 0 true).
Proof.
  apply (merge_overwrites_with_staged_files 10 ["srv"; "inbox"] ["srv"; "out"]
           (World (<[ ["srv"; "out"; "a"] := Dir ]>
                    (<[ ["srv"; "out"; "a"; "b.txt"] :=
                          File (String.list_byte_of_string "old") 4 true ]> demo_fs)) 5 [] [])
           _ ["a"] "b.txt" (String.list_byte_of_string "C") 0 true).
  - intros [[k H]|[k H]]; discriminate.
  - vm_compute. reflexivity.
  - intros [|[|n]] _; reflexivity.
  - reflexivity.
Defined.

(** X12: whatever its outcome, the merge pass changes the file system
    only at paths on the branch of the output root (the root, what is
    above it and what is below it), and it never removes a directory nor
    turns one into a file.  With disjoint trees the staging tree is thus
    left exactly as it was: the merge copies, it does not move. *)
Theorem merge_writes_only_under_output fuel intake output w :
  let w' := (move_files fuel intake output w).2 in
  (∀ k, ¬ comparable output k → fs w' !! k = fs w !! k) ∧
  (∀ p, is_dir (fs w) p = true → is_dir (fs w') p = true) ∧
  (disjoint_trees intake output → ∀ k, intake `prefix_of` k → fs w' !! k = fs w !! k).
Proof.
  cbv zeta.
  pose proof (move_files_changes_along fuel intake output w) as Hch.
  split_and!.
  - exact Hch.
  - apply move_files_dirs_kept.
  - intros Hdis k Hk. by eapply staging_agrees.
Qed.

(** ** [upload_log_file] *)

Lemma upload_log_file_returns self p folder_id w :
  ∃ b w', upload_log_file self p folder_id w = (Ret b, w').
Proof.
  unfold upload_log_file, bind, os_path_exists, try_except, open_rb_read, request.
  destruct (path_exists (fs w) p); [|by do 2 eexists]. cbn [negb].
  destruct (node_at (fs w) p) as [[data mt []|]|]; cbn; try by do 2 eexists.
  destruct (files_create (service self) (basename p) folder_id); cbn; by do 2 eexists.
Qed.

(** X13: [upload_log_file] never raises and changes neither the file
    system nor the clock.  It adds exactly one record to the log and
    returns [True] exactly when that record is the [INFO] record of a
    successful upload; then it has sent one create request, named after
    the file, to the given folder, and the service accepted it.  When
    the file cannot be read no request is sent; when nothing exists at
    the path the record is the warning. *)
Theorem upload_log_file_reports_the_upload self p folder_id w :
  ∃ b w' record,
    upload_log_file self p folder_id w = (Ret b, w') ∧
    fs w' = fs w ∧ clock w' = clock w ∧
    log w' = log w ++ [record] ∧
    (b = true ↔ record.1 = INFO) ∧
    (b = true →
       calls w' = calls w ++ [CreateCall (basename p) folder_id] ∧
       ∃ created, files_create (service self) (basename p) folder_id = inr created) ∧
    ((∀ data mt, node_at (fs w) p ≠ Some (File data mt true)) → calls w' = calls w) ∧
    (path_exists (fs w) p = false →
       record = (WARNING, "Log file does not exist locally: " +:+ path_str p)).
Proof.
  unfold upload_log_file, bind, os_path_exists, try_except, open_rb_read, request.
  destruct (path_exists (fs w) p) eqn:Hex; cbn [negb].
  2:{ exists false. do 2 eexists. split; [reflexivity|]. cbn. split_and!; done. }
  destruct (node_at (fs w) p) as [[data mt []|]|] eqn:Hn; cbn.
  - destruct (files_create (service self) (basename p) folder_id) as [msg|created] eqn:Hc.
    + exists false. do 2 eexists. split; [reflexivity|]. cbn.
      split_and!; try done. intros H. by destruct (H data mt).
    + exists true. do 2 eexists. split; [reflexivity|]. cbn.
      split_and!; try done; [by eauto|]. intros H. by destruct (H data mt).
  - exists false. do 2 eexists. split; [reflexivity|]. cbn. split_and!; done.
  - exists false. do 2 eexists. split; [reflexivity|]. cbn. split_and!; done.
  - exists false. do 2 eexists. split; [reflexivity|]. cbn. split_and!; done.
Qed.

(** ** [sync] as a whole *)

Lemma no_interrupt_get_drive_files self fuel folder_id :
  no_interrupt (get_drive_files self fuel folder_id).
Proof.
  intros w e w' H.
  pose proof (get_drive_files_run self fuel folder_id w) as (_ & _ & cs & _ & Ho).
  rewrite H in Ho. cbn [fst] in Ho. by destruct Ho as (f & t & msg & cs' & _ & _ & _ & ->).
Qed.

Lemma no_interrupt_purge self fuel : no_interrupt (purge self fuel).
Proof.
  unfold purge. apply no_interrupt_os_walk. intros top dirs files w e w' H.
  destruct (purge_dir_spec top dirs files w) as (w2 & E & _). congruence.
Qed.

Lemma no_interrupt_sync_tail self fuel : no_interrupt (sync_tail self fuel).
Proof.
  unfold sync_tail.
  apply no_interrupt_bind; [apply no_interrupt_move_files|intros _].
  apply no_interrupt_bind; [apply no_interrupt_purge|intros _].
  apply no_interrupt_bind; [apply no_interrupt_log|intros _].
  apply no_interrupt_bind; [|intros _; apply no_interrupt_ret].
  intros w e w' H.
  destruct (upload_log_file_returns self (cwd self ++ ["drive_sync.log"])
              (log_drive_folder_id self) w) as (b & w2 & E).
  congruence.
Qed.

Lemma sync_outcome hashlib self fuel w :
  (sync hashlib self fuel w).1 = Ret tt ∨ (sync hashlib self fuel w).1 = OutOfFuel.
Proof.
  assert (no_interrupt (drive_files <- get_drive_files self fuel None ;;
                        for_each drive_files (sync_entry hashlib self) ;;;
                        sync_tail self fuel)) as Hbody.
  { apply no_interrupt_bind; [apply no_interrupt_get_drive_files|intros drive_files].
    apply no_interrupt_bind; [|intros _; apply no_interrupt_sync_tail].
    intros w1 e w2 H.
    destruct (for_each_total (sync_entry hashlib self) drive_files
                (sync_entry_total hashlib self) w1) as [w3 E].
    congruence. }
  assert (sync hashlib self fuel w =
            try_except (drive_files <- get_drive_files self fuel None ;;
                        for_each drive_files (sync_entry hashlib self) ;;;
                        sync_tail self fuel)
              is_Exception sync_except
              (logged INFO "=== Starting sync process ===" w)) as -> by done.
  unfold try_except.
  destruct ((drive_files <- get_drive_files self fuel None ;;
             for_each drive_files (sync_entry hashlib self) ;;;
             sync_tail self fuel) (logged INFO "=== Starting sync process ===" w))
    as [[[]|e|] w1] eqn:Hrun.
  - left. reflexivity.
  - rewrite (Hbody _ _ _ Hrun). left. reflexivity.
  - right. reflexivity.
Qed.

(** X14: no error leaves [sync]: whatever the service and the file
    system do, every exception raised inside a cycle is caught by the
    cycle's own handler, and the cycle returns (or, in the model, is
    still running when the fuel ends).  Seen from
    [start_continuous_sync], a call of [sync] never fails. *)
Theorem sync_never_raises hashlib self fuel w :
  (sync hashlib self fuel w).1 = Ret tt ∨ (sync hashlib self fuel w).1 = OutOfFuel.
Proof. apply sync_outcome. Qed.

(** ** [start_continuous_sync] *)

Lemma poll_once_spec hashlib self fuel interval interrupted w :
  poll_once hashlib self fuel interval interrupted w =
    match (sync hashlib self fuel w).1 with
    | OutOfFuel => (OutOfFuel, (sync hashlib self fuel w).2)
    | _ =>
        let w1 := logged INFO ("Sync completed at "
                               +:+ pretty (clock (sync hashlib self fuel w).2))
                         (sync hashlib self fuel w).2 in
        if interrupted then (Ret true, logged INFO "Sync stopped by user." w1)
        else (Ret false, World (fs w1) (clock w1 + interval) (log w1) (calls w1))
    end.
Proof.
  pose proof (sync_outcome hashlib self fuel w) as Ho.
  unfold poll_once, try_except. unfold bind at 1.
  destruct (sync hashlib self fuel w) as [o w1]. cbn [fst snd] in *.
  destruct Ho as [->| ->]; [|done].
  unfold bind, datetime_now, logging_info, logging_log, time_sleep, ret.
  cbn [level_enabled]. by destruct interrupted.
Qed.

(** X15: one turn of the polling loop, the interrupt being delivered
    during a sleep.  When the cycle returns, the turn logs its
    completion, then sleeps: a sleep that is not interrupted advances
    the clock by the interval and the loop goes on; an interrupted one
    is logged and ends the loop, the file system being as the cycle left
    it.  The record of a continuous sync error is never written. *)
Theorem poll_turn_sleeps_after_the_cycle hashlib self fuel interval interrupted w :
  let s := sync hashlib self fuel w in
  poll_once hashlib self fuel interval interrupted w =
    match s.1 with
    | OutOfFuel => (OutOfFuel, s.2)
    | _ =>
        if interrupted then
          (Ret true,
           World (fs s.2) (clock s.2)
             (log s.2 ++ [(INFO, "Sync completed at " +:+ pretty (clock s.2));
                          (INFO, "Sync stopped by user.")])
             (calls s.2))
        else
          (Ret false,
           World (fs s.2) (clock s.2 + interval)
             (log s.2 ++ [(INFO, "Sync completed at " +:+ pretty (clock s.2))])
             (calls s.2))
    end.
Proof.
  cbv zeta. rewrite poll_once_spec.
  destruct (sync hashlib self fuel w).1; [| |done].
  - destruct interrupted; [|done]. unfold logged. cbn [fs clock log calls].
    by rewrite <- app_assoc.
  - destruct interrupted; [|done]. unfold logged. cbn [fs clock log calls].
    by rewrite <- app_assoc.
Qed.

Lemma poll_loop_outcome hashlib self fuel interval sleeps :
  ∀ w,
    match (poll_loop hashlib self fuel interval sleeps w).1 with
    | Ret _ =>
        true ∈ sleeps ∧
        last (log (poll_loop hashlib self fuel interval sleeps w).2)
          = Some (INFO, "Sync stopped by user.")
    | Raise _ => False
    | OutOfFuel => True
    end.
Proof.
  induction sleeps as [|interrupted sleeps IH]; intros w; [done|].
  cbn [poll_loop]. unfold bind. rewrite poll_once_spec.
  destruct (sync hashlib self fuel w) as [[[]|e|] w1]; cbn [fst snd]; [| |done].
  - destruct interrupted.
    + cbn [fst snd ret]. split; [by left|]. unfold logged. cbn [log]. by rewrite last_snoc.
    + match goal with |- context [poll_loop _ _ _ _ _ ?w2] => specialize (IH w2) end.
      destruct (poll_loop _ _ _ _ _ _) as [[[]|e|] w3]; cbn [fst snd] in *; [|done..].
      destruct IH as [Hin Hlast]. split; [by right|done].
  - destruct interrupted.
    + cbn [fst snd ret]. split; [by left|]. unfold logged. cbn [log]. by rewrite last_snoc.
    + match goal with |- context [poll_loop _ _ _ _ _ ?w2] => specialize (IH w2) end.
      destruct (poll_loop _ _ _ _ _ _) as [[[]|e'|] w3]; cbn [fst snd] in *; [|done..].
      destruct IH as [Hin Hlast]. split; [by right|done].
Qed.

(** X16: [start_continuous_sync] has one exit, when the interrupt is
    delivered during a sleep and nowhere else (the assumption of
    [time_sleep]; an interrupt raised while [sync] runs is not caught
    by [except Exception] and would end the loop in the middle of a
    cycle: it is outside this statement).  Under that assumption no
    error of a cycle makes the loop raise, and when it returns, one of
    the sleeps was interrupted and the last record of the log is the
    one that says the user stopped the sync. *)
Theorem continuous_sync_stops_only_on_interrupt hashlib self fuel interval sleeps w :
  let r := start_continuous_sync hashlib self fuel interval sleeps w in
  match r.1 with
  | Ret _ => true ∈ sleeps ∧ last (log r.2) = Some (INFO, "Sync stopped by user.")
  | Raise _ => False
  | OutOfFuel => True
  end.
Proof.
  cbv zeta. unfold start_continuous_sync. unfold bind at 1 2. rewrite logging_info_logged.
  apply poll_loop_outcome.
Qed.

Lemma poll_loop_runs hashlib self fuel interval n rest :
  ∀ w,
    (∀ i : nat, (i ≤ n)%nat →
       (sync hashlib self fuel (Nat.iter i (next_cycle hashlib self fuel interval) w)).1
       = Ret tt) →
    poll_loop hashlib self fuel interval (replicate n false ++ true :: rest) w =
      (Ret tt,
       (poll_once hashlib self fuel interval true
          (Nat.iter n (next_cycle hashlib self fuel interval) w)).2).
Proof.
  induction n as [|n IH]; intros w Hsync.
  - change (Nat.iter 0 (next_cycle hashlib self fuel interval) w) with w.
    cbn [replicate app poll_loop]. unfold bind.
    specialize (Hsync 0%nat (Nat.le_refl _)).
    change (Nat.iter 0 (next_cycle hashlib self fuel interval) w) with w in Hsync.
    rewrite !poll_once_spec, Hsync. done.
  - cbn [replicate app poll_loop]. unfold bind.
    pose proof (Hsync 0%nat (Nat.le_0_l _)) as H0.
    change (Nat.iter 0 (next_cycle hashlib self fuel interval) w) with w in H0.
    pose proof (poll_once_spec hashlib self fuel interval false w) as Hturn.
    rewrite H0 in Hturn. cbv zeta in Hturn.
    rewrite Hturn.
    assert (next_cycle hashlib self fuel interval w
            = World (fs (logged INFO ("Sync completed at "
                                      +:+ pretty (clock (sync hashlib self fuel w).2))
                                (sync hashlib self fuel w).2))
                    (clock (logged INFO ("Sync completed at "
                                      +:+ pretty (clock (sync hashlib self fuel w).2))
                                (sync hashlib self fuel w).2) + interval)
                    (log (logged INFO ("Sync completed at "
                                      +:+ pretty (clock (sync hashlib self fuel w).2))
                                (sync hashlib self fuel w).2))
                    (calls (logged INFO ("Sync completed at "
                                      +:+ pretty (clock (sync hashlib self fuel w).2))
                                (sync hashlib self fuel w).2))) as <-.
    { unfold next_cycle. by rewrite Hturn. }
    rewrite IH.
    + by rewrite Nat.iter_succ_r.
    + intros i Hi. rewrite <- Nat.iter_succ_r. apply Hsync. lia.
Qed.

(** X17: the loop runs one cycle per sleep until the first interrupted
    one.  When the interrupt arrives during the sleep that follows
    cycle [n + 1] and the cycles before it return,
    [start_continuous_sync] returns after exactly these cycles, each
    started from the world the previous turn left; the sleeps after the
    interrupt never happen. *)
Theorem continuous_sync_runs_until_interrupt hashlib self fuel interval n rest w :
  let w0 := logged INFO ("Starting continuous sync; interval: " +:+ pretty interval
                         +:+ " seconds.") w in
  (∀ i : nat, (i ≤ n)%nat →
     (sync hashlib self fuel (Nat.iter i (next_cycle hashlib self fuel interval) w0)).1
     = Ret tt) →
  start_continuous_sync hashlib self fuel interval (replicate n false ++ true :: rest) w =
    (Ret tt,
     (poll_once hashlib self fuel interval true
        (Nat.iter n (next_cycle hashlib self fuel interval) w0)).2).
Proof.
  cbv zeta. intros Hsync.
  unfold start_continuous_sync. unfold bind at 1. rewrite logging_info_logged.
  by apply poll_loop_runs.
Qed.

Lemma continuous_sync_runs_until_interrupt_witness :
  let w0 := logged INFO ("Starting continuous sync; interval: " +:+ pretty 60%nat
                         +:+ " seconds.") demo_world in
  start_continuous_sync toy_hashlib demo_self 10 60
    (replicate 1 false ++ true :: [false; false]) demo_world =
    (Ret tt,
     (poll_once toy_hashlib demo_self 10 60 true
        (Nat.iter 1 (next_cycle toy_hashlib demo_self 10 60) w0)).2).
Proof.
  intros w0.
  apply (continuous_sync_runs_until_interrupt toy_hashlib demo_self 10 60 1
           [false; false] demo_world).
  intros [|[|i]] Hi; [vm_compute; reflexivity..|lia].
Defined.

(** ** A cycle ends *)

Lemma elem_of_ancestors k p : k `prefix_of` p → k ∈ ancestors p.
Proof.
  intros [rest ->]. unfold ancestors. apply list_elem_of_fmap.
  exists (length k). split; [by rewrite take_app_length|].
  apply elem_of_seq. rewrite length_app. lia.
Qed.

Lemma move_files_finishes_within fuel intake output known w :
  disjoint_trees intake output →
  NoDup known →
  (∀ k, intake `prefix_of` k → fs w !! k = Some Dir → k ∈ known) →
  (walk_cost known intake ≤ fuel)%nat →
  finished (move_files fuel intake output w).1.
Proof.
  intros Hdis Hnd Hknown Hfuel.
  assert ((move_files fuel intake output w).1 ≠ OutOfFuel) as Hout.
  { unfold move_files.
    apply (os_walk_enough_fuel (λ w', changes_along output (fs w) (fs w'))
             (λ top, intake `prefix_of` top) known).
    - done.
    - intros w' top x Hw' Htop Hd.
      assert (intake `prefix_of` top ++ [x]) as Hpre.
      { etrans; [exact Htop|]. by apply prefix_app_r. }
      apply Hknown; [done|]. rewrite <- Hd. symmetry. by eapply staging_agrees.
    - intros top dirs files w' _ Hw' _. split; [|apply fuel_free_move_dir].
      by apply move_dir_changes_along.
    - intros top d Htop. etrans; [exact Htop|]. by apply prefix_app_r.
    - by repeat constructor.
    - apply changes_along_refl.
    - cbn [map sum_list sum_list_with]. unfold id. lia. }
  destruct (move_files fuel intake output w) as [[[]|e|] w'] eqn:Hm; [done| |done].
  cbn [fst finished]. by eapply no_interrupt_move_files.
Qed.

Lemma sync_entry_directories hashlib self (known : list pathname) e :
  (∀ k, k `prefix_of` dirname (local_path self e) → k ∈ known) →
  preserves (λ w, ∀ k, fs w !! k = Some Dir → k ∈ known) (sync_entry hashlib self e).
Proof.
  intros Hanc w Hw k.
  destruct (sync_entry_spec hashlib self e w) as (w0 & Hfs & [-> | ->]).
  { cbn [snd logged fs]. rewrite Hfs. apply Hw. }
  unfold bind.
  destruct (download_file_spec self (item_id e) (local_path self e) w0) as (cs & _ & H).
  cbv zeta in H. rewrite Hfs in H.
  assert (∀ m1, new_dirs_along (dirname (local_path self e)) (fs w) m1 →
                m1 !! k = Some Dir → k ∈ known) as Hnew.
  { intros m1 Hm1 Hk. destruct (Hm1 k) as [E|(_ & _ & Hpre)]; [|by apply Hanc].
    apply Hw. congruence. }
  destruct (media_content (get_media (service self) (item_id e))) as [msg|content].
  - rewrite H. cbn [snd fs]. apply Hw.
  - destruct H as (m1 & Hm1 & [[msg ->]|(r & -> & _)]); cbn [snd fs ret].
    + by apply Hnew.
    + intros Hk. apply lookup_insert_Some in Hk as [[_ ?]|[_ Hk]]; [done|]. by eapply Hnew.
Qed.

Lemma cycle_ends hashlib self w listing :
  disjoint_trees (local_folder self) (output_folder self) →
  flat (service self) (drive_folder_id self) listing →
  ∃ n0 : nat, ∀ fuel : nat, (n0 ≤ fuel)%nat → (sync hashlib self fuel w).1 = Ret tt.
Proof.
  intros Hdis Hflat.
  destruct (listing_complete self _ _ Hflat) as [n1 Hn1].
  set (known := cycle_directories self (fs w) listing).
  assert (NoDup known) as Hnd by apply NoDup_remove_dups.
  exists (n1 `max` walk_cost known (local_folder self)). intros fuel Hfuel.
  destruct (sync_outcome hashlib self fuel w) as [?|Hout]; [done|]. exfalso.
  assert (sync hashlib self fuel w =
            try_except (drive_files <- get_drive_files self fuel None ;;
                        for_each drive_files (sync_entry hashlib self) ;;;
                        sync_tail self fuel)
              is_Exception sync_except
              (logged INFO "=== Starting sync process ===" w)) as Hsync by done.
  rewrite Hsync in Hout. clear Hsync.
  destruct (Hn1 fuel ltac:(lia) (logged INFO "=== Starting sync process ===" w))
    as [w1 Hlist].
  pose proof (get_drive_files_run self fuel None
                (logged INFO "=== Starting sync process ===" w)) as (Hfs1 & _).
  unfold get_drive_files in Hfs1 at 1. cbn [default] in Hfs1. rewrite Hlist in Hfs1.
  cbn [snd logged fs] in Hfs1.
  destruct (for_each_total (sync_entry hashlib self) listing
              (sync_entry_total hashlib self) w1) as [w2 Hrec].
  assert (∀ e, e ∈ listing →
            ∀ k, k `prefix_of` dirname (local_path self e) → k ∈ known) as Hanc.
  { intros e He k Hk. apply elem_of_remove_dups, elem_of_app. right.
    apply list_elem_of_In, in_concat. eexists. split.
    - apply in_map_iff. exists e. split; [reflexivity|]. by apply list_elem_of_In.
    - by apply list_elem_of_In, elem_of_ancestors. }
  assert (∀ k, fs w2 !! k = Some Dir → k ∈ known) as Hw2.
  { pose proof (preserves_for_each (λ w', ∀ k, fs w' !! k = Some Dir → k ∈ known)
                  (sync_entry hashlib self) listing) as Hpres.
    specialize (Hpres (λ e He, sync_entry_directories hashlib self known e (Hanc e He)) w1).
    rewrite Hrec in Hpres. apply Hpres.
    intros k Hk. apply elem_of_remove_dups, elem_of_app. left.
    apply elem_of_directories. congruence. }
  pose proof (move_files_finishes_within fuel (local_folder self) (output_folder self)
                known w2 Hdis Hnd (λ k _, Hw2 k) ltac:(lia)) as Hmove.
  unfold try_except, get_drive_files in Hout. cbn [default] in Hout.
  unfold bind at 1 in Hout. rewrite Hlist in Hout.
  unfold bind at 1 in Hout. rewrite Hrec in Hout.
  unfold sync_tail in Hout. unfold bind at 1 in Hout.
  destruct (move_files fuel (local_folder self) (output_folder self) w2)
    as [[[]|e|] w3] eqn:Hm; cbn [fst finished] in Hmove; [| |done].
  2:{ rewrite Hmove in Hout. discriminate. }
  destruct (purge_returns self fuel known w3 Hnd) as [w4 Hpurge].
  { intros k Hk Hd. apply Hw2. rewrite <- Hd. symmetry.
    pose proof (move_files_changes_along fuel (local_folder self) (output_folder self) w2)
      as Hch.
    rewrite Hm in Hch. by eapply staging_agrees. }
  { lia. }
  unfold bind at 1 in Hout. rewrite Hpurge in Hout.
  unfold bind at 1 in Hout. rewrite logging_info_logged in Hout.
  unfold bind at 1 in Hout.
  destruct (upload_log_file_returns self (cwd self ++ ["drive_sync.log"])
              (log_drive_folder_id self)
              (logged INFO "=== Sync process complete ===" w4)) as (b & w5 & Hup).
  rewrite Hup in Hout. discriminate.
Qed.

(** X18: a cycle ends.  When staging and output are disjoint trees and
    the remote tree under the configured folder is finite and served
    without error (it has a flattening), every large enough fuel lets
    [sync] return: the listing, every fetch, the merge, the purge and
    the upload all end, and whatever fails on the way is caught. *)
Theorem cycle_terminates hashlib self w listing :
  disjoint_trees (local_folder self) (output_folder self) →
  flat (service self) (drive_folder_id self) listing →
  ∃ n0 : nat, ∀ fuel : nat, (n0 ≤ fuel)%nat → (sync hashlib self fuel w).1 = Ret tt.
Proof. apply cycle_ends. Qed.

Lemma cycle_terminates_witness :
  ∃ n0 : nat, ∀ fuel : nat, (n0 ≤ fuel)%nat →
    (sync toy_hashlib steady_self fuel demo_world).1 = Ret tt.
Proof.
  apply (cycle_terminates toy_hashlib steady_self demo_world
           [prefix_path (folder "x" "X") (set_path (leaf "f" "f" (Some "hello")) "f");
            set_path (leaf "g" "g.txt" (Some "xyz")) "g.txt"]).
  - intros [[k H]|[k H]]; discriminate.
  - apply (flat_folder steady_drive "root"
             [folder "x" "X"; leaf "g" "g.txt" (Some "xyz")]).
    + by apply (pages_last steady_drive "root" None
                  (Response [folder "x" "X"; leaf "g" "g.txt" (Some "xyz")] None)).
    + apply (flat_sub steady_drive (folder "x" "X") [leaf "g" "g.txt" (Some "xyz")]
               [set_path (leaf "f" "f" (Some "hello")) "f"]
               [set_path (leaf "g" "g.txt" (Some "xyz")) "g.txt"]); [done..| |].
      * apply (flat_folder steady_drive "x" [leaf "f" "f" (Some "hello")]).
        -- by apply (pages_last steady_drive "x" None
                       (Response [leaf "f" "f" (Some "hello")] None)).
        -- apply (flat_leaf steady_drive (leaf "f" "f" (Some "hello")) [] []);
             [done|done|constructor].
      * apply (flat_leaf steady_drive (leaf "g" "g.txt" (Some "xyz")) [] []);
          [done|done|constructor].
Defined.

(** ** Merge, then purge *)

Lemma purge_outside_staging self fuel w k :
  ¬ local_folder self `prefix_of` k → fs (purge self fuel w).2 !! k = fs w !! k.
Proof.
  intros Hk. unfold purge.
  apply (preserves_os_walk (λ w', fs w' !! k = fs w !! k)
           (λ top, local_folder self `prefix_of` top)).
  - intros top dirs files w' Htop Hw' _. revert w' Hw'.
    change (preserves (λ w', fs w' !! k = fs w !! k) (purge_dir top dirs files)).
    unfold purge_dir. apply preserves_for_each. intros x _.
    unfold purge_file. apply preserves_try_except.
    + apply preserves_bind; [|intros _; by apply preserves_log].
      intros w' Hw'.
      destruct (os_remove_spec (top ++ [x]) w') as [(e & -> & _)|(-> & _)]; [done|].
      cbn [snd set_fs fs]. rewrite lookup_delete_ne; [done|].
      intros <-. apply Hk. etrans; [exact Htop|]. by apply prefix_app_r.
    + intros e. by apply preserves_log.
  - intros top d Htop. etrans; [exact Htop|]. by apply prefix_app_r.
  - by repeat constructor.
  - done.
Qed.

(** X19: purge and upload leave the merged copies alone.  When
    staging and output are disjoint trees and the part of the cycle
    after the reconcile loop (merge, purge, completion record, upload)
    returns, every regular file that stood in a directory of the
    staging tree stands, content and modification time, at the same
    relative path under the output root. *)
Theorem staged_file_is_kept_in_output self fuel w w' d x data mt r :
  disjoint_trees (local_folder self) (output_folder self) →
  sync_tail self fuel w = (Ret tt, w') →
  dir_under (fs w) (local_folder self) d →
  fs w !! (local_folder self ++ d ++ [x]) = Some (File data mt r) →
  fs w' !! (output_folder self ++ d ++ [x]) = Some (File data mt true).
Proof.
  intros Hdis Hrun Hdir Hfile. unfold sync_tail in Hrun.
  apply bind_Ret_inv in Hrun as ([] & w1 & Hmove & Hrun).
  apply bind_Ret_inv in Hrun as ([] & w2 & Hpurge & Hrun).
  apply bind_Ret_inv in Hrun as ([] & w3 & Hlog & Hrun).
  apply bind_Ret_inv in Hrun as (b & w4 & Hup & Hrun).
  rewrite logging_info_logged in Hlog. unfold ret in Hrun. simplify_eq.
  pose proof (upload_log_file_fs self (cwd self ++ ["drive_sync.log"])
                (log_drive_folder_id self)
                (logged INFO "=== Sync process complete ===" w2)) as Hfs.
  rewrite Hup in Hfs. cbn [snd logged fs] in Hfs. rewrite Hfs.
  pose proof (purge_outside_staging self fuel w1 (output_folder self ++ d ++ [x])) as Hout.
  rewrite Hpurge in Hout. cbn [snd] in Hout. rewrite Hout.
  - by eapply (merge_copies_staged_files fuel _ _ w w1 d x Hdis Hmove Hdir).
  - intros Hpre. apply Hdis.
    destruct (prefix_weak_total _ _ _ Hpre
                (prefix_app_r (output_folder self) (output_folder self) (d ++ [x])
                   (reflexivity _))); [by left|by right].
Qed.

Lemma staged_file_is_kept_in_output_witness :
  fs (sync_tail demo_self 10 demo_world).2 !! (output_folder demo_self ++ ["a"] ++ ["b.txt"])
    = Some (File (String.list_byte_of_string "C") 0 true).
Proof.
  apply (staged_file_is_kept_in_output demo_self 10 demo_world _ ["a"] "b.txt"
           (String.list_byte_of_string "C") 0 true).
  - intros [[k H]|[k H]]; discriminate.
  - vm_compute. reflexivity.
  - intros [|[|n]] _; reflexivity.
  - reflexivity.
Defined.

(** ** The error record of [get_drive_files] *)

Lemma listing_only_no_interrupt {A} svc (m : M A) : listing_only svc m → no_interrupt m.
Proof.
  intros Hm w e w' H. destruct (Hm w) as (_ & _ & cs & _ & Ho).
  rewrite H in Ho. cbn [fst] in Ho. by destruct Ho as (f & t & msg & cs' & _ & _ & _ & ->).
Qed.

Lemma listing_error_is_logged self fuel :
  (∀ folder w e w',
     get_drive_files_from self fuel folder w = (Raise e, w') →
     last (log w') = Some (ERROR, "Error fetching Drive files: " +:+ str e)) ∧
  (∀ folder tok results w e w',
     while_pages self fuel folder tok results w = (Raise e, w') →
     last (log w') = Some (ERROR, "Error fetching Drive files: " +:+ str e)).
Proof.
  induction fuel as [|fuel [IH1 IH2]].
  { split; intros; discriminate. }
  split.
  - intros folder w e w' H. cbn [get_drive_files_from] in H.
    unfold bind at 1 in H. rewrite logging_info_logged in H. by eapply IH2.
  - intros folder tok results w e w' H. cbn [while_pages] in H.
    unfold bind at 1 in H.
    set (page := (response <- files_list_execute self folder tok ;;
                  results' <- for_items (get_drive_files_from self fuel) (files response)
                                results ;;
                  ret (results', nextPageToken response))) in H.
    assert (no_interrupt page) as Hpage.
    { apply (listing_only_no_interrupt (service self)). unfold page.
      apply listing_only_bind; [apply files_list_execute_only|intros resp].
      apply listing_only_bind; [|intros ?; apply listing_only_ret].
      apply for_items_only. intros i.
      apply (proj1 (listing_only_get_drive_files_from self fuel)). }
    unfold try_except in H. destruct (page w) as [[[rs tok']|e0|] w1] eqn:Hrun.
    + cbn [fst snd] in H. destruct (truthy tok'); [by eapply IH2|discriminate].
    + rewrite (Hpage _ _ _ Hrun) in H. unfold bind in H.
      rewrite logging_error_logged in H. unfold raise in H. simplify_eq.
      unfold logged. cbn [log]. by rewrite last_snoc.
    + discriminate.
Qed.

(** X20: a listing that fails has said so: when [get_drive_files]
    raises, the exception is the service's error of the failed request
    and the last record of the log is the error record that carries its
    message, written by the handler before it raised again. *)
Theorem failed_listing_is_logged self fuel folder_id w e w' :
  get_drive_files self fuel folder_id w = (Raise e, w') →
  exn_cls e = HttpError ∧
  last (log w') = Some (ERROR, "Error fetching Drive files: " +:+ str e).
Proof.
  intros H. split.
  - pose proof (get_drive_files_run self fuel folder_id w) as (_ & _ & cs & _ & Ho).
    rewrite H in Ho. cbn [fst] in Ho. by destruct Ho as (f & t & msg & cs' & _ & _ & _ & ->).
  - by eapply (proj1 (listing_error_is_logged self fuel)).
Qed.

Lemma failed_listing_is_logged_witness :
  exn_cls (Exn HttpError "500 internal error") = HttpError ∧
  last (log (get_drive_files broken_self 10 None demo_world).2)
    = Some (ERROR, "Error fetching Drive files: " +:+ str (Exn HttpError "500 internal error")).
Proof.
  apply (failed_listing_is_logged broken_self 10 None demo_world
           (Exn HttpError "500 internal error")
           (get_drive_files broken_self 10 None demo_world).2).
  vm_compute. reflexivity.
Defined.

(** * The amended claims *)

(** ** The flattening is a function of the remote tree *)

Lemma flat_det svc f rs :
  flat svc f rs → ∀ rs', flat svc f rs' → rs = rs'.
Proof.
  intros H.
  induction H using flat_mut with
    (P0 := λ es rs _, ∀ rs', flat_items svc es rs' → rs = rs').
  - intros rs' H'. inversion H' as [f' es' rs'' Hc' Hf']; subst.
    rewrite (pages_det _ _ _ _ _ c Hc') in *. by apply IHflat.
  - intros rs' H'. by inversion H'.
  - intros rs' H'. inversion H'; subst; try congruence. by apply IHflat.
  - intros rs' H'. inversion H'; subst; try congruence.
    f_equal; [f_equal|]; eauto.
  - intros rs' H'. inversion H'; subst; try congruence. f_equal. by apply IHflat.
Qed.

(** C4: for a remote tree that is finite and served without error (it
    has a flattening), the listing is produced: every large enough
    recursion budget makes [get_drive_files] return that flattening,
    and whatever it returns is that flattening.  In it, a leaf named f
    in a folder named Y in a folder named X of the root appears with
    its own identifier, name and checksum and with the path X/Y/f.  The
    listing does not depend on how the service cuts a folder's entries
    into pages: a service that presents the same entries per folder, in
    one page or in any other paging, yields the same listing. *)
Theorem tree_flattening self listing :
  flat (service self) (drive_folder_id self) listing →
  (∃ n0 : nat, ∀ fuel : nat, (n0 ≤ fuel)%nat → ∀ w, ∃ w',
     get_drive_files self fuel None w = (Ret listing, w')) ∧
  (∀ fuel w listing' w',
     get_drive_files self fuel None w = (Ret listing', w') → listing' = listing) ∧
  (∀ x y f,
     child (service self) (drive_folder_id self) x →
     item_name x = "X" → item_mimeType x = folder_mime →
     child (service self) (item_id x) y →
     item_name y = "Y" → item_mimeType y = folder_mime →
     child (service self) (item_id y) f →
     item_name f = "f" → item_mimeType f ≠ folder_mime →
     ∃ e, e ∈ listing ∧ item_path e = Some "X/Y/f" ∧
          item_id e = item_id f ∧ item_name e = "f" ∧
          item_mimeType e = item_mimeType f ∧
          item_md5Checksum e = item_md5Checksum f ∧
          item_modifiedTime e = item_modifiedTime f) ∧
  (∀ svc',
     (∀ folder_id es, contents (service self) folder_id es ↔ contents svc' folder_id es) →
     ∃ n1 : nat, ∀ fuel : nat, (n1 ≤ fuel)%nat → ∀ w, ∃ w',
       get_drive_files (with_service self svc') fuel None w = (Ret listing, w')).
Proof.
  intros Hflat. split_and!.
  - destruct (listing_complete self _ _ Hflat) as (n0 & Hn0).
    exists n0. intros fuel Hfuel w. by apply Hn0.
  - intros fuel w listing' w' Hrun. unfold get_drive_files in Hrun. cbn [default] in Hrun.
    apply (proj1 (listing_sound self fuel)) in Hrun. by eapply flat_det.
  - intros x y f Hx Hxn Hxm Hy Hyn Hym Hf Hfn Hfm.
    pose proof (nested_leaf_listed _ _ _ x y f Hflat Hx) as H.
    rewrite Hxn, Hyn, Hfn in H.
    exists (set_path f "X/Y/f"). split; [by apply H|]. by split_and!.
  - intros svc' Hsame.
    apply (flat_same_contents _ svc' Hsame) in Hflat.
    destruct (listing_complete (with_service self svc') _ _ Hflat) as (n1 & Hn1).
    exists n1. intros fuel Hfuel w. by apply Hn1.
Qed.

Lemma tree_flattening_witness :
  (∃ n0 : nat, ∀ fuel : nat, (n0 ≤ fuel)%nat → ∀ w, ∃ w',
     get_drive_files demo_self fuel None w = (Ret [demo_f; demo_bad; demo_g], w')) ∧
  (∀ fuel w listing' w',
     get_drive_files demo_self fuel None w = (Ret listing', w') →
     listing' = [demo_f; demo_bad; demo_g]) ∧
  (∃ e, e ∈ [demo_f; demo_bad; demo_g] ∧ item_path e = Some "X/Y/f" ∧
        item_id e = "f" ∧ item_name e = "f" ∧ item_md5Checksum e = Some "hello") ∧
  (∃ n1 : nat, ∀ fuel : nat, (n1 ≤ fuel)%nat → ∀ w, ∃ w',
     get_drive_files (with_service demo_self demo_drive_single_page) fuel None w
       = (Ret [demo_f; demo_bad; demo_g], w')).
Proof.
  destruct (tree_flattening demo_self [demo_f; demo_bad; demo_g])
    as (Htotal & Hsound & Hpath & Hpages).
  { apply (proj1 (listing_sound demo_self 10) "root" demo_world _
             (get_drive_files demo_self 10 None demo_world).2).
    vm_compute. reflexivity. }
  split_and!; [exact Htotal|exact Hsound| |].
  - destruct (Hpath (folder "x" "X") (folder "y" "Y") (leaf "f" "f" (Some "hello")))
      as (e & He & Hp & Hi & Hn & _ & Hm & _); try reflexivity; try discriminate.
    + exists [folder "x" "X"; leaf "l" "drive_sync.log.1" None;
              leaf "b" "bad.bin" (Some "00"); leaf "g" "g.txt" (Some "xyz")].
      split; [|by left]. apply demo_same_contents.
      by apply (pages_last demo_drive_single_page "root" None
                  (Response [folder "x" "X"; leaf "l" "drive_sync.log.1" None;
                             leaf "b" "bad.bin" (Some "00"); leaf "g" "g.txt" (Some "xyz")]
                            None)).
    + exists [folder "y" "Y"]. split; [|by left].
      by apply (pages_last demo_drive "x" None (Response [folder "y" "Y"] None)).
    + exists [leaf "f" "f" (Some "hello")]. split; [|by left].
      by apply (pages_last demo_drive "y" None (Response [leaf "f" "f" (Some "hello")] (Some ""))).
    + exists e. by split_and!.
  - apply Hpages. apply demo_same_contents.
Defined.

(** ** A copy that fails ends the merge *)

Lemma copy_loop_readable m0 intake output r :
  disjoint_trees intake output →
  ∀ files w w',
    changes_along output m0 (fs w) →
    for_each files (move_file (intake ++ r) (output ++ r)) w = (Ret tt, w') →
    ∀ y data mt rd, y ∈ files → m0 !! (intake ++ r ++ [y]) = Some (File data mt rd) →
                    rd = true.
Proof.
  intros Hdis files. induction files as [|y files IH]; intros w w' Hch H z data mt rd Hz Hm0.
  { by apply elem_of_nil in Hz. }
  cbn [for_each] in H. apply bind_Ret_inv in H as ([] & w1 & Hstep & H).
  pose proof (move_file_changes_along m0 output r (intake ++ r) y w Hch) as Hch1.
  rewrite Hstep in Hch1. cbn [snd] in Hch1.
  apply elem_of_cons in Hz as [->|Hz]; [|by eapply (IH w1 w')].
  apply move_file_Ret in Hstep as (data' & mt' & Hsrc & _).
  rewrite <- app_assoc in Hsrc.
  rewrite (staging_agrees intake output m0 (fs w)) in Hsrc; [|done..|by apply prefix_app_r].
  congruence.
Qed.

(** A merge pass that returns has found every staged file readable. *)
Lemma merge_returns_only_if_readable fuel intake output w w' d x data mt rd :
  disjoint_trees intake output →
  move_files fuel intake output w = (Ret tt, w') →
  dir_under (fs w) intake d →
  fs w !! (intake ++ d ++ [x]) = Some (File data mt rd) →
  rd = true.
Proof.
  intros Hdis Hrun Hdir Hfile.
  pose (J := λ (stack : list pathname) (w1 : world),
    changes_along output (fs w) (fs w1) ∧
    Forall (λ top, intake `prefix_of` top) stack ∧
    (rd = true ∨ ∃ r, intake ++ r ∈ stack ∧ r `prefix_of` d)).
  assert (J [] w') as (_ & _ & Hdone).
  { unfold move_files in Hrun.
    eapply (os_walk_Ret_inv J (move_dir intake output)); [| |shelve|exact Hrun].
    - intros top stack w1 (Hch & Hst & Hp) Htop.
      apply Forall_cons in Hst as [_ Hst]. split_and!; [done..|].
      destruct Hp as [?|(r & Hin & Hpre)]; [by left|right].
      apply elem_of_cons in Hin as [<-|Hin]; [|eauto].
      assert (is_dir (fs w1) (intake ++ r) = true); [|congruence].
      rewrite (is_dir_agrees (fs w)).
      + by eapply dir_under_prefix.
      + eapply staging_agrees; [done..|]. by apply prefix_app_r.
    - intros top stack w1 dirs files w2 (Hch & Hst & Hp) Hscan Hbody.
      apply Forall_cons in Hst as [[r ->] Hst].
      apply os_scandir_inv in Hscan as (Htop & Hdirs & Hfiles).
      pose proof (move_dir_changes_along (fs w) intake output (intake ++ r) dirs files w1 Hch)
        as Hch2.
      rewrite Hbody in Hch2. cbn [snd] in Hch2.
      unfold move_dir in Hbody. rewrite relpath_app in Hbody.
      apply bind_Ret_inv in Hbody as ([] & w1' & Hens & Hloop).
      assert (changes_along output (fs w) (fs w1')) as Hch1.
      { eapply changes_along_trans; [exact Hch|].
        pose proof (ensure_dir_changes_along output r w1) as He.
        by rewrite Hens in He. }
      split_and!; [done| |].
      { apply Forall_app. split; [|done]. apply Forall_forall. intros p Hp'.
        apply list_elem_of_fmap in Hp' as (y & -> & _).
        rewrite <- app_assoc. by apply prefix_app_r. }
      destruct Hp as [?|(r' & Hin & Hpre)]; [by left|].
      apply elem_of_cons in Hin as [Heq|Hin].
      2:{ right. exists r'. split; [|done]. apply elem_of_app. by right. }
      apply app_inv_head in Heq as ->. destruct Hpre as [rest ->].
      destruct rest as [|y rest].
      + left. rewrite app_nil_r in *.
        eapply (copy_loop_readable (fs w) intake output r Hdis files w1' w2 Hch1 Hloop x);
          [|exact Hfile].
        apply Hfiles. exists data, mt, rd.
        rewrite <- Hfile, <- app_assoc. eapply staging_agrees; [done..|].
        by apply prefix_app_r.
      + right. exists (r ++ [y]). split.
        * apply elem_of_app. left. apply list_elem_of_fmap. exists y.
          split; [by rewrite app_assoc|].
          apply Hdirs, is_dir_lookup. rewrite <- app_assoc.
          rewrite (is_dir_agrees (fs w)).
          -- eapply dir_under_prefix; [done|]. exists rest. by rewrite <- app_assoc.
          -- eapply staging_agrees; [done..|]. by apply prefix_app_r.
        * exists rest. by rewrite <- app_assoc. }
  Unshelve.
  2:{ split_and!.
      - apply changes_along_refl.
      - by repeat constructor.
      - right. exists []. split; [|apply prefix_nil]. rewrite app_nil_r. by left. }
  destruct Hdone as [?|(r' & Hin & _)]; [done|]. by apply elem_of_nil in Hin.
Qed.

Lemma calls_kept_move_files fuel intake output : calls_kept (move_files fuel intake output).
Proof.
  intros w. unfold move_files.
  apply (preserves_os_walk (λ w', calls w' = calls w) (λ _, True)); [| |by repeat constructor|done].
  2: done.
  intros top dirs files w' _ Hw' _. revert w' Hw'.
  change (preserves (λ w', calls w' = calls w) (move_dir intake output top dirs files)).
  unfold move_dir. apply preserves_bind.
  { intros w' Hw'. destruct (ensure_dir_spec (output ++ relpath top intake) w') as [[_ ->]|[_ ->]];
      [done|].
    destruct (os_makedirs_spec (output ++ relpath top intake) false w') as (o & m' & -> & _).
    done. }
  intros _. apply preserves_for_each. intros file _. unfold move_file.
  apply preserves_bind; [by intros w'|intros ex].
  apply preserves_bind.
  { destruct ex; [|apply preserves_ret].
    apply preserves_bind; [by apply preserves_log|intros _].
    intros w' Hw'.
    by destruct (os_remove_spec ((output ++ relpath top intake) ++ [file]) w')
      as [(e & -> & _)|(-> & _)]. }
  intros _. apply preserves_bind; [|intros _; by apply preserves_log].
  intros w' Hw'.
  by destruct (shutil_copy2_spec (top ++ [file]) ((output ++ relpath top intake) ++ [file]) w')
    as [(e & -> & _)|(data & mt & dst' & -> & _)].
Qed.

(** C3 (the defect): [move_files] has no handler of its own.  Take a
    cycle whose listing returned, with fuel for the staging tree, when
    staging and output are disjoint; [w2] is the state in which the
    merge starts.  When a directory of the staging tree then holds a
    file that cannot be read, the copy of that file raises, the
    exception leaves [move_files] and reaches the handler of the whole
    cycle: [sync] logs it as a sync error and returns.  The merge pass
    is thus cut short at the failing file, nothing is purged (the
    staging tree is exactly as the merge found it) and no request is
    sent, so the log is not uploaded. *)
Theorem merge_failure_ends_cycle hashlib self fuel w drive_files w1 d x data mt :
  disjoint_trees (local_folder self) (output_folder self) →
  get_drive_files self fuel None (logged INFO "=== Starting sync process ===" w)
    = (Ret drive_files, w1) →
  let w2 := (for_each drive_files (sync_entry hashlib self) w1).2 in
  (walk_cost (directories (fs w2)) (local_folder self) ≤ fuel)%nat →
  dir_under (fs w2) (local_folder self) d →
  fs w2 !! (local_folder self ++ d ++ [x]) = Some (File data mt false) →
  ∃ e w3,
    move_files fuel (local_folder self) (output_folder self) w2 = (Raise e, w3) ∧
    sync hashlib self fuel w = (Ret tt, logged ERROR ("Sync error: " +:+ str e) w3) ∧
    (∀ k, local_folder self `prefix_of` k → fs w3 !! k = fs w2 !! k) ∧
    calls w3 = calls w2.
Proof.
  intros Hdis Hlist w2 Hfuel Hdir Hfile.
  assert (for_each drive_files (sync_entry hashlib self) w1 = (Ret tt, w2)) as Hrec.
  { unfold w2.
    by destruct (for_each_total (sync_entry hashlib self) drive_files
                   (sync_entry_total hashlib self) w1) as [w2' ->]. }
  clearbody w2.
  pose proof (move_files_finishes fuel _ _ w2 Hdis Hfuel) as Hfin.
  pose proof (move_files_changes_along fuel (local_folder self) (output_folder self) w2) as Hch.
  pose proof (calls_kept_move_files fuel (local_folder self) (output_folder self) w2) as Hcalls.
  destruct (move_files fuel (local_folder self) (output_folder self) w2)
    as [[[]|e|] w3] eqn:Hmove; cbn [fst snd finished] in *; [| |done].
  { by pose proof (merge_returns_only_if_readable _ _ _ _ _ _ _ _ _ _ Hdis Hmove Hdir Hfile). }
  exists e, w3. split_and!; [done| | |done].
  - unfold sync. unfold bind at 1. rewrite logging_info_logged.
    erewrite try_except_bind by exact Hlist.
    unfold try_except, bind. rewrite Hrec. unfold sync_tail, bind. rewrite Hmove.
    by rewrite Hfin.
  - intros k Hk. by eapply staging_agrees.
Qed.

Lemma merge_failure_ends_cycle_witness :
  ∃ e w3,
    move_files 10 (local_folder merge_self) (output_folder merge_self) merge_reconciled
      = (Raise e, w3) ∧
    sync toy_hashlib merge_self 10 merge_world
      = (Ret tt, logged ERROR ("Sync error: " +:+ str e) w3) ∧
    (∀ k, local_folder merge_self `prefix_of` k → fs w3 !! k = fs merge_reconciled !! k) ∧
    calls w3 = calls merge_reconciled.
Proof.
  apply (merge_failure_ends_cycle toy_hashlib merge_self 10 merge_world
           [] merge_reconciled [] "locked.txt"
           (String.list_byte_of_string "L") 1).
  - intros [[k H]|[k H]]; discriminate.
  - vm_compute. reflexivity.
  - vm_compute. lia.
  - intros [|n] Hn; [reflexivity|cbn in Hn; lia].
  - reflexivity.
Defined.

(** ** The log only grows *)

Lemma log_grows_ret {A} (a : A) : log_grows (ret a).
Proof. by intros w. Qed.

Lemma log_grows_bind {A B} (m : M A) (k : A → M B) :
  log_grows m → (∀ a, log_grows (k a)) → log_grows (bind m k).
Proof.
  intros Hm Hk w. unfold bind. specialize (Hm w).
  destruct (m w) as [[a|e|] w1]; cbn [snd] in *; [|done..].
  etrans; [exact Hm|apply Hk].
Qed.

Lemma log_grows_try_except {A} (m : M A) c h :
  log_grows m → (∀ e, log_grows (h e)) → log_grows (try_except m c h).
Proof.
  intros Hm Hh w. unfold try_except. specialize (Hm w).
  destruct (m w) as [[a|e|] w1]; cbn [snd] in *; [done| |done].
  destruct (c e); [|done]. etrans; [exact Hm|apply Hh].
Qed.

Lemma log_grows_for_each {A} (body : A → M unit) l :
  (∀ x, log_grows (body x)) → log_grows (for_each l body).
Proof.
  intros Hbody. induction l as [|x l IH]; [apply log_grows_ret|].
  cbn [for_each]. by apply log_grows_bind.
Qed.

Lemma log_grows_log l msg : log_grows (logging_log l msg).
Proof.
  intros w. unfold logging_log. cbn [snd]. destruct (level_enabled l); [|done].
  by apply prefix_app_r.
Qed.

Lemma log_grows_same {A} (m : M A) : (∀ w, log (m w).2 = log w) → log_grows m.
Proof. intros H w. by rewrite H. Qed.

Lemma log_grows_os_walk body :
  (∀ top dirs files, log_grows (body top dirs files)) →
  ∀ fuel stack, log_grows (os_walk fuel stack body).
Proof.
  intros Hbody fuel. induction fuel as [|fuel IH]; intros stack.
  { destruct stack; by intros w. }
  destruct stack as [|top stack]; [apply log_grows_ret|].
  cbn [os_walk]. apply log_grows_bind; [by intros w|].
  intros [[dirs files]|]; [|apply IH].
  apply log_grows_bind; [apply Hbody|intros _; apply IH].
Qed.

Lemma log_grows_ensure_dir d : log_grows (ensure_dir d).
Proof.
  apply log_grows_same. intros w.
  destruct (ensure_dir_spec d w) as [[_ ->]|[_ ->]]; [done|].
  by destruct (os_makedirs_spec d false w) as (o & m' & -> & _).
Qed.

Lemma log_grows_os_remove p : log_grows (os_remove p).
Proof.
  apply log_grows_same. intros w.
  by destruct (os_remove_spec p w) as [(e & -> & _)|(-> & _)].
Qed.

Lemma log_grows_shutil_copy2 src dst : log_grows (shutil_copy2 src dst).
Proof.
  apply log_grows_same. intros w.
  by destruct (shutil_copy2_spec src dst w) as [(e & -> & _)|(? & ? & ? & -> & _)].
Qed.

Lemma log_grows_move_files fuel intake output : log_grows (move_files fuel intake output).
Proof.
  unfold move_files. apply log_grows_os_walk. intros top dirs files.
  unfold move_dir. apply log_grows_bind; [apply log_grows_ensure_dir|intros _].
  apply log_grows_for_each. intros file. unfold move_file.
  apply log_grows_bind; [by intros w|intros ex].
  apply log_grows_bind.
  { destruct ex; [|apply log_grows_ret].
    apply log_grows_bind; [apply log_grows_log|intros _; apply log_grows_os_remove]. }
  intros _. apply log_grows_bind; [apply log_grows_shutil_copy2|].
  intros _. apply log_grows_log.
Qed.

Lemma log_grows_purge self fuel : log_grows (purge self fuel).
Proof.
  unfold purge. apply log_grows_os_walk. intros top dirs files.
  unfold purge_dir. apply log_grows_for_each. intros file. unfold purge_file.
  apply log_grows_try_except.
  - apply log_grows_bind; [apply log_grows_os_remove|intros _; apply log_grows_log].
  - intros e. apply log_grows_log.
Qed.

Lemma upload_log_file_log self p folder_id w :
  ∃ record, log (upload_log_file self p folder_id w).2 = log w ++ [record].
Proof.
  unfold upload_log_file, bind, os_path_exists, try_except, open_rb_read, request.
  destruct (path_exists (fs w) p); cbn [negb]; [|by eexists].
  destruct (node_at (fs w) p) as [[data mt []|]|]; cbn; try by eexists.
  destruct (files_create (service self) (basename p) folder_id); cbn; by eexists.
Qed.

Lemma log_grows_upload_log_file self p folder_id :
  log_grows (upload_log_file self p folder_id).
Proof.
  intros w. destruct (upload_log_file_log self p folder_id w) as (record & ->).
  by apply prefix_app_r.
Qed.

Lemma log_grows_sync_tail self fuel : log_grows (sync_tail self fuel).
Proof.
  unfold sync_tail.
  apply log_grows_bind; [apply log_grows_move_files|intros _].
  apply log_grows_bind; [apply log_grows_purge|intros _].
  apply log_grows_bind; [apply log_grows_log|intros _].
  apply log_grows_bind; [apply log_grows_upload_log_file|intros _; apply log_grows_ret].
Qed.

Lemma log_grows_for_items recurse :
  (∀ i, log_grows (recurse i)) →
  ∀ items results, log_grows (for_items recurse items results).
Proof.
  intros Hrec items. induction items as [|it items IH]; intros results.
  - apply log_grows_ret.
  - cbn [for_items]. destruct (is_log_name (item_name it)).
    + apply log_grows_bind; [apply log_grows_log|intros _; apply IH].
    + case_bool_decide; [|apply IH].
      apply log_grows_bind; [apply Hrec|intros sub; apply IH].
Qed.

Lemma log_grows_listing self fuel :
  (∀ folder, log_grows (get_drive_files_from self fuel folder)) ∧
  (∀ folder tok results, log_grows (while_pages self fuel folder tok results)).
Proof.
  induction fuel as [|fuel [IH1 IH2]].
  { split; intros; by intros w. }
  split.
  - intros folder. cbn [get_drive_files_from].
    apply log_grows_bind; [apply log_grows_log|intros _; apply IH2].
  - intros folder tok results. cbn [while_pages]. apply log_grows_bind.
    + apply log_grows_try_except.
      * apply log_grows_bind.
        { unfold files_list_execute. apply log_grows_bind; [by intros w|intros _].
          destruct (files_list _ _ _); by intros w. }
        intros resp. apply log_grows_bind; [|intros ?; apply log_grows_ret].
        by apply log_grows_for_items.
      * intros e. apply log_grows_bind; [apply log_grows_log|intros _; by intros w].
    + intros [rs tok']. cbn [fst snd]. destruct (truthy tok'); [apply IH2|apply log_grows_ret].
Qed.

Lemma log_grows_get_drive_files self fuel folder_id :
  log_grows (get_drive_files self fuel folder_id).
Proof. apply (proj1 (log_grows_listing self fuel)). Qed.

(** ** One step of the reconcile loop *)

Lemma download_step self file_id file_path w0 :
  (_ <- download_file self file_id file_path ;; ret tt) w0
  = (Ret tt, (download_file self file_id file_path w0).2).
Proof.
  unfold bind, ret.
  destruct (download_file_spec self file_id file_path w0) as (cs & _ & H). cbv zeta in H.
  destruct (media_content _).
  - by rewrite H.
  - by destruct H as (m1 & _ & [[msg ->]|(r & -> & _)]).
Qed.

(** The step, by what stands at the local path: a readable file whose
    digest is the checksum is skipped; nothing, or a readable file
    with another digest, is fetched; anything else makes [md5] log its
    error first, then the step skips or fetches. *)
Lemma sync_entry_by_node hashlib self e w :
  match node_at (fs w) (local_path self e) with
  | None =>
      sync_entry hashlib self e w =
        (Ret tt, (download_file self (item_id e) (local_path self e) w).2)
  | Some (File data _ true) =>
      if bool_decide (Some (file_md5 hashlib data) = item_md5Checksum e)
      then sync_entry hashlib self e w =
             (Ret tt, logged INFO ("Skipping " +:+ path_str (local_path self e)
                                   +:+ ", already up-to-date.") w)
      else sync_entry hashlib self e w =
             (Ret tt, (download_file self (item_id e) (local_path self e) w).2)
  | Some _ =>
      ∃ msg,
        let w0 := logged ERROR ("Error computing MD5 for " +:+ path_str (local_path self e)
                                +:+ ": " +:+ msg) w in
        match item_md5Checksum e with
        | None =>
            sync_entry hashlib self e w =
              (Ret tt, logged INFO ("Skipping " +:+ path_str (local_path self e)
                                    +:+ ", already up-to-date.") w0)
        | Some _ =>
            sync_entry hashlib self e w =
              (Ret tt, (download_file self (item_id e) (local_path self e) w0).2)
        end
  end.
Proof.
  pose proof (md5_spec hashlib (local_path self e) w) as Hmd5.
  pose proof (download_step self (item_id e) (local_path self e)) as Hdl.
  assert (sync_entry hashlib self e w =
            (skip <-
               (if path_exists (fs w) (local_path self e) then
                  local_md5 <- md5 hashlib (local_path self e) ;;
                  if bool_decide (local_md5 = item_md5Checksum e) then
                    logging_info ("Skipping " +:+ path_str (local_path self e)
                                  +:+ ", already up-to-date.") ;;;
                    ret true
                  else ret false
                else ret false) ;;
             if skip then ret tt
             else _ <- download_file self (item_id e) (local_path self e) ;; ret tt) w)
    as -> by done.
  unfold path_exists.
  destruct (node_at (fs w) (local_path self e)) as [[data mt []|]|].
  - destruct (bool_decide (Some (file_md5 hashlib data) = item_md5Checksum e)) eqn:Hc;
      unfold bind at 1; unfold bind at 1; rewrite Hmd5, Hc; [done|].
    unfold ret at 1. apply Hdl.
  - destruct Hmd5 as [msg Hmd5]. exists msg. cbv zeta.
    destruct (item_md5Checksum e) as [sum|];
      unfold bind at 1; unfold bind at 1; rewrite Hmd5.
    + rewrite bool_decide_eq_false_2 by done. unfold ret at 1. apply Hdl.
    + by rewrite bool_decide_eq_true_2.
  - destruct Hmd5 as [msg Hmd5]. exists msg. cbv zeta.
    destruct (item_md5Checksum e) as [sum|];
      unfold bind at 1; unfold bind at 1; rewrite Hmd5.
    + rewrite bool_decide_eq_false_2 by done. unfold ret at 1. apply Hdl.
    + by rewrite bool_decide_eq_true_2.
  - unfold bind at 1. unfold ret at 1. apply Hdl.
Qed.

Lemma download_file_log self file_id file_path w :
  ∃ record,
    log (download_file self file_id file_path w).2 =
      log w ++ [(INFO, "Downloading file from Drive to " +:+ path_str file_path); record].
Proof.
  destruct (download_file_spec self file_id file_path w) as (cs & _ & H). cbv zeta in H.
  destruct (media_content (get_media (service self) file_id)) as [msg|content].
  - rewrite H. cbn [snd log]. eexists. by rewrite <- app_assoc.
  - destruct H as (m1 & _ & [[msg ->]|(r & -> & _)]); cbn [snd log]; eexists;
      by rewrite <- app_assoc.
Qed.

(** Every step leaves the record of what it did with the entry. *)
Lemma sync_entry_processed hashlib self a w :
  ∃ records, log (sync_entry hashlib self a w).2 = log w ++ records ∧
             processed self a records.
Proof.
  pose proof (sync_entry_by_node hashlib self a w) as H.
  assert (∀ w0 l, log w0 = log w ++ l →
            ∃ records,
              log (download_file self (item_id a) (local_path self a) w0).2
              = log w ++ records ∧ processed self a records) as Hdl.
  { intros w0 l Hl.
    destruct (download_file_log self (item_id a) (local_path self a) w0) as (record & ->).
    rewrite Hl, <- app_assoc. eexists. split; [reflexivity|].
    right. apply elem_of_app. right. by left. }
  assert (∀ w0 l, log w0 = log w ++ l →
            ∃ records,
              log (logged INFO ("Skipping " +:+ path_str (local_path self a)
                                +:+ ", already up-to-date.") w0)
              = log w ++ records ∧ processed self a records) as Hskip.
  { intros w0 l Hl. cbn [logged log]. rewrite Hl, <- app_assoc.
    eexists. split; [reflexivity|]. left. apply elem_of_app. right. by left. }
  destruct (node_at (fs w) (local_path self a)) as [[data mt []|]|].
  - destruct (bool_decide _); rewrite H; cbn [snd];
      [apply (Hskip w [])|apply (Hdl w [])]; by rewrite app_nil_r.
  - destruct H as [msg H]. cbv zeta in H.
    destruct (item_md5Checksum a); rewrite H; cbn [snd]; [eapply Hdl|eapply Hskip];
      reflexivity.
  - destruct H as [msg H]. cbv zeta in H.
    destruct (item_md5Checksum a); rewrite H; cbn [snd]; [eapply Hdl|eapply Hskip];
      reflexivity.
  - rewrite H. cbn [snd]. apply (Hdl w []). by rewrite app_nil_r.
Qed.

Lemma log_grows_sync_entry hashlib self a : log_grows (sync_entry hashlib self a).
Proof.
  intros w. destruct (sync_entry_processed hashlib self a w) as (records & -> & _).
  by apply prefix_app_r.
Qed.

(** The reconcile loop returns and leaves, for every entry of its list,
    the record of a skip or of a fetch. *)
Lemma reconcile_processes_all hashlib self l :
  ∀ w, ∃ w',
    for_each l (sync_entry hashlib self) w = (Ret tt, w') ∧
    log w `prefix_of` log w' ∧
    Forall (λ a, processed self a (drop (length (log w)) (log w'))) l.
Proof.
  induction l as [|a l IH]; intros w.
  { exists w. by split_and!. }
  destruct (sync_entry_total hashlib self a w) as [w1 H1].
  destruct (sync_entry_processed hashlib self a w) as (records & Hlog & Hp).
  rewrite H1 in Hlog. cbn [snd] in Hlog.
  destruct (IH w1) as (w' & Hrun & [rest Hpre] & Hall).
  exists w'. cbn [for_each]. unfold bind. rewrite H1. split; [done|]. split.
  - rewrite Hpre, Hlog, <- app_assoc. by apply prefix_app_r.
  - constructor.
    + rewrite Hpre, Hlog, <- app_assoc, drop_app_length.
      destruct Hp as [Hp|Hp]; [left|right]; apply elem_of_app; by left.
    + eapply Forall_impl; [exact Hall|]. intros b Hb. cbv beta in Hb.
      rewrite Hpre, Hlog in *. rewrite <- app_assoc, drop_app_length.
      rewrite drop_app_length in Hb.
      destruct Hb as [Hb|Hb]; [left|right]; apply elem_of_app; by right.
Qed.

(** What the step does with a stale entry whose fetch fails: the
    failure is logged and no file is written. *)
Lemma failed_fetch_step hashlib self e w :
  stale hashlib self (fs w) e →
  (∀ w0, fs w0 = fs w →
         (download_file self (item_id e) (local_path self e) w0).1 = Ret false) →
  ∃ w' msg,
    sync_entry hashlib self e w = (Ret tt, w') ∧
    log w `prefix_of` log w' ∧
    (INFO, "Downloading file from Drive to " +:+ path_str (local_path self e))
      ∈ drop (length (log w)) (log w') ∧
    last (log w') = Some (ERROR, "Error downloading file " +:+ path_str (local_path self e)
                                 +:+ ": " +:+ msg) ∧
    same_files (fs w) (fs w') ∧
    clock w' = clock w.
Proof.
  intros Hstale Hfail.
  assert (∀ w0 l, fs w0 = fs w → clock w0 = clock w → log w0 = log w ++ l →
            ∃ msg,
              log w `prefix_of` log (download_file self (item_id e) (local_path self e) w0).2 ∧
              (INFO, "Downloading file from Drive to " +:+ path_str (local_path self e))
                ∈ drop (length (log w))
                    (log (download_file self (item_id e) (local_path self e) w0).2) ∧
              last (log (download_file self (item_id e) (local_path self e) w0).2)
                = Some (ERROR, "Error downloading file " +:+ path_str (local_path self e)
                               +:+ ": " +:+ msg) ∧
              same_files (fs w) (fs (download_file self (item_id e) (local_path self e) w0).2) ∧
              clock (download_file self (item_id e) (local_path self e) w0).2 = clock w)
    as Hdl.
  { intros w0 l Hfs Hclock Hl. specialize (Hfail w0 Hfs).
    destruct (download_file_spec self (item_id e) (local_path self e) w0) as (cs & _ & H).
    cbv zeta in H.
    assert (∀ m1 msg,
              same_files (fs w) m1 →
              download_file self (item_id e) (local_path self e) w0 =
                (Ret false,
                 World m1 (clock w0)
                   (log (World (fs w0) (clock w0)
                           (log w0 ++ [(INFO, "Downloading file from Drive to "
                                              +:+ path_str (local_path self e))])
                           (calls w0 ++ cs))
                    ++ [(ERROR, "Error downloading file " +:+ path_str (local_path self e)
                                +:+ ": " +:+ msg)])
                   (calls (World (fs w0) (clock w0)
                             (log w0 ++ [(INFO, "Downloading file from Drive to "
                                                +:+ path_str (local_path self e))])
                             (calls w0 ++ cs)))) →
              ∃ msg,
                log w `prefix_of` log (download_file self (item_id e) (local_path self e) w0).2 ∧
                (INFO, "Downloading file from Drive to " +:+ path_str (local_path self e))
                  ∈ drop (length (log w))
                      (log (download_file self (item_id e) (local_path self e) w0).2) ∧
                last (log (download_file self (item_id e) (local_path self e) w0).2)
                  = Some (ERROR, "Error downloading file " +:+ path_str (local_path self e)
                                 +:+ ": " +:+ msg) ∧
                same_files (fs w) (fs (download_file self (item_id e) (local_path self e) w0).2) ∧
                clock (download_file self (item_id e) (local_path self e) w0).2 = clock w)
      as Hshape.
    { intros m1 msg Hsame ->. exists msg. cbn [snd log fs clock]. rewrite Hl.
      split_and!; [| |by rewrite last_snoc|done|done].
      - rewrite <- !app_assoc. by apply prefix_app_r.
      - rewrite <- !app_assoc, drop_app_length. apply elem_of_app. right. by left. }
    destruct (media_content (get_media (service self) (item_id e))) as [msg|content].
    - apply (Hshape (fs w0) msg); [rewrite Hfs; apply same_files_refl|exact H].
    - destruct H as (m1 & Hm1 & [[msg H]|(r & H & _)]).
      + apply (Hshape m1 msg); [|exact H]. rewrite <- Hfs.
        by eapply new_dirs_along_same_files.
      + rewrite H in Hfail. discriminate. }
  pose proof (sync_entry_by_node hashlib self e w) as H. unfold stale in Hstale.
  destruct (node_at (fs w) (local_path self e)) as [[data mt []|]|].
  - rewrite bool_decide_eq_false_2 in H by congruence.
    destruct (Hdl w [] eq_refl eq_refl) as (msg & ?); [by rewrite app_nil_r|].
    eexists _, msg. split; [exact H|done].
  - destruct H as [msg0 H]. cbv zeta in H.
    destruct (item_md5Checksum e) as [sum|]; [|done].
    destruct (Hdl (logged ERROR ("Error computing MD5 for "
                                 +:+ path_str (local_path self e) +:+ ": " +:+ msg0) w)
                _ eq_refl eq_refl eq_refl) as (msg & ?).
    eexists _, msg. split; [exact H|done].
  - destruct H as [msg0 H]. cbv zeta in H.
    destruct (item_md5Checksum e) as [sum|]; [|done].
    destruct (Hdl (logged ERROR ("Error computing MD5 for "
                                 +:+ path_str (local_path self e) +:+ ": " +:+ msg0) w)
                _ eq_refl eq_refl eq_refl) as (msg & ?).
    eexists _, msg. split; [exact H|done].
  - destruct (Hdl w [] eq_refl eq_refl) as (msg & ?); [by rewrite app_nil_r|].
    eexists _, msg. split; [exact H|done].
Qed.

(** ** The phases after the reconcile loop *)

Lemma reconcile_directories hashlib self m listing w :
  fs w = m →
  ∀ k, fs (for_each listing (sync_entry hashlib self) w).2 !! k = Some Dir →
       k ∈ cycle_directories self m listing.
Proof.
  intros Hm.
  set (known := cycle_directories self m listing).
  assert (∀ e, e ∈ listing →
            ∀ k, k `prefix_of` dirname (local_path self e) → k ∈ known) as Hanc.
  { intros e He k Hk. apply elem_of_remove_dups, elem_of_app. right.
    apply list_elem_of_In, in_concat. eexists. split.
    - apply in_map_iff. exists e. split; [reflexivity|]. by apply list_elem_of_In.
    - by apply list_elem_of_In, elem_of_ancestors. }
  pose proof (preserves_for_each (λ w', ∀ k, fs w' !! k = Some Dir → k ∈ known)
                (sync_entry hashlib self) listing) as Hpres.
  apply (Hpres (λ e He, sync_entry_directories hashlib self known e (Hanc e He)) w).
  intros k Hk. apply elem_of_remove_dups, elem_of_app. left.
  apply elem_of_directories. congruence.
Qed.

(** With fuel for the staging tree, the merge is run to its end, and
    when it returns the purge, the completion record and the upload
    follow; when it raises, its error leaves the block. *)
Lemma later_phases self fuel (known : list pathname) w :
  disjoint_trees (local_folder self) (output_folder self) →
  NoDup known →
  (∀ k, fs w !! k = Some Dir → k ∈ known) →
  (walk_cost known (local_folder self) ≤ fuel)%nat →
  (∃ w5 w6 uploaded w7,
     move_files fuel (local_folder self) (output_folder self) w = (Ret tt, w5) ∧
     purge self fuel w5 = (Ret tt, w6) ∧
     upload_log_file self (cwd self ++ ["drive_sync.log"]) (log_drive_folder_id self)
       (logged INFO "=== Sync process complete ===" w6) = (Ret uploaded, w7) ∧
     (∃ record, log w7 = log w6 ++ [(INFO, "=== Sync process complete ==="); record]) ∧
     sync_tail self fuel w = (Ret tt, w7)) ∨
  (∃ err w5,
     move_files fuel (local_folder self) (output_folder self) w = (Raise err, w5) ∧
     is_Exception err = true ∧
     sync_tail self fuel w = (Raise err, w5)).
Proof.
  intros Hdis Hnd Hknown Hfuel.
  pose proof (move_files_finishes_within fuel (local_folder self) (output_folder self)
                known w Hdis Hnd (λ k _, Hknown k) Hfuel) as Hmove.
  destruct (move_files fuel (local_folder self) (output_folder self) w)
    as [[[]|err|] w5] eqn:Hm; cbn [fst finished] in Hmove; [| |done].
  2:{ right. exists err, w5. split_and!; [done..|].
      unfold sync_tail, bind. by rewrite Hm. }
  left.
  destruct (purge_returns self fuel known w5 Hnd) as [w6 Hpurge]; [|done|].
  { intros k Hk Hd. apply Hknown. rewrite <- Hd. symmetry.
    pose proof (move_files_changes_along fuel (local_folder self) (output_folder self) w)
      as Hch.
    rewrite Hm in Hch. by eapply staging_agrees. }
  destruct (upload_log_file_returns self (cwd self ++ ["drive_sync.log"])
              (log_drive_folder_id self)
              (logged INFO "=== Sync process complete ===" w6)) as (b & w7 & Hup).
  exists w5, w6, b, w7. split_and!; [done..| |].
  { destruct (upload_log_file_log self (cwd self ++ ["drive_sync.log"])
                (log_drive_folder_id self)
                (logged INFO "=== Sync process complete ===" w6)) as [record Hrecord].
    rewrite Hup in Hrecord. cbn [snd] in Hrecord. exists record. rewrite Hrecord.
    cbn [logged log].
    by rewrite <- app_assoc. }
  unfold sync_tail. unfold bind at 1. rewrite Hm.
  unfold bind at 1. rewrite Hpurge.
  unfold bind at 1. rewrite logging_info_logged.
  unfold bind at 1. by rewrite Hup.
Qed.

(** The cycle, once the listing and the reconcile loop have returned. *)
Lemma sync_after_reconcile hashlib self fuel w listing wl w4 :
  get_drive_files self fuel None (logged INFO "=== Starting sync process ===" w)
    = (Ret listing, wl) →
  for_each listing (sync_entry hashlib self) wl = (Ret tt, w4) →
  sync hashlib self fuel w =
    match sync_tail self fuel w4 with
    | (Raise err, w5) =>
        if is_Exception err then (Ret tt, logged ERROR ("Sync error: " +:+ str err) w5)
        else (Raise err, w5)
    | r => r
    end.
Proof.
  intros Hlist Hrec.
  assert (sync hashlib self fuel w =
            try_except (drive_files <- get_drive_files self fuel None ;;
                        for_each drive_files (sync_entry hashlib self) ;;;
                        sync_tail self fuel)
              is_Exception sync_except
              (logged INFO "=== Starting sync process ===" w)) as -> by done.
  unfold try_except. unfold bind at 1. rewrite Hlist.
  unfold bind at 1. rewrite Hrec.
  destruct (sync_tail self fuel w4) as [[[]|err|] w5]; [done| |done].
  destruct (is_Exception err); [|done].
  unfold sync_except. by rewrite logging_error_logged.
Qed.

(** C7: a fetch failure is contained.  Take a cycle whose listing
    returned the entries [before ++ e :: after], with fuel for the
    staging tree, and suppose that when the reconcile loop reaches [e]
    the entry is stale (nothing at its local path, or a hash that is not
    the remote checksum) and its download fails in the file system
    reached, whatever the cause (retrieval, directory creation, opening
    or writing the file).  Then:
    - the loop has handled every entry before [e], each leaving the
      record of its skip or of the start of its fetch;
    - the step for [e] returns; it logs the start of the fetch and ends
      with the ERROR record of the failure; it writes no file (every
      regular file is as it was; only directories may be new);
    - the loop goes on and handles every entry after [e], each leaving
      its record in the log written after the failure;
    - the merge is then run in the state the loop left: when it returns,
      the purge is run in the state the merge left and returns, the
      completion record and the record of the log upload are the last
      two of the log, and the cycle ends in the state the upload
      leaves; when the merge raises, the cycle ends with the merge's
      error logged. *)
Theorem fetch_failure_is_contained hashlib self fuel w before e after wl :
  disjoint_trees (local_folder self) (output_folder self) →
  get_drive_files self fuel None (logged INFO "=== Starting sync process ===" w)
    = (Ret (before ++ e :: after), wl) →
  (walk_cost (cycle_directories self (fs w) (before ++ e :: after)) (local_folder self)
   ≤ fuel)%nat →
  let w2 := (for_each before (sync_entry hashlib self) wl).2 in
  stale hashlib self (fs w2) e →
  (∀ w0, fs w0 = fs w2 →
         (download_file self (item_id e) (local_path self e) w0).1 = Ret false) →
  ∃ w3 w4 msg,
    for_each before (sync_entry hashlib self) wl = (Ret tt, w2) ∧
    Forall (λ a, processed self a (drop (length (log wl)) (log w2))) before ∧
    sync_entry hashlib self e w2 = (Ret tt, w3) ∧
    log w2 `prefix_of` log w3 ∧
    (INFO, "Downloading file from Drive to " +:+ path_str (local_path self e))
      ∈ drop (length (log w2)) (log w3) ∧
    last (log w3) = Some (ERROR, "Error downloading file " +:+ path_str (local_path self e)
                                 +:+ ": " +:+ msg) ∧
    same_files (fs w2) (fs w3) ∧
    for_each after (sync_entry hashlib self) w3 = (Ret tt, w4) ∧
    log w3 `prefix_of` log w4 ∧
    Forall (λ a, processed self a (drop (length (log w3)) (log w4))) after ∧
    ((∃ w5 w6 uploaded w7,
        move_files fuel (local_folder self) (output_folder self) w4 = (Ret tt, w5) ∧
        purge self fuel w5 = (Ret tt, w6) ∧
        upload_log_file self (cwd self ++ ["drive_sync.log"]) (log_drive_folder_id self)
          (logged INFO "=== Sync process complete ===" w6) = (Ret uploaded, w7) ∧
        (∃ record, log w7 = log w6 ++ [(INFO, "=== Sync process complete ==="); record]) ∧
        sync hashlib self fuel w = (Ret tt, w7)) ∨
     (∃ err w5,
        move_files fuel (local_folder self) (output_folder self) w4 = (Raise err, w5) ∧
        sync hashlib self fuel w
          = (Ret tt, logged ERROR ("Sync error: " +:+ str err) w5))).
Proof.
  intros Hdis Hlist Hfuel w2 Hstale Hfail.
  destruct (reconcile_processes_all hashlib self before wl) as (w2' & Hbefore & _ & Hpb).
  assert (w2 = w2') as Hw2 by (unfold w2; by rewrite Hbefore).
  rewrite <- Hw2 in Hbefore, Hpb. clear w2' Hw2.
  destruct (failed_fetch_step hashlib self e w2 Hstale Hfail)
    as (w3 & msg & Hstep & Hpre3 & Hstart & Hlast & Hsame & _).
  destruct (reconcile_processes_all hashlib self after w3) as (w4 & Hafter & Hpre4 & Hpa).
  exists w3, w4, msg. do 10 (split; [done|]).
  assert (for_each (before ++ e :: after) (sync_entry hashlib self) wl = (Ret tt, w4))
    as Hrec.
  { rewrite for_each_app. unfold bind at 1. rewrite Hbefore.
    cbn [for_each]. unfold bind at 1. by rewrite Hstep. }
  pose proof (get_drive_files_run self fuel None
                (logged INFO "=== Starting sync process ===" w)) as (Hfs & _).
  rewrite Hlist in Hfs. cbn [snd logged fs] in Hfs.
  pose proof (reconcile_directories hashlib self (fs w) (before ++ e :: after) wl Hfs)
    as Hdirs.
  rewrite Hrec in Hdirs. cbn [snd] in Hdirs.
  rewrite (sync_after_reconcile hashlib self fuel w _ wl w4 Hlist Hrec).
  destruct (later_phases self fuel (cycle_directories self (fs w) (before ++ e :: after)) w4
              Hdis (NoDup_remove_dups _) Hdirs Hfuel)
    as [(w5 & w6 & b & w7 & Hm & Hp & Hup & Hdone & ->)|(err & w5 & Hm & Hexc & ->)].
  - left. by exists w5, w6, b, w7.
  - right. exists err, w5. by rewrite Hexc.
Qed.

Lemma fetch_failure_is_contained_witness :
  let w2 := (for_each [demo_f] (sync_entry toy_hashlib demo_self) demo_listed).2 in
  ∃ w3 w4 msg,
    for_each [demo_f] (sync_entry toy_hashlib demo_self) demo_listed = (Ret tt, w2) ∧
    Forall (λ a, processed demo_self a (drop (length (log demo_listed)) (log w2)))
      [demo_f] ∧
    sync_entry toy_hashlib demo_self demo_bad w2 = (Ret tt, w3) ∧
    log w2 `prefix_of` log w3 ∧
    (INFO, "Downloading file from Drive to " +:+ path_str (local_path demo_self demo_bad))
      ∈ drop (length (log w2)) (log w3) ∧
    last (log w3) = Some (ERROR, "Error downloading file "
                                 +:+ path_str (local_path demo_self demo_bad)
                                 +:+ ": " +:+ msg) ∧
    same_files (fs w2) (fs w3) ∧
    for_each [demo_g] (sync_entry toy_hashlib demo_self) w3 = (Ret tt, w4) ∧
    log w3 `prefix_of` log w4 ∧
    Forall (λ a, processed demo_self a (drop (length (log w3)) (log w4))) [demo_g] ∧
    ((∃ w5 w6 uploaded w7,
        move_files 10 (local_folder demo_self) (output_folder demo_self) w4 = (Ret tt, w5) ∧
        purge demo_self 10 w5 = (Ret tt, w6) ∧
        upload_log_file demo_self (cwd demo_self ++ ["drive_sync.log"])
          (log_drive_folder_id demo_self)
          (logged INFO "=== Sync process complete ===" w6) = (Ret uploaded, w7) ∧
        (∃ record, log w7 = log w6 ++ [(INFO, "=== Sync process complete ==="); record]) ∧
        sync toy_hashlib demo_self 10 demo_world = (Ret tt, w7)) ∨
     (∃ err w5,
        move_files 10 (local_folder demo_self) (output_folder demo_self) w4
          = (Raise err, w5) ∧
        sync toy_hashlib demo_self 10 demo_world
          = (Ret tt, logged ERROR ("Sync error: " +:+ str err) w5))).
Proof.
  apply (fetch_failure_is_contained toy_hashlib demo_self 10 demo_world
           [demo_f] demo_bad [demo_g] demo_listed).
  - intros [[k H]|[k H]]; discriminate.
  - vm_compute. reflexivity.
  - vm_compute. lia.
  - vm_compute. exact I.
  - intros [m c l cs] Hfs. cbn [fs] in Hfs. subst m. vm_compute. reflexivity.
Defined.

(** ** Logs without errors *)

Lemma clean_since_prefix n w w' :
  log w' `prefix_of` log w → clean_since n w → clean_since n w'.
Proof.
  intros [rest H]. unfold clean_since. rewrite H, drop_app. intros Hc.
  by apply Forall_app in Hc as [Hc _].
Qed.

Lemma clean_since_mono n m w : (n ≤ m)%nat → clean_since n w → clean_since m w.
Proof.
  intros Hnm. unfold clean_since. replace m with (n + (m - n))%nat by lia.
  rewrite <- drop_drop. apply Forall_drop.
Qed.

Lemma clean_since_error n w l msg rest :
  log w = l ++ (ERROR, msg) :: rest → (n ≤ length l)%nat → ¬ clean_since n w.
Proof.
  intros H Hn Hc. unfold clean_since in Hc. rewrite H, drop_app_le in Hc by done.
  apply Forall_app in Hc as [_ Hc]. apply Forall_cons in Hc as [Hc _].
  apply Hc. reflexivity.
Qed.

(** ** Relative paths and their components *)

Lemma str_app_nil_r s : s +:+ "" = s.
Proof.
  induction s as [|c s IH]; [done|].
  change (String c (s +:+ "") = String c s). by rewrite IH.
Qed.

Lemma str_app_assoc a b c : (a +:+ b) +:+ c = a +:+ (b +:+ c).
Proof.
  induction a as [|x a IH]; [done|].
  change (String x ((a +:+ b) +:+ c) = String x (a +:+ (b +:+ c))). by rewrite IH.
Qed.

Lemma split_path_nonempty s cur : split_path s cur ≠ [].
Proof.
  revert cur. induction s as [|c s IH]; intros cur; cbn [split_path]; [done|].
  case_bool_decide; [done|apply IH].
Qed.

(** Joining the components with ['/'] gives the path back. *)
Lemma split_path_concat s cur : String.concat "/" (split_path s cur) = cur +:+ s.
Proof.
  revert cur. induction s as [|c s IH]; intros cur; cbn [split_path].
  { cbn. by rewrite str_app_nil_r. }
  case_bool_decide as Hc.
  - subst c. specialize (IH "").
    destruct (split_path s "") as [|x xs] eqn:E; [by apply split_path_nonempty in E|].
    change (cur +:+ "/" +:+ String.concat "/" (x :: xs) = cur +:+ String "/"%char s).
    rewrite IH. reflexivity.
  - rewrite IH, str_app_assoc. reflexivity.
Qed.

Lemma split_path_inj s s' : split_path s "" = split_path s' "" → s = s'.
Proof.
  intros H. apply (f_equal (String.concat "/")) in H.
  by rewrite !split_path_concat in H.
Qed.

(** Entries with distinct plain relative paths have distinct local
    paths. *)
Lemma local_paths_distinct self l :
  Forall (λ e, plain_path (relative_path e) = true) l →
  NoDup (map relative_path l) →
  NoDup (map (local_path self) l).
Proof.
  induction 1 as [|e l He Hl IH]; intros Hnd; cbn [map]; [constructor|].
  cbn [map] in Hnd. apply NoDup_cons in Hnd as [Hnotin Hnd].
  apply NoDup_cons. split; [|by apply IH].
  intros Hin. apply Hnotin. apply list_elem_of_fmap in Hin as (e' & Heq & He').
  apply list_elem_of_fmap. exists e'. split; [|done].
  rewrite Forall_forall in Hl. specialize (Hl e' He').
  rewrite !local_path_plain in Heq by done.
  apply app_inv_head in Heq. by apply split_path_inj.
Qed.

Lemma local_path_not_root self e :
  plain_path (relative_path e) = true → local_path self e ≠ [].
Proof.
  intros H. rewrite local_path_plain by done. intros E.
  apply app_eq_nil in E as [_ E]. by apply split_path_nonempty in E.
Qed.

Lemma node_at_file m p data mt r :
  node_at m p = Some (File data mt r) → m !! p = Some (File data mt r).
Proof. by destruct p. Qed.

Lemma node_at_lookup m p : p ≠ [] → node_at m p = m !! p.
Proof. by destruct p. Qed.

(** ** File systems are trees *)

Lemma tree_like_above m k rest :
  tree_like m → is_Some (m !! (k ++ rest)) → rest ≠ [] → is_dir m k = true.
Proof.
  intros Ht. induction rest as [|y rest IH] using rev_ind; intros Hk Hne; [done|].
  assert (is_dir m (k ++ rest) = true) as Hd.
  { destruct Hk as [n Hn]. pose proof (map_Forall_lookup_1 _ _ _ _ Ht Hn) as H.
    cbv beta in H. unfold dirname in H. by rewrite app_assoc, removelast_last in H. }
  destruct (decide (rest = [])) as [->|Hr]; [by rewrite app_nil_r in Hd|].
  apply IH; [|done].
  destruct (exists_last Hr) as (rest' & z & ->).
  rewrite app_assoc in Hd. apply is_dir_lookup in Hd. rewrite app_assoc. by eexists.
Qed.

Lemma tree_like_dir_under m root d x :
  tree_like m → is_Some (m !! (root ++ d ++ [x])) → dir_under m root d.
Proof.
  intros Ht Hk n Hn. apply (tree_like_above m (root ++ take n d) (drop n d ++ [x])); [done| |].
  - by rewrite <- app_assoc, (app_assoc (take n d)), take_drop.
  - by destruct (drop n d).
Qed.

(** ** What a fetch touches *)

Lemma download_file_returns self file_id file_path w :
  ∃ b, (download_file self file_id file_path w).1 = Ret b.
Proof.
  destruct (download_file_spec self file_id file_path w) as (cs & _ & H). cbv zeta in H.
  destruct (media_content _).
  - rewrite H. by eexists.
  - destruct H as (m1 & _ & [[msg ->]|(r & -> & _)]); by eexists.
Qed.

Lemma download_file_false_logged self file_id file_path w :
  (download_file self file_id file_path w).1 = Ret false →
  ∃ msg,
    log (download_file self file_id file_path w).2 =
      (log w ++ [(INFO, "Downloading file from Drive to " +:+ path_str file_path)])
      ++ [(ERROR, "Error downloading file " +:+ path_str file_path +:+ ": " +:+ msg)].
Proof.
  intros Hfalse.
  destruct (download_file_spec self file_id file_path w) as (cs & _ & H). cbv zeta in H.
  destruct (media_content _) as [msg|content].
  - rewrite H. by exists msg.
  - destruct H as (m1 & _ & [[msg H]|(r & H & _)]); rewrite H in *; [by exists msg|].
    discriminate.
Qed.

Lemma download_file_footprint self file_id file_path w k :
  k ≠ file_path →
  fs (download_file self file_id file_path w).2 !! k = fs w !! k ∨
  (fs w !! k = None ∧
   fs (download_file self file_id file_path w).2 !! k = Some Dir ∧
   k `prefix_of` dirname file_path).
Proof.
  intros Hk.
  destruct (download_file_spec self file_id file_path w) as (cs & _ & H). cbv zeta in H.
  destruct (media_content _) as [msg|content].
  - rewrite H. by left.
  - destruct H as (m1 & Hm1 & [[msg ->]|(r & -> & _)]); cbn [snd fs].
    + destruct (Hm1 k) as [?|(? & ? & ?)]; [by left|by right].
    + rewrite lookup_insert_ne by done.
      destruct (Hm1 k) as [?|(? & ? & ?)]; [by left|by right].
Qed.

(** The step of the reconcile loop, with what its test found. *)
Lemma sync_entry_shape hashlib self e w :
  (in_sync hashlib self (fs w) e ∧
   sync_entry hashlib self e w =
     (Ret tt, logged INFO ("Skipping " +:+ path_str (local_path self e)
                           +:+ ", already up-to-date.") w)) ∨
  ((node_at (fs w) (local_path self e) = None ∨
    ∃ data mt, node_at (fs w) (local_path self e) = Some (File data mt true)) ∧
   sync_entry hashlib self e w =
     (Ret tt, (download_file self (item_id e) (local_path self e) w).2)) ∨
  (∃ msg w0,
     w0 = logged ERROR ("Error computing MD5 for " +:+ path_str (local_path self e)
                        +:+ ": " +:+ msg) w ∧
     (sync_entry hashlib self e w =
        (Ret tt, logged INFO ("Skipping " +:+ path_str (local_path self e)
                              +:+ ", already up-to-date.") w0) ∨
      sync_entry hashlib self e w =
        (Ret tt, (download_file self (item_id e) (local_path self e) w0).2))).
Proof.
  pose proof (sync_entry_by_node hashlib self e w) as H.
  destruct (node_at (fs w) (local_path self e)) as [[data mt []|]|] eqn:Hn.
  - case_bool_decide as Hc.
    + left. split; [|done]. exists data, mt. by split.
    + right. left. split; [|done]. right. by exists data, mt.
  - right. right. destruct H as [msg H]. cbv zeta in H. exists msg. eexists.
    split; [reflexivity|]. destruct (item_md5Checksum e); [by right|by left].
  - right. right. destruct H as [msg H]. cbv zeta in H. exists msg. eexists.
    split; [reflexivity|]. destruct (item_md5Checksum e); [by right|by left].
  - right. left. split; [by left|done].
Qed.

Lemma sync_entry_footprint hashlib self e w k :
  k ≠ local_path self e →
  fs (sync_entry hashlib self e w).2 !! k = fs w !! k ∨
  (fs w !! k = None ∧
   fs (sync_entry hashlib self e w).2 !! k = Some Dir ∧
   k `prefix_of` dirname (local_path self e)).
Proof.
  intros Hk.
  destruct (sync_entry_shape hashlib self e w)
    as [[_ ->]|[[_ ->]|(msg & w0 & -> & [-> | ->])]]; cbn [snd logged fs].
  - by left.
  - by apply download_file_footprint.
  - by left.
  - by apply (download_file_footprint self (item_id e) (local_path self e) (logged _ _ w)).
Qed.

(** A step that logs no error leaves the entry in sync: it was, or it
    has been fetched and the checksum is that of the content. *)
Lemma clean_step_in_sync hashlib self e w :
  truthful_checksum hashlib self e →
  clean_since (length (log w)) (sync_entry hashlib self e w).2 →
  in_sync hashlib self (fs (sync_entry hashlib self e w).2) e.
Proof.
  intros Htrue Hclean.
  destruct (sync_entry_shape hashlib self e w)
    as [[Hin Hrun]|[[Hnode Hrun]|(msg & w0 & -> & [Hrun|Hrun])]];
    rewrite Hrun in *; cbn [snd] in *.
  - exact Hin.
  - destruct (download_file_returns self (item_id e) (local_path self e) w) as [[] Hb].
    + destruct (download_file self (item_id e) (local_path self e) w) as [o w'] eqn:Hdl.
      cbn [fst snd] in *. subst o.
      destruct (download_file_Ret_true self _ _ _ _ Hdl) as (content & Hmedia & Hfile).
      exists content, (clock w). split; [|by apply Htrue].
      rewrite Hfile. by destruct Hnode as [->|(data & mt & ->)].
    + destruct (download_file_false_logged self _ _ _ Hb) as [msg Hlog].
      exfalso. eapply clean_since_error; [exact Hlog| |exact Hclean].
      rewrite length_app. lia.
  - exfalso. eapply (clean_since_error _ _ (log w)); [|reflexivity|exact Hclean].
    cbn [logged log]. by rewrite <- app_assoc.
  - exfalso.
    destruct (download_file_log self (item_id e) (local_path self e)
                (logged ERROR ("Error computing MD5 for " +:+ path_str (local_path self e)
                               +:+ ": " +:+ msg) w)) as [record Hlog].
    eapply (clean_since_error _ _ (log w)); [|reflexivity|exact Hclean].
    rewrite Hlog. cbn [logged log]. by rewrite <- app_assoc.
Qed.

Lemma for_each_cons_total hashlib self a l w :
  for_each (a :: l) (sync_entry hashlib self) w
  = for_each l (sync_entry hashlib self) (sync_entry hashlib self a w).2.
Proof.
  cbn [for_each]. unfold bind.
  by destruct (sync_entry_total hashlib self a w) as [w1 ->].
Qed.

(** The reconcile loop keeps a regular file that is the local path of
    none of its entries. *)
Lemma reconcile_keeps_file hashlib self l k data mt r :
  (∀ e, e ∈ l → k ≠ local_path self e) →
  ∀ w, fs w !! k = Some (File data mt r) →
       fs (for_each l (sync_entry hashlib self) w).2 !! k = Some (File data mt r).
Proof.
  induction l as [|a l IH]; intros Hk w Hfile; [done|].
  rewrite for_each_cons_total. apply IH.
  - intros e He. apply Hk. by right.
  - destruct (sync_entry_footprint hashlib self a w k) as [E|(E & _)].
    + apply Hk. by left.
    + by rewrite E.
    + congruence.
Qed.

(** A reconcile loop that logs no error leaves every entry in sync. *)
Lemma clean_reconcile hashlib self l :
  Forall (λ e, plain_path (relative_path e) = true) l →
  NoDup (map (local_path self) l) →
  Forall (truthful_checksum hashlib self) l →
  ∀ w, clean_since (length (log w)) (for_each l (sync_entry hashlib self) w).2 →
       Forall (in_sync hashlib self (fs (for_each l (sync_entry hashlib self) w).2)) l.
Proof.
  induction l as [|a l IH]; intros Hplain Hnd Htrue w Hclean; [constructor|].
  apply Forall_cons in Hplain as [Hpa Hplain].
  apply Forall_cons in Htrue as [Hta Htrue].
  cbn [map] in Hnd. apply NoDup_cons in Hnd as [Hnotin Hnd].
  rewrite for_each_cons_total in *.
  set (w1 := (sync_entry hashlib self a w).2) in *.
  assert (log w `prefix_of` log w1) as Hpre1 by apply log_grows_sync_entry.
  assert (log w1 `prefix_of` log (for_each l (sync_entry hashlib self) w1).2) as Hpre2.
  { apply log_grows_for_each. intros x. apply log_grows_sync_entry. }
  assert (in_sync hashlib self (fs w1) a) as (data & mt & Hnode & Hsum).
  { apply clean_step_in_sync; [done|]. by eapply clean_since_prefix. }
  constructor.
  - exists data, mt. split; [|done].
    rewrite node_at_lookup by by apply local_path_not_root.
    apply reconcile_keeps_file; [|by apply node_at_file].
    intros e He E. apply Hnotin. apply list_elem_of_fmap. by exists e.
  - apply IH; [done..|]. eapply clean_since_mono; [|exact Hclean].
    by apply prefix_length.
Qed.

(** The reconcile loop writes on the branch of the output root only. *)
Lemma reconcile_changes_along hashlib self l :
  Forall (λ e, plain_path (relative_path e) = true) l →
  ∀ w, changes_along (output_folder self) (fs w)
         (fs (for_each l (sync_entry hashlib self) w).2).
Proof.
  induction 1 as [|a l Ha Hl IH]; intros w; [apply changes_along_refl|].
  rewrite for_each_cons_total.
  eapply changes_along_trans; [|apply IH].
  intros k Hk.
  assert (local_path self a = output_folder self ++ split_path (relative_path a) "")
    as Hp by by apply local_path_plain.
  destruct (sync_entry_footprint hashlib self a w k) as [E|(_ & _ & Hpre)]; [|done|].
  - intros ->. apply Hk. left. rewrite Hp. by apply prefix_app_r.
  - destruct Hk. apply (comparable_extension _ (split_path (relative_path a) "")).
    rewrite <- Hp. etrans; [exact Hpre|].
    unfold dirname. exists [List.last (local_path self a) ""].
    apply app_removelast_last. by apply local_path_not_root.
Qed.

(** ** The merge keeps what no staged file shadows *)

Lemma copy_loop_keeps m0 intake output r k :
  disjoint_trees intake output →
  (∀ x, k = output ++ r ++ [x] → is_file m0 (intake ++ r ++ [x]) = false) →
  ∀ files w w',
    changes_along output m0 (fs w) →
    for_each files (move_file (intake ++ r) (output ++ r)) w = (Ret tt, w') →
    fs w' !! k = fs w !! k.
Proof.
  intros Hdis Hk files. induction files as [|y files IH]; intros w w' Hch H.
  { cbn in H. unfold ret in H. by simplify_eq. }
  cbn [for_each] in H. apply bind_Ret_inv in H as ([] & w1 & Hstep & H).
  pose proof (move_file_changes_along m0 output r (intake ++ r) y w Hch) as Hch1.
  rewrite Hstep in Hch1. cbn [snd] in Hch1.
  apply move_file_Ret in Hstep as (data & mt & Hsrc & _ & Hfs).
  rewrite (IH _ _ Hch1 H), Hfs.
  apply lookup_insert_ne. intros E.
  specialize (Hk y). rewrite <- E, <- app_assoc in Hk. specialize (Hk eq_refl).
  rewrite (staging_agrees intake output m0 (fs w)) in Hsrc;
    [|done..|rewrite <- app_assoc; by apply prefix_app_r].
  unfold is_file in Hk. rewrite app_assoc, node_at_app_singleton, Hsrc in Hk. done.
Qed.

(** A merge pass that returns leaves a regular file as it was, unless a
    staged file has the same relative path. *)
Lemma merge_keeps_unshadowed fuel intake output w w' k data mt r :
  disjoint_trees intake output →
  move_files fuel intake output w = (Ret tt, w') →
  fs w !! k = Some (File data mt r) →
  (∀ d x, k = output ++ d ++ [x] → is_file (fs w) (intake ++ d ++ [x]) = false) →
  fs w' !! k = Some (File data mt r).
Proof.
  intros Hdis Hrun Hfile Hk.
  pose (J := λ (stack : list pathname) (w1 : world),
    changes_along output (fs w) (fs w1) ∧
    Forall (λ top, intake `prefix_of` top) stack ∧
    fs w1 !! k = Some (File data mt r)).
  assert (J [] w') as (_ & _ & H); [|done].
  eapply (os_walk_Ret_inv J (move_dir intake output)); [| | |exact Hrun].
  - intros top stack w1 (Hch & Hst & Hf) _. split_and!; [done| |done].
    by apply Forall_cons in Hst as [_ ?].
  - intros top stack w1 dirs files w2 (Hch & Hst & Hf) Hscan Hbody.
    apply Forall_cons in Hst as [[d ->] Hst].
    unfold move_dir in Hbody. rewrite relpath_app in Hbody.
    apply bind_Ret_inv in Hbody as ([] & w1' & Hens & Hloop).
    assert (changes_along output (fs w) (fs w1')) as Hch'.
    { eapply changes_along_trans; [exact Hch|].
      pose proof (ensure_dir_changes_along output d w1) as H. by rewrite Hens in H. }
    assert (fs w1' !! k = Some (File data mt r)) as Hf'.
    { destruct (ensure_dir_spec (output ++ d) w1) as [[_ E]|[_ E]]; rewrite E in Hens.
      - by simplify_eq.
      - destruct (os_makedirs_spec (output ++ d) false w1) as (o & m' & Hmk & Hm & _).
        rewrite Hmk in Hens. simplify_eq. cbn [set_fs fs].
        by apply (new_dirs_along_file _ _ _ k data mt r Hm). }
    split_and!.
    + pose proof (preserves_for_each (λ w0, changes_along output (fs w) (fs w0))
                    (move_file (intake ++ d) (output ++ d)) files
                    (λ file _, move_file_changes_along (fs w) output d (intake ++ d) file)
                    w1' Hch') as H.
      by rewrite Hloop in H.
    + apply Forall_app. split; [|done]. apply Forall_forall. intros p Hp.
      apply list_elem_of_fmap in Hp as (x & -> & _).
      rewrite <- app_assoc. by apply prefix_app_r.
    + by rewrite (copy_loop_keeps (fs w) intake output d k Hdis (Hk d) files w1' w2
                    Hch' Hloop).
  - split_and!; [apply changes_along_refl|by repeat constructor|done].
Qed.

Lemma output_not_staged local output rel :
  disjoint_trees local output → ¬ local `prefix_of` output ++ rel.
Proof.
  intros Hdis Hpre. apply Hdis.
  destruct (prefix_weak_total _ _ _ Hpre
              (prefix_app_r output output rel (reflexivity _))); [by left|by right].
Qed.

(** ** Two cycles *)

(** What a first cycle that logs no error leaves: every listed entry
    in sync and nothing below the staging root. *)
Lemma clean_cycle hashlib self fuel w listing wl :
  disjoint_trees (local_folder self) (output_folder self) →
  tree_like (fs w) →
  get_drive_files self fuel None (logged INFO "=== Starting sync process ===" w)
    = (Ret listing, wl) →
  (walk_cost (cycle_directories self (fs w) listing) (local_folder self) ≤ fuel)%nat →
  Forall (λ e, plain_path (relative_path e) = true) listing →
  NoDup (map relative_path listing) →
  Forall (truthful_checksum hashlib self) listing →
  Forall (not_shadowed self (fs w)) listing →
  clean_since (length (log w)) (sync hashlib self fuel w).2 →
  (sync hashlib self fuel w).1 = Ret tt ∧
  Forall (in_sync hashlib self (fs (sync hashlib self fuel w).2)) listing ∧
  no_staged_files self (fs (sync hashlib self fuel w).2).
Proof.
  intros Hdis Htree Hlist Hfuel Hplain Hnd Htrue Hshadow Hclean.
  pose proof (get_drive_files_run self fuel None
                (logged INFO "=== Starting sync process ===" w)) as (Hfs & _).
  rewrite Hlist in Hfs. cbn [snd logged fs] in Hfs.
  assert (log w `prefix_of` log wl) as Hlog_l.
  { etrans; [|pose proof (log_grows_get_drive_files self fuel None
                           (logged INFO "=== Starting sync process ===" w)) as H;
               rewrite Hlist in H; exact H].
    cbn [logged log]. by apply prefix_app_r. }
  destruct (for_each_total (sync_entry hashlib self) listing
              (sync_entry_total hashlib self) wl) as [w4 Hrec].
  assert (log wl `prefix_of` log w4) as Hlog_4.
  { pose proof (log_grows_for_each (sync_entry hashlib self) listing
                  (log_grows_sync_entry hashlib self) wl) as H.
    by rewrite Hrec in H. }
  pose proof (reconcile_directories hashlib self (fs w) listing wl Hfs) as Hdirs.
  rewrite Hrec in Hdirs. cbn [snd] in Hdirs.
  rewrite (sync_after_reconcile hashlib self fuel w listing wl w4 Hlist Hrec) in *.
  destruct (later_phases self fuel (cycle_directories self (fs w) listing) w4
              Hdis (NoDup_remove_dups _) Hdirs Hfuel)
    as [(w5 & w6 & b & w7 & Hm & Hp & Hup & _ & Htail)|(err & w5 & Hm & Hexc & Htail)];
    rewrite Htail in *.
  2:{ exfalso. rewrite Hexc in Hclean. cbn [snd] in Hclean.
      apply (clean_since_error (length (log w))
               (logged ERROR ("Sync error: " +:+ str err) w5) (log w5) _ [] eq_refl);
        [|exact Hclean].
      apply prefix_length. etrans; [exact Hlog_l|]. etrans; [exact Hlog_4|].
      pose proof (log_grows_move_files fuel (local_folder self) (output_folder self) w4)
        as H.
      by rewrite Hm in H. }
  cbn [fst snd] in *. split; [done|].
  assert (log w4 `prefix_of` log w5) as Hlog_5.
  { pose proof (log_grows_move_files fuel (local_folder self) (output_folder self) w4)
      as H.
    by rewrite Hm in H. }
  assert (log w5 `prefix_of` log w6) as Hlog_6.
  { pose proof (log_grows_purge self fuel w5) as H. by rewrite Hp in H. }
  assert (log w6 `prefix_of` log w7) as Hlog_7.
  { etrans; [|pose proof (log_grows_upload_log_file self (cwd self ++ ["drive_sync.log"])
                           (log_drive_folder_id self)
                           (logged INFO "=== Sync process complete ===" w6)) as H;
               rewrite Hup in H; exact H].
    cbn [logged log]. by apply prefix_app_r. }
  assert (fs w7 = fs w6) as Hfs7.
  { pose proof (upload_log_file_fs self (cwd self ++ ["drive_sync.log"])
                  (log_drive_folder_id self)
                  (logged INFO "=== Sync process complete ===" w6)) as H.
    by rewrite Hup in H. }
  (* the reconcile loop *)
  assert (Forall (in_sync hashlib self (fs w4)) listing) as Hsync4.
  { pose proof (clean_reconcile hashlib self listing Hplain
                  (local_paths_distinct self listing Hplain Hnd) Htrue wl) as H.
    rewrite Hrec in H. apply H.
    eapply clean_since_mono; [by apply prefix_length|].
    eapply clean_since_prefix; [|exact Hclean].
    etrans; [exact Hlog_5|]. etrans; [exact Hlog_6|done]. }
  assert (changes_along (output_folder self) (fs w) (fs w4)) as Hch4.
  { pose proof (reconcile_changes_along hashlib self listing Hplain wl) as H.
    by rewrite Hrec, Hfs in H. }
  assert (changes_along (output_folder self) (fs w) (fs w5)) as Hch5.
  { eapply changes_along_trans; [exact Hch4|].
    pose proof (move_files_changes_along fuel (local_folder self) (output_folder self) w4)
      as H.
    by rewrite Hm in H. }
  pose proof (purge_only_files_removed self fuel w5) as Hrem. rewrite Hp in Hrem.
  cbn [snd] in Hrem.
  split.
  - (* every entry is still in sync after merge, purge and upload *)
    rewrite Forall_forall in Hsync4, Hplain, Hshadow. apply Forall_forall. intros e He.
    destruct (Hsync4 e He) as (data & mt & Hnode & Hsum).
    specialize (Hplain e He). specialize (Hshadow e He). unfold not_shadowed in Hshadow.
    exists data, mt. split; [|done].
    rewrite node_at_lookup by by apply local_path_not_root.
    apply node_at_file in Hnode. rewrite local_path_plain in * by done.
    rewrite Hfs7.
    pose proof (purge_outside_staging self fuel w5
                  (output_folder self ++ split_path (relative_path e) "")
                  (output_not_staged (local_folder self) (output_folder self) _ Hdis)) as Hout.
    rewrite Hp in Hout. cbn [snd] in Hout. rewrite Hout.
    eapply (merge_keeps_unshadowed fuel (local_folder self) (output_folder self) w4 w5);
      [done..|].
    intros d x E. apply app_inv_head in E.
    assert (is_file (fs w4) (local_folder self ++ d ++ [x])
            = is_file (fs w) (local_folder self ++ d ++ [x])) as ->.
    { unfold is_file. rewrite !app_assoc, !node_at_app_singleton, <- !app_assoc.
      by rewrite (staging_agrees (local_folder self) (output_folder self) (fs w) (fs w4));
        [|done..|apply prefix_app_r]. }
    by rewrite <- E.
  - (* nothing is left below the staging root *)
    intros d x. rewrite Hfs7.
    destruct (is_file (fs w6) (local_folder self ++ d ++ [x])) eqn:Hf; [exfalso|done].
    apply is_file_lookup in Hf as (data & mt & r & Hf).
    assert (fs w5 !! (local_folder self ++ d ++ [x]) = Some (File data mt r)) as Hf5.
    { destruct (Hrem (local_folder self ++ d ++ [x])) as [E|[_ E]]; congruence. }
    assert (∀ k, (local_folder self) `prefix_of` k → fs w5 !! k = fs w !! k) as Hstaging.
    { intros k Hk. by apply (staging_agrees (local_folder self) (output_folder self)). }
    assert (fs w !! (local_folder self ++ d ++ [x]) = Some (File data mt r)) as Hf0.
    { rewrite <- Hstaging; [done|by apply prefix_app_r]. }
    assert (fs w6 !! (local_folder self ++ d ++ [x]) = None); [|congruence].
    apply (purge_removes_staged_files self fuel w5 w6 Hp).
    exists d, x. split_and!; [done| |].
    + intros n Hn. rewrite (is_dir_agrees (fs w) (fs w5)).
      * by apply (tree_like_dir_under (fs w) (local_folder self) d x Htree).
      * apply Hstaging. by apply prefix_app_r.
    + unfold is_file. by rewrite app_assoc, node_at_app_singleton, <- app_assoc, Hf5.
Qed.

(** C1, amended: the second of two cycles writes no file.  Take a file
    system that is a tree, staging and output being disjoint, and a
    first cycle, with fuel for the staging tree, whose listing returned
    entries with plain and pairwise distinct relative paths, each with
    the digest of its remote content as checksum, none with a staged
    regular file at the same relative path.  If that first cycle logs no
    error, it returns with every listed entry standing at its local path
    (the output root followed by the components of the relative path),
    readable, its digest being the remote checksum; and a second cycle
    run from there against the same remote leaves, at every path other
    than those of the log file and its rotations, exactly the regular
    files it found, content, modification time and permission: it
    writes, replaces and removes none. *)
Theorem second_cycle_writes_nothing hashlib self fuel w listing wl :
  disjoint_trees (local_folder self) (output_folder self) →
  tree_like (fs w) →
  get_drive_files self fuel None (logged INFO "=== Starting sync process ===" w)
    = (Ret listing, wl) →
  (walk_cost (cycle_directories self (fs w) listing) (local_folder self) ≤ fuel)%nat →
  Forall (λ e, plain_path (relative_path e) = true) listing →
  NoDup (map relative_path listing) →
  Forall (truthful_checksum hashlib self) listing →
  Forall (not_shadowed self (fs w)) listing →
  let w1 := (sync hashlib self fuel w).2 in
  clean_since (length (log w)) w1 →
  sync hashlib self fuel w = (Ret tt, w1) ∧
  Forall (λ e, ∃ data mt,
            fs w1 !! (output_folder self ++ split_path (relative_path e) "")
              = Some (File data mt true) ∧
            item_md5Checksum e = Some (file_md5 hashlib data)) listing ∧
  ∀ p, ¬ is_log_path self p → ∀ data mt r,
    fs (sync hashlib self fuel w1).2 !! p = Some (File data mt r) ↔
    fs w1 !! p = Some (File data mt r).
Proof.
  intros Hdis Htree Hlist Hfuel Hplain Hnd Htrue Hshadow w1 Hclean.
  destruct (clean_cycle hashlib self fuel w listing wl Hdis Htree Hlist Hfuel Hplain Hnd
              Htrue Hshadow Hclean) as (Hret & Hsync & Hstaged).
  fold w1 in Hsync, Hstaged.
  split_and!.
  - unfold w1. destruct (sync hashlib self fuel w) as [o w']. cbn [fst snd] in *.
    by subst o.
  - rewrite Forall_forall in Hsync, Hplain. apply Forall_forall. intros e He.
    destruct (Hsync e He) as (data & mt & Hnode & Hsum). exists data, mt.
    split; [|done]. apply node_at_file in Hnode.
    by rewrite local_path_plain in Hnode by by apply Hplain.
  - intros p _ data mt r.
    apply (idle_cycle_writes_nothing hashlib self fuel w1); [|done].
    intros drive_files Hsecond.
    destruct (get_drive_files self fuel None
                (logged INFO "=== Starting sync process ===" w1)) as [o w2] eqn:Hrun.
    cbn [fst] in Hsecond. subst o.
    pose proof (proj1 (listing_sound self fuel) _ _ _ _ Hlist) as Hflat1.
    pose proof (proj1 (listing_sound self fuel) _ _ _ _ Hrun) as Hflat2.
    by rewrite (flat_det _ _ _ Hflat2 _ Hflat1).
Qed.

Lemma second_cycle_writes_nothing_witness :
  let listing := [set_path (leaf "f" "f" (Some "hello")) "X/f"; demo_g] in
  let w1 := (sync toy_hashlib steady_self 10 demo_world).2 in
  sync toy_hashlib steady_self 10 demo_world = (Ret tt, w1) ∧
  Forall (λ e, ∃ data mt,
            fs w1 !! (output_folder steady_self ++ split_path (relative_path e) "")
              = Some (File data mt true) ∧
            item_md5Checksum e = Some (file_md5 toy_hashlib data)) listing ∧
  ∀ p, ¬ is_log_path steady_self p → ∀ data mt r,
    fs (sync toy_hashlib steady_self 10 w1).2 !! p = Some (File data mt r) ↔
    fs w1 !! p = Some (File data mt r).
Proof.
  intros listing.
  apply (second_cycle_writes_nothing toy_hashlib steady_self 10 demo_world listing
           (get_drive_files steady_self 10 None
              (logged INFO "=== Starting sync process ===" demo_world)).2).
  - intros [[k H]|[k H]]; discriminate.
  - unfold tree_like.
    set (P := λ (k : pathname) (_ : node), is_dir (fs demo_world) (dirname k) = true).
    change (map_Forall P demo_fs). unfold demo_fs.
    repeat (apply map_Forall_insert_2; [reflexivity|]). apply map_Forall_empty.
  - vm_compute. reflexivity.
  - vm_compute. lia.
  - repeat (constructor; [reflexivity|]). constructor.
  - cbn [map listing]. apply NoDup_cons. split; [|apply NoDup_singleton].
    intros H. apply elem_of_cons in H as [H|H]; [discriminate|by apply elem_of_nil in H].
  - repeat (constructor; [intros content H; vm_compute in H; by simplify_eq|]). constructor.
  - repeat (constructor; [reflexivity|]). constructor.
  - unfold clean_since. vm_compute.
    repeat (constructor; [intros H; discriminate H|]). constructor.
Defined.

(** ** Why each proviso is there

    Without the remote checksum an entry is fetched by every cycle. *)
Lemma second_cycle_refetches_entry_without_checksum :
  ¬ cycle_idempotent toy_hashlib (with_service clash_self unhashed_drive) 10 demo_world.
Proof.
  intros H.
  specialize (H ["srv"; "out"; "report.txt"] (String.list_byte_of_string "REMOTE") 5 true).
  vm_compute in H. specialize (H eq_refl). discriminate.
Qed.

(** Two entries with one relative path overwrite each other in every
    cycle. *)
Lemma second_cycle_refetches_entries_of_one_path :
  ¬ cycle_idempotent toy_hashlib (with_service clash_self twin_drive) 10 demo_world.
Proof.
  intros H.
  specialize (H ["srv"; "out"; "report.txt"] (String.list_byte_of_string "TWO") 6 true).
  vm_compute in H. specialize (H eq_refl). discriminate.
Qed.

(** A local file that cannot be hashed (the error is logged) is
    fetched by every cycle. *)
Lemma second_cycle_refetches_unreadable_file :
  ¬ cycle_idempotent toy_hashlib clash_self 10 unreadable_world.
Proof.
  intros H.
  specialize (H ["srv"; "out"; "report.txt"] (String.list_byte_of_string "REMOTE") 5 false).
  vm_compute in H. specialize (H eq_refl). discriminate.
Qed.

(** When the output root lies in the staging tree the purge removes
    what the cycle fetched, and the next cycle fetches it again. *)
Lemma second_cycle_refetches_when_output_is_staged :
  let w1 := (sync toy_hashlib staged_output_self 10 demo_world).2 in
  (sync toy_hashlib staged_output_self 10 demo_world).1 = Ret tt ∧
  fs w1 !! ["srv"; "out"; "report.txt"] = None ∧
  (INFO, "Downloading file from Drive to /srv/out/report.txt")
    ∈ drop (length (log w1)) (log (sync toy_hashlib staged_output_self 10 w1).2).
Proof.
  cbv zeta. split_and!.
  - vm_compute. reflexivity.
  - vm_compute. reflexivity.
  - apply list_elem_of_In. vm_compute. repeat (first [left; reflexivity|right]).
Qed.
